(** * Rate limiter and token service of [Rate-limiter/main.go]

    A shallow embedding of the admission-control core: the token-bucket
    rate limiter ([TokenBucket], [RateLimiter]), the token service
    ([get_token], [AddToken], [CheckToken], [GetAllUsers]), the handlers of
    [token/] and [check/] and the rate limiting middleware in front of
    them, with an interleaving model of concurrent calls of [IsAllowed].

    Conventions of the embedding.
    - in [Limiter], [Conc] and [Gateway] the [float64] quantities (tokens,
      capacity, fill rate, elapsed seconds) are exact rationals [Q] and
      comparisons are the decidable order of [Q].  This is what the code
      computes wherever no rounding occurs: comparisons, a refill that adds
      nothing, the decrement by one.  The theorems about them are of
      order and of structure (bounds on a bucket, monotonicity, which
      calls are served, what a call leaves as it was); none states the
      value of a bucket after a refill that added tokens.
    - [Binary64] has the bucket in IEEE 754 binary64, the arithmetic of
      [float64], every operation rounded to nearest on its own; the value
      of a bucket after a refill is stated there.
    - [time.Time] is a clock reading in nanoseconds, an integer [Z];
      [time.Duration] is a signed 64-bit count of nanoseconds.
    - every [time.Now()] of the source is an explicit argument.
    - a [sync.Map] is a finite map from [string] keys; a value reached
      through a pointer or a slice stored in the map is written back after
      it is mutated.
    - the store behind [dbconn] is the table [token] as a list of rows and
      answers every [select] and [delete]; the outcome of an [insert] (the
      row created, or an error) and the answers to the queries of
      [GetAllUsers] are arguments.
    - a panic (a failed type assertion, an index out of range) is an
      outcome of its own.

    The definitions come first, module by module; the properties follow. *)

From Stdlib Require Import QArith Qminmax Lqa ZArith Lia Ascii Floats.
From stdpp Require Import gmap strings list fin_maps.

(** Clock readings and durations ([time.Time], [time.Duration]). *)
Module Clock.

Definition Time := Z.
Definition Duration := Z.
Bind Scope Z_scope with Time.
Bind Scope Z_scope with Duration.

Definition minDuration : Duration := (- 2 ^ 63)%Z.
Definition maxDuration : Duration := (2 ^ 63 - 1)%Z.

(** [t.Sub(u)]: the difference, saturated to the range of a Duration. *)
Definition Sub (t u : Time) : Duration :=
  let d := (t - u)%Z in
  if (d <? minDuration)%Z then minDuration
  else if (maxDuration <? d)%Z then maxDuration
  else d.

(** [d.Seconds()]: the duration as a number of seconds, exactly;
    [Binary64.Seconds] is the binary64 number the call returns. *)
Definition Seconds (d : Duration) : Q := Qmake d 1000000000.

(** [t.Before(u)] and [t.After(u)]. *)
Definition Before (t u : Time) : bool := (t <? u)%Z.
Definition After (t u : Time) : bool := (u <? t)%Z.

End Clock.

(** ** The token-bucket rate limiter *)
Module Limiter.
Import Clock.
Local Open Scope Q_scope.

(** [type TokenBucket struct]; the mutex carries no data. *)
Record TokenBucket := mkBucket {
  tokens : Q;
  capacity : Q;
  fillRate : Q;
  lastRefillTime : Time
}.

(** [type RateLimiter struct]; [limiters] maps a client to its bucket. *)
Record RateLimiter := mkLimiter {
  limiters : gmap string TokenBucket;
  rl_capacity : Q;
  rl_fillRate : Q
}.

(** [NewRateLimiter(capacity, ratePerSecond)]. *)
Definition NewRateLimiter (cap ratePerSecond : Q) : RateLimiter :=
  {| limiters := ∅; rl_capacity := cap; rl_fillRate := ratePerSecond |}.

(** [rl.getLimiter(clientID)]: the bucket of the client, created full when
    neither look-up finds one.  [now] is the [time.Now()] of the creation. *)
Definition getLimiter (now : Time) (clientID : string) (rl : RateLimiter)
  : TokenBucket * RateLimiter :=
  match limiters rl !! clientID with
  | Some limiter => (limiter, rl)
  | None =>
      (* globalMux held: the look-up is repeated *)
      match limiters rl !! clientID with
      | Some limiter => (limiter, rl)
      | None =>
          let bucket := {| tokens := rl_capacity rl;
                           capacity := rl_capacity rl;
                           fillRate := rl_fillRate rl;
                           lastRefillTime := now |} in
          (bucket,
           {| limiters := <[clientID := bucket]> (limiters rl);
              rl_capacity := rl_capacity rl;
              rl_fillRate := rl_fillRate rl |})
      end
  end.

(** [tb.refill()] at clock reading [now]. *)
Definition refill (now : Time) (tb : TokenBucket) : TokenBucket :=
  let elapsedTime := Seconds (Sub now (lastRefillTime tb)) in
  let tokensToAdd := elapsedTime * fillRate tb in
  if Qlt_le_dec 0 tokensToAdd then
    let tokens1 := tokens tb + tokensToAdd in
    let tokens2 := if Qlt_le_dec (capacity tb) tokens1 then capacity tb else tokens1 in
    {| tokens := tokens2; capacity := capacity tb;
       fillRate := fillRate tb; lastRefillTime := now |}
  else tb.

(** [tb.Allow()]: refill, then take one token when there is one. *)
Definition Allow (now : Time) (tb : TokenBucket) : bool * TokenBucket :=
  let tb1 := refill now tb in
  if Qlt_le_dec (tokens tb1) 1 then (false, tb1)
  else
    (true, {| tokens := tokens tb1 - 1; capacity := capacity tb1;
              fillRate := fillRate tb1; lastRefillTime := lastRefillTime tb1 |}).

(** [rl.IsAllowed(clientID)]: [tcreate] is the clock reading taken when a
    bucket is created, [tnow] the one taken by [refill].  The bucket is
    held by pointer in the map, so the mutated bucket is the stored one. *)
Definition IsAllowed (tcreate tnow : Time) (clientID : string) (rl : RateLimiter)
  : bool * RateLimiter :=
  let '(limiter, rl1) := getLimiter tcreate clientID rl in
  let '(ok, limiter1) := Allow tnow limiter in
  (ok, {| limiters := <[clientID := limiter1]> (limiters rl1);
          rl_capacity := rl_capacity rl1;
          rl_fillRate := rl_fillRate rl1 |}).

(** One request: the client key and the two clock readings. *)
Record Call := mkCall { c_key : string; c_create : Time; c_now : Time }.

(** A sequence of [IsAllowed] calls, threaded through the limiter. *)
Fixpoint run (calls : list Call) (rl : RateLimiter) : RateLimiter :=
  match calls with
  | [] => rl
  | c :: rest => run rest (snd (IsAllowed (c_create c) (c_now c) (c_key c) rl))
  end.

(** The decisions of a sequence of calls, in order. *)
Fixpoint decisions (calls : list Call) (rl : RateLimiter) : list bool :=
  match calls with
  | [] => []
  | c :: rest =>
      let '(ok, rl1) := IsAllowed (c_create c) (c_now c) (c_key c) rl in
      ok :: decisions rest rl1
  end.

(** How many of the calls made for the key [k] are allowed. *)
Fixpoint admitted (k : string) (calls : list Call) (rl : RateLimiter) : nat :=
  match calls with
  | [] => 0
  | c :: rest =>
      let '(ok, rl1) := IsAllowed (c_create c) (c_now c) (c_key c) rl in
      ((if bool_decide (c_key c = k) && ok then 1 else 0) + admitted k rest rl1)%nat
  end.

(** The bucket invariant. *)
Definition bucket_ok (cap : Q) (tb : TokenBucket) : Prop :=
  0 <= tokens tb /\ tokens tb <= capacity tb /\ capacity tb = cap.

Definition limiter_ok (rl : RateLimiter) : Prop :=
  forall k tb, limiters rl !! k = Some tb -> bucket_ok (rl_capacity rl) tb.

End Limiter.

(** ** The token bucket in binary64

    [float64] is IEEE 754 binary64: the primitive floats, whose operations
    round to nearest, ties to even.  The product and the sum of [refill]
    are rounded one after the other; fused into one operation they give
    the same tokens when the bucket holds none. *)
Module Binary64.
Import Clock.
Local Open Scope float_scope.

(** [float64(n)] for an [int64]: the nearest binary64 number. *)
Definition of_int64 (n : Z) : float :=
  SF2Prim (binary_normalize prec emax n 0 false).

(** [d.Seconds()]: [float64(d / Second) + float64(d % Second) / 1e9], the
    quotient truncated and the remainder of the sign of [d]. *)
Definition Seconds (d : Duration) : float :=
  let sec := Z.quot d 1000000000 in
  let nsec := Z.rem d 1000000000 in
  of_int64 sec + of_int64 nsec / 1e9.

(** [type TokenBucket struct]; the mutex carries no data. *)
Record TokenBucket := mkBucket {
  tokens : float;
  capacity : float;
  fillRate : float;
  lastRefillTime : Time
}.

(** [tb.refill()] at clock reading [now]. *)
Definition refill (now : Time) (tb : TokenBucket) : TokenBucket :=
  let elapsedTime := Seconds (Sub now (lastRefillTime tb)) in
  let tokensToAdd := elapsedTime * fillRate tb in
  if 0 <? tokensToAdd then
    let tokens1 := tokens tb + tokensToAdd in
    let tokens2 := if capacity tb <? tokens1 then capacity tb else tokens1 in
    {| tokens := tokens2; capacity := capacity tb;
       fillRate := fillRate tb; lastRefillTime := now |}
  else tb.

(** [tb.Allow()]: refill, then take one token when there is one. *)
Definition Allow (now : Time) (tb : TokenBucket) : bool * TokenBucket :=
  let tb1 := refill now tb in
  if 1 <=? tokens tb1 then
    (true, {| tokens := tokens tb1 - 1; capacity := capacity tb1;
              fillRate := fillRate tb1; lastRefillTime := lastRefillTime tb1 |})
  else (false, tb1).

(** Calls of [tb.Allow()] one after the other, at the clock readings
    [times]: the decisions, in order. *)
Fixpoint Allows (times : list Time) (tb : TokenBucket) : list bool :=
  match times with
  | [] => []
  | now :: rest => let '(ok, tb1) := Allow now tb in ok :: Allows rest tb1
  end.

(** The rational number a finite binary64 number stands for. *)
Definition value (x : float) : option Q :=
  match Prim2SF x with
  | S754_zero _ => Some 0%Q
  | S754_finite s m e => Some (Qred (inject_Z (cond_Zopp s (Z.pos m)) * Qpower 2 e))
  | S754_infinity _ | S754_nan => None
  end.

End Binary64.

(** ** The token service *)
Module Auth.
Import Clock.
Local Open Scope string_scope.

(** [type User struct]. *)
Record User := mkUser {
  ClientSecret : string;
  Scopes : list string;
  Tokens : list string
}.

(** [type TokenInfo struct]. *)
Record TokenInfo := mkTokenInfo {
  ClientID : string;
  AccessScope : string;
  ExpirationTime : Time
}.

(** A row of the table [token] of the persistent store. *)
Record TokenRow := mkRow {
  access_token : string;
  client_id : string;
  access_scope : string;
  expiration_time : Time
}.

(** The process state: the two [sync.Map]s [users] and [tokens], and the
    table [token] behind [dbconn].  A [User] loaded from [users] shares the
    backing array of its [Tokens] slice with the stored value, so a write
    to [user.Tokens[i]] is a write to the stored user. *)
Record State := mkState {
  users : gmap string User;
  tokens : gmap string TokenInfo;
  token_table : list TokenRow
}.

Definition set_users (u : gmap string User) (s : State) : State :=
  {| users := u; tokens := tokens s; token_table := token_table s |}.
Definition set_tokens (t : gmap string TokenInfo) (s : State) : State :=
  {| users := users s; tokens := t; token_table := token_table s |}.
Definition set_table (db : list TokenRow) (s : State) : State :=
  {| users := users s; tokens := tokens s; token_table := db |}.

(** The error values [ErrNoToken], [ErrTokenExpired], [ErrRateLimited]. *)
Inductive error := ErrNoToken | ErrTokenExpired | ErrRateLimited.

(** A call either returns or panics (index out of range, failed type
    assertion). *)
Inductive Outcome (A : Type) := Done (a : A) | Panic.
Arguments Done {A} a.
Arguments Panic {A}.

(** The statements run against the table [token]: the first row of a
    [select ... where], and [delete ... where access_token = $1]. *)
Definition select_by_pair (cid scope : string) (db : list TokenRow) : option TokenRow :=
  List.find (fun r => bool_decide (client_id r = cid) && bool_decide (access_scope r = scope)) db.

Definition select_by_token (token : string) (db : list TokenRow) : option TokenRow :=
  List.find (fun r => bool_decide (access_token r = token)) db.

Definition delete_by_token (token : string) (db : list TokenRow) : list TokenRow :=
  List.filter (fun r => negb (bool_decide (access_token r = token))) db.

(** The answer of the store to [insert into token(client_id, access_scope)
    ... returning access_token]: the row it created, whose token value and
    expiration time are the store's column defaults, or an error. *)
Inductive Inserted := InsertOk (token : string) (exp : Time) | InsertFailed.

(** [get_token(ctx, client_id, scope)]; the empty string stands for no
    token.  An expired row is deleted from the table. *)
Definition get_token (now : Time) (cid scope : string) (s : State) : string * State :=
  match select_by_pair cid scope (token_table s) with
  | None => ("", s)
  | Some r =>
      if Before (expiration_time r) now
      then ("", set_table (delete_by_token (access_token r) (token_table s)) s)
      else (access_token r, s)
  end.

(** The loop of [AddToken] over [user.Tokens]: the first non-empty token
    stored for the scope.  [user.Scopes[i]] past the end of [Scopes] is an
    index out of range. *)
Fixpoint cached_token (scopes toks : list string) (scope : string) : Outcome (option string) :=
  match toks with
  | [] => Done None
  | tk :: toks' =>
      match scopes with
      | [] => Panic
      | sc :: scopes' =>
          if bool_decide (sc = scope) && negb (bool_decide (tk = ""))
          then Done (Some tk)
          else cached_token scopes' toks' scope
      end
  end.

(** [AddToken] from the first [get_token] on (no entry in the local cache). *)
Definition AddToken_store (now1 now2 : Time) (ins : Inserted) (cid scope : string)
    (s : State) : string * State :=
  let '(token, s1) := get_token now1 cid scope s in
  if negb (bool_decide (token = "")) then (token, s1)
  else
    match ins with
    | InsertOk tok exp =>
        (tok, set_table (token_table s1 ++ [mkRow tok cid scope exp]) s1)
    | InsertFailed => get_token now2 cid scope s1
    end.

(** [AddToken(ctx, client_id, scope)]. *)
Definition AddToken (now1 now2 : Time) (ins : Inserted) (cid scope : string)
    (s : State) : Outcome string * State :=
  match users s !! cid with
  | Some user =>
      match cached_token (Scopes user) (Tokens user) scope with
      | Panic => (Panic, s)
      | Done (Some tk) => (Done tk, s)
      | Done None =>
          let '(token, s1) := AddToken_store now1 now2 ins cid scope s in
          (Done token, s1)
      end
  | None =>
      let '(token, s1) := AddToken_store now1 now2 ins cid scope s in
      (Done token, s1)
  end.

(** The loop of [CheckToken] over [user.Tokens]: the slot of the first
    entry of [Scopes] equal to the scope receives the token. *)
Fixpoint set_token (scopes toks : list string) (scope token : string)
  : Outcome (list string) :=
  match toks with
  | [] => Done []
  | tk :: toks' =>
      match scopes with
      | [] => Panic
      | sc :: scopes' =>
          if bool_decide (sc = scope) then Done (token :: toks')
          else
            match set_token scopes' toks' scope token with
            | Done l => Done (tk :: l)
            | Panic => Panic
            end
      end
  end.

(** [CheckToken] from the query of the store on. *)
Definition CheckToken_store (now : Time) (token : string) (s : State)
  : Outcome (string * string + error) * State :=
  match select_by_token token (token_table s) with
  | None => (Done (inr ErrNoToken), s)
  | Some r =>
      if Before (expiration_time r) now then (Done (inr ErrTokenExpired), s)
      else
        let id := client_id r in
        let scope := access_scope r in
        let s1 := set_tokens (<[token := mkTokenInfo id scope (expiration_time r)]> (tokens s)) s in
        match users s1 !! id with
        | Some user =>
            match set_token (Scopes user) (Tokens user) scope token with
            | Done toks =>
                (Done (inl (id, scope)),
                 set_users (<[id := mkUser (ClientSecret user) (Scopes user) toks]> (users s1)) s1)
            | Panic => (Panic, s1)
            end
        | None => (Done (inl (id, scope)), s1)
        end
  end.

(** [CheckToken(ctx, token)]: [now1] is the clock reading of the cache
    check, [now2] the one of the check of the stored row. *)
Definition CheckToken (now1 now2 : Time) (token : string) (s : State)
  : Outcome (string * string + error) * State :=
  match tokens s !! token with
  | Some token_info =>
      if After (ExpirationTime token_info) now1
      then (Done (inl (ClientID token_info, AccessScope token_info)), s)
      else CheckToken_store now2 token (set_tokens (delete token (tokens s)) s)
  | None => CheckToken_store now2 token s
  end.

(** The form of [POST token/]. *)
Record Form := mkForm {
  ClientId : string;
  Scope : string;
  FormSecret : string;
  GrantType : string
}.

(** What a handler writes: a JSON error, the token grant, the checked
    identity, or nothing when the handler panics. *)
Inductive Response :=
| JsonError (status : Z) (msg : string)
| JsonToken (status : Z) (access_token : string) (expires_in : Z) (scope : string)
| JsonIdentity (status : Z) (client_id : string) (scope : string)
| Panicked.

(** The scope check of the handler: some entry of [user.Scopes] is the scope. *)
Definition is_pos_scope (scopes : list string) (scope : string) : bool :=
  existsb (fun sc => bool_decide (sc = scope)) scopes.

(** The handler of [POST token/].  [users.Load] of an unknown client
    yields a nil interface, and the type assertion [item.(User)] on it
    panics before [user_ok] is read. *)
Definition token_handler (now1 now2 : Time) (ins : Inserted) (f : Form) (s : State)
  : Response * State :=
  if bool_decide (ClientId f = "") || bool_decide (Scope f = "")
     || bool_decide (FormSecret f = "") || bool_decide (GrantType f = "")
  then (JsonError 400 "Missing some of following form fields: client_id, scope, client_secret, grant_type", s)
  else if negb (bool_decide (GrantType f = "client_credentials"))
  then (JsonError 400 "Incorrect grant type", s)
  else
    match users s !! ClientId f with
    | None => (Panicked, s)
    | Some user =>
        if negb (bool_decide (FormSecret f = ClientSecret user))
        then (JsonError 400 "Incorrect client credentials", s)
        else if negb (is_pos_scope (Scopes user) (Scope f))
        then (JsonError 400 "Wrong scope", s)
        else
          match AddToken now1 now2 ins (ClientId f) (Scope f) s with
          | (Panic, s1) => (Panicked, s1)
          | (Done token, s1) =>
              if bool_decide (token = "")
              then (JsonError 500 "Internal server error", s1)
              else (JsonToken 200 token 7200 (Scope f), s1)
          end
    end.

(** One row of [select * from public.user] as [rows.Scan] reads it. *)
Inductive Scanned :=
| ScanOk (id : string) (secret : string) (scopes : list string)
| ScanErr.

(** The answer to one [dbconn.Query] of [GetAllUsers]. *)
Inductive QueryAnswer :=
| QRows (rows : list Scanned)
| QNoRows
| QFail.

(** How [GetAllUsers] ends: it returns, the process exits in
    [log.Fatal], or it is still looping when the answers run out. *)
Inductive Startup :=
| Loaded (users : gmap string User) (sleeps : nat)
| Fatal
| Looping (users : gmap string User) (sleeps : nat).

(** The scan loop: the slice [usrs], or nothing when a [Scan] fails. *)
Fixpoint scan_rows (rows : list Scanned) : option (list (string * User)) :=
  match rows with
  | [] => Some []
  | ScanErr :: _ => None
  | ScanOk id secret scopes :: rest =>
      match scan_rows rest with
      | Some usrs =>
          Some ((id, mkUser secret scopes (replicate (length scopes) "")) :: usrs)
      | None => None
      end
  end.

(** [users.Store] for each element of [usrs], in order. *)
Definition store_all (usrs : list (string * User)) (reg : gmap string User)
  : gmap string User :=
  fold_left (fun m p => <[fst p := snd p]> m) usrs reg.

(** [GetAllUsers()] against the successive answers of the store. *)
Fixpoint GetAllUsers (answers : list QueryAnswer) (reg : gmap string User)
    (sleeps : nat) : Startup :=
  match answers with
  | [] => Looping reg sleeps
  | QNoRows :: rest => GetAllUsers rest reg sleeps
  | QFail :: _ => Fatal
  | QRows rows :: rest =>
      match scan_rows rows with
      | None => Fatal
      | Some usrs =>
          if (Z.of_nat (length usrs) =? 1000)%Z then Loaded (store_all usrs reg) sleeps
          else GetAllUsers rest reg (S sleeps)
      end
  end.

(** The registry is well formed when every user has one token slot per
    scope, as [GetAllUsers] builds it. *)
Definition users_wf (reg : gmap string User) : Prop :=
  forall id u, reg !! id = Some u -> length (Tokens u) = length (Scopes u).

(** A validation misses the token cache: no entry, or an expired one. *)
Definition cache_miss (now1 : Time) (token : string) (s : State) : Prop :=
  match tokens s !! token with
  | Some token_info => After (ExpirationTime token_info) now1 = false
  | None => True
  end.

(** The caches agree with the store.
    - every user has one token slot per scope;
    - token values are unique in the table;
    - an entry of the token cache whose token has a row repeats that row;
    - a non-empty token slot of a user points to a row of the table for
      that user and the scope of the slot. *)
Record consistent (s : State) : Prop := mkConsistent {
  cons_wf : users_wf (users s);
  cons_nodup : NoDup (access_token <$> token_table s);
  cons_mirror : forall token ti r,
    tokens s !! token = Some ti ->
    select_by_token token (token_table s) = Some r ->
    ClientID ti = client_id r /\ AccessScope ti = access_scope r /\
    ExpirationTime ti = expiration_time r;
  cons_slot : forall id u i sc tk,
    users s !! id = Some u ->
    Scopes u !! i = Some sc -> Tokens u !! i = Some tk -> tk <> "" ->
    exists r, select_by_token tk (token_table s) = Some r /\
              client_id r = id /\ access_scope r = sc
}.

(** No token slot of the client for the scope is in use. *)
Definition no_slot (cid scope : string) (s : State) : Prop :=
  forall u i tk, users s !! cid = Some u ->
    Scopes u !! i = Some scope -> Tokens u !! i = Some tk -> tk = "".

(** What is known of a token once its row [r] may have been deleted: the
    table holds [r] or no row for the token, and an entry of the token
    cache for it carries the expiration time of [r]. *)
Definition row_or_gone (token : string) (r : TokenRow) (s : State) : Prop :=
  (select_by_token token (token_table s) = Some r \/
   select_by_token token (token_table s) = None) /\
  forall ti, tokens s !! token = Some ti -> ExpirationTime ti = expiration_time r.

(** The token value of a created row is new: it is in no row of the table
    and in no entry of the token cache. *)
Definition fresh (ins : Inserted) (s : State) : Prop :=
  match ins with
  | InsertOk tok _ => (tok ∉ access_token <$> token_table s) /\ tokens s !! tok = None
  | InsertFailed => True
  end.

(** The requests served by the process, with their clock readings and the
    answer of the store to the insert, if one is run. *)
Inductive Request :=
| Grant (now1 now2 : Time) (ins : Inserted) (f : Form)
| Check (now1 now2 : Time) (token : string).

Definition serve (req : Request) (s : State) : State :=
  match req with
  | Grant now1 now2 ins f => snd (token_handler now1 now2 ins f s)
  | Check now1 now2 token => snd (CheckToken now1 now2 token s)
  end.

Fixpoint serve_all (reqs : list Request) (s : State) : State :=
  match reqs with
  | [] => s
  | req :: rest => serve_all rest (serve req s)
  end.

(** Every row the store creates along the requests has a new token value,
    different from [token]. *)
Fixpoint fresh_all (token : string) (reqs : list Request) (s : State) : Prop :=
  match reqs with
  | [] => True
  | req :: rest =>
      match req with
      | Grant _ _ ins _ =>
          fresh ins s /\
          match ins with InsertOk tok _ => tok <> token | InsertFailed => True end
      | Check _ _ _ => True
      end /\ fresh_all token rest (serve req s)
  end.

(** No clock reading of the request is later than [t]. *)
Definition not_after (t : Time) (req : Request) : Prop :=
  match req with
  | Grant now1 now2 _ _ => (now1 <= t)%Z /\ (now2 <= t)%Z
  | Check now1 now2 _ => (now1 <= t)%Z /\ (now2 <= t)%Z
  end.

(** [err.Error()] of the error values. *)
Definition Error (e : error) : string :=
  match e with
  | ErrNoToken => "nonexistent token"
  | ErrTokenExpired => "token expired"
  | ErrRateLimited => "rate limit exceeded, please try again later"
  end.

(** [strings.Split(s, sep)] for a separator of one character. *)
Fixpoint Split (s : string) (sep : Ascii.ascii) : list string :=
  match s with
  | EmptyString => [""]
  | String c rest =>
      if Ascii.eqb c sep then "" :: Split rest sep
      else
        match Split rest sep with
        | part :: parts => String c part :: parts
        | [] => [String c ""]
        end
  end.

(** The character occurs in the string. *)
Fixpoint contains (c : Ascii.ascii) (s : string) : bool :=
  match s with
  | EmptyString => false
  | String c' rest => Ascii.eqb c' c || contains c rest
  end.

(** The parts put together again, with the separator between them. *)
Fixpoint join (sep : Ascii.ascii) (parts : list string) : string :=
  match parts with
  | [] => ""
  | [part] => part
  | part :: rest => part ++ String sep (join sep rest)
  end.

(** The handler of [GET check/]. *)
Definition check_handler (now1 now2 : Time) (header : string) (s : State)
  : Response * State :=
  match Split header " "%char with
  | [bearer; token] =>
      if negb (bool_decide (bearer = "Bearer"))
      then (JsonError 400 "Incorrect 'Authorization' header", s)
      else
        match CheckToken now1 now2 token s with
        | (Panic, s1) => (Panicked, s1)
        | (Done (inr err), s1) => (JsonError 400 (Error err), s1)
        | (Done (inl (client_id, score)), s1) => (JsonIdentity 200 client_id score, s1)
        end
  | _ => (JsonError 400 "Incorrect 'Authorization' header", s)
  end.

(** The store keeps at most one row for a client and a scope. *)
Definition one_per_pair (db : list TokenRow) : Prop :=
  forall r1 r2, r1 ∈ db -> r2 ∈ db ->
    client_id r1 = client_id r2 -> access_scope r1 = access_scope r2 -> r1 = r2.

(** The table is tidy: one row at most for a client and a scope, and no
    row with an empty token value. *)
Definition tidy (db : list TokenRow) : Prop :=
  one_per_pair db /\ Forall (fun r => access_token r <> "") db.

(** The store does not create a row with an empty token value. *)
Definition sound (ins : Inserted) : Prop :=
  match ins with InsertOk tok _ => tok <> "" | InsertFailed => True end.

(** Every row the store creates along the requests has a new token value. *)
Fixpoint all_fresh (reqs : list Request) (s : State) : Prop :=
  match reqs with
  | [] => True
  | req :: rest =>
      match req with
      | Grant _ _ ins _ => fresh ins s
      | Check _ _ _ => True
      end /\ all_fresh rest (serve req s)
  end.

(** An answer of the store that is a page of rows, all scanned without
    error, of a size other than 1000. *)
Definition short_page (a : QueryAnswer) : Prop :=
  exists rows usrs, a = QRows rows /\ scan_rows rows = Some usrs /\
                    Z.of_nat (length usrs) <> 1000%Z.

(** An answer that lets [GetAllUsers] go on: a short page, or the error
    [pgx.ErrNoRows]. *)
Definition retried (a : QueryAnswer) : Prop := short_page a \/ a = QNoRows.

(** The sleeps a list of answers costs: one for each page. *)
Fixpoint naps (answers : list QueryAnswer) : nat :=
  match answers with
  | [] => 0
  | QRows _ :: rest => S (naps rest)
  | _ :: rest => naps rest
  end.

End Auth.

(** ** Concurrent calls of [IsAllowed]

    Goroutines running [rl.IsAllowed(clientID)] are interleaved at the
    operations on shared memory: the two [Load]s and the [Store] of the
    [sync.Map], [Lock] and [Unlock] of [globalMux] and of the mutex of a
    bucket, and the two parts of the body of [Allow], which run with that
    mutex held.  Buckets live in a heap and the map holds their addresses. *)
Module Conc.
Import Clock Limiter.
Local Open Scope Q_scope.

(** Where a goroutine stands in [IsAllowed]. *)
Inductive PC :=
| AtLoad                              (* rl.limiters.Load(clientID) *)
| AtLock                              (* rl.globalMux.Lock() *)
| AtReload                            (* the second Load, globalMux held *)
| AtStore                             (* &TokenBucket{...}; rl.limiters.Store *)
| AtUnlock (a : nat)                  (* deferred rl.globalMux.Unlock() *)
| AtBucketLock (a : nat)              (* tb.mutex.Lock() *)
| AtRefill (a : nat)                  (* tb.refill() *)
| AtTake (a : nat)                    (* if tb.tokens >= 1 { tb.tokens-- } *)
| AtBucketUnlock (a : nat) (ok : bool) (* deferred tb.mutex.Unlock() *)
| Returned (ok : bool).

(** A bucket in the heap, with the state of its mutex. *)
Record Cell := mkCell { bucket : TokenBucket; locked : bool }.

Record Thread := mkThread { key : string; pc : PC }.

Record Config := mkConfig {
  heap : list Cell;
  index : gmap string nat;
  globalMux : bool;
  cap : Q;
  rate : Q;
  threads : list Thread
}.

Definition goto (i : nat) (t : Thread) (p : PC) (c : Config) : Config :=
  {| heap := heap c; index := index c; globalMux := globalMux c;
     cap := cap c; rate := rate c;
     threads := <[i := mkThread (key t) p]> (threads c) |}.

Definition set_mux (b : bool) (c : Config) : Config :=
  {| heap := heap c; index := index c; globalMux := b;
     cap := cap c; rate := rate c; threads := threads c |}.

Definition set_heap (h : list Cell) (c : Config) : Config :=
  {| heap := h; index := index c; globalMux := globalMux c;
     cap := cap c; rate := rate c; threads := threads c |}.

Definition set_index (m : gmap string nat) (c : Config) : Config :=
  {| heap := heap c; index := m; globalMux := globalMux c;
     cap := cap c; rate := rate c; threads := threads c |}.

(** One operation of goroutine [i]; [now] is the clock reading of the
    operation, used where the source calls [time.Now()].  [None]: there is
    no such goroutine, it has returned, or it waits for a mutex. *)
Definition step (i : nat) (now : Time) (c : Config) : option Config :=
  match threads c !! i with
  | None => None
  | Some t =>
      match pc t with
      | AtLoad =>
          match index c !! key t with
          | Some a => Some (goto i t (AtBucketLock a) c)
          | None => Some (goto i t AtLock c)
          end
      | AtLock =>
          if globalMux c then None
          else Some (goto i t AtReload (set_mux true c))
      | AtReload =>
          match index c !! key t with
          | Some a => Some (goto i t (AtUnlock a) c)
          | None => Some (goto i t AtStore c)
          end
      | AtStore =>
          let a := length (heap c) in
          let b := {| tokens := cap c; capacity := cap c;
                      fillRate := rate c; lastRefillTime := now |} in
          Some (goto i t (AtUnlock a)
                  (set_index (<[key t := a]> (index c))
                     (set_heap (heap c ++ [mkCell b false]) c)))
      | AtUnlock a => Some (goto i t (AtBucketLock a) (set_mux false c))
      | AtBucketLock a =>
          match heap c !! a with
          | Some cell =>
              if locked cell then None
              else Some (goto i t (AtRefill a)
                           (set_heap (<[a := mkCell (bucket cell) true]> (heap c)) c))
          | None => None
          end
      | AtRefill a =>
          match heap c !! a with
          | Some cell =>
              Some (goto i t (AtTake a)
                      (set_heap (<[a := mkCell (refill now (bucket cell)) (locked cell)]> (heap c)) c))
          | None => None
          end
      | AtTake a =>
          match heap c !! a with
          | Some cell =>
              let tb := bucket cell in
              if Qlt_le_dec (tokens tb) 1
              then Some (goto i t (AtBucketUnlock a false) c)
              else
                let tb1 := {| tokens := tokens tb - 1; capacity := capacity tb;
                              fillRate := fillRate tb;
                              lastRefillTime := lastRefillTime tb |} in
                Some (goto i t (AtBucketUnlock a true)
                        (set_heap (<[a := mkCell tb1 (locked cell)]> (heap c)) c))
          | None => None
          end
      | AtBucketUnlock a ok =>
          match heap c !! a with
          | Some cell =>
              Some (goto i t (Returned ok)
                      (set_heap (<[a := mkCell (bucket cell) false]> (heap c)) c))
          | None => None
          end
      | Returned _ => None
      end
  end.

(** A schedule names, operation by operation, the goroutine that runs and
    the clock reading it sees; naming a goroutine that cannot move leaves
    the configuration as it is. *)
Fixpoint exec (sched : list (nat * Time)) (c : Config) : Config :=
  match sched with
  | [] => c
  | (i, now) :: rest =>
      exec rest (match step i now c with Some c1 => c1 | None => c end)
  end.

(** [n] goroutines about to call [IsAllowed(k)] on a limiter. *)
Definition spawn (n : nat) (k : string) (h0 : list Cell) (m0 : gmap string nat)
    (cap0 rate0 : Q) : Config :=
  {| heap := h0; index := m0; globalMux := false; cap := cap0; rate := rate0;
     threads := replicate n (mkThread k AtLoad) |}.

Definition is_holder (t : Thread) : bool :=
  match pc t with AtReload | AtStore | AtUnlock _ => true | _ => false end.

Definition is_granted (t : Thread) : bool :=
  match pc t with AtBucketUnlock _ true | Returned true => true | _ => false end.

Definition count (p : Thread -> bool) (ts : list Thread) : nat :=
  length (List.filter p ts).

(** The calls that have been allowed so far. *)
Definition granted (c : Config) : nat := count is_granted (threads c).

(** Before the bucket of the key exists a goroutine is at one of the first
    four operations. *)
Definition early (t : Thread) : Prop :=
  match pc t with AtLoad | AtLock | AtReload | AtStore => True | _ => False end.

(** Once the bucket exists at address [a0], no goroutine is about to create
    one and every address held is [a0]. *)
Definition late (a0 : nat) (t : Thread) : Prop :=
  match pc t with
  | AtLoad | AtLock | AtReload | Returned _ => True
  | AtStore => False
  | AtUnlock a | AtBucketLock a | AtRefill a | AtTake a | AtBucketUnlock a _ => a = a0
  end.

(** The account of a bucket created with the clock readings in [lo, hi]:
    its tokens and the [g] calls allowed so far add up to no more than the
    capacity and what was refilled since [lo]. *)
Definition account (lo hi : Time) (cap0 rate0 : Q) (g : nat) (tb : TokenBucket) : Prop :=
  0 <= tokens tb /\ capacity tb = cap0 /\ fillRate tb = rate0 /\
  (lo <= lastRefillTime tb <= hi)%Z /\
  tokens tb + inject_Z (Z.of_nat g) <= cap0 + rate0 * Seconds (lastRefillTime tb - lo).

(** The bucket of [k], if there is one, accounts for [g] allowed calls. *)
Definition tally (lo hi : Time) (cap0 rate0 : Q) (k : string) (g : nat)
    (rl : RateLimiter) : Prop :=
  rl_capacity rl = cap0 /\ rl_fillRate rl = rate0 /\
  match limiters rl !! k with
  | Some tb => account lo hi cap0 rate0 g tb
  | None => g = 0%nat
  end.

(** The invariant of [n] racing calls for the key [k]. *)
Definition racing (lo hi : Time) (k : string) (h0 : list Cell) (m0 : gmap string nat)
    (cap0 rate0 : Q) (c : Config) : Prop :=
  Forall (fun t => key t = k) (threads c) /\
  cap c = cap0 /\ rate c = rate0 /\
  count is_holder (threads c) = (if globalMux c then 1%nat else 0%nat) /\
  ((index c = m0 /\ heap c = h0 /\ Forall early (threads c)) \/
   (exists cell, index c = <[k := length h0]> m0 /\ heap c = h0 ++ [cell] /\
                 Forall (late (length h0)) (threads c) /\
                 account lo hi cap0 rate0 (granted c) (bucket cell))).

(** A goroutine inside the body of [Allow], between [Lock] and [Unlock]
    of the mutex of its bucket. *)
Definition is_inside (t : Thread) : bool :=
  match pc t with AtRefill _ | AtTake _ | AtBucketUnlock _ _ => true | _ => false end.

(** The mutex of the bucket at address [a0] is locked exactly when one
    goroutine is inside the body of [Allow]. *)
Definition exclusive (a0 : nat) (c : Config) : Prop :=
  count is_inside (threads c) =
  match heap c !! a0 with
  | Some cell => if locked cell then 1%nat else 0%nat
  | None => 0%nat
  end.

(** The operations a goroutine has left before it returns, at most. *)
Definition remaining (t : Thread) : nat :=
  match pc t with
  | AtLoad => 9 | AtLock => 8 | AtReload => 7 | AtStore => 6 | AtUnlock _ => 5
  | AtBucketLock _ => 4 | AtRefill _ => 3 | AtTake _ => 2
  | AtBucketUnlock _ _ => 1 | Returned _ => 0
  end.

Definition work (c : Config) : nat := sum_list (remaining <$> threads c).

(** The operations of a schedule that are performed: the goroutine named
    is there, has not returned and does not wait. *)
Fixpoint performed (sched : list (nat * Time)) (c : Config) : nat :=
  match sched with
  | [] => 0
  | (i, now) :: rest =>
      match step i now c with
      | Some c1 => S (performed rest c1)
      | None => performed rest c
      end
  end.

(** The configuration of a goroutine that is alone. *)
Definition alone (k : string) (cap0 rate0 : Q) (h : list Cell) (m : gmap string nat)
    (mux : bool) (p : PC) : Config :=
  mkConfig h m mux cap0 rate0 [mkThread k p].

(** A goroutine running alone: the nine operations of a call that creates
    the bucket at clock reading [tcreate] and refills it at [tnow], and the
    five operations of a call that finds the bucket. *)
Definition solo_create (i : nat) (tcreate tnow : Time) : list (nat * Time) :=
  [(i, tcreate); (i, tcreate); (i, tcreate); (i, tcreate); (i, tcreate);
   (i, tnow); (i, tnow); (i, tnow); (i, tnow)].

Definition solo_found (i : nat) (tnow : Time) : list (nat * Time) :=
  [(i, tnow); (i, tnow); (i, tnow); (i, tnow); (i, tnow)].

(** Every clock reading of the schedule lies in [lo, hi]. *)
Definition within (lo hi : Time) (sched : list (nat * Time)) : Prop :=
  Forall (fun p => (lo <= snd p <= hi)%Z) sched.

End Conc.

(** ** The requests, from the rate limiting middleware to the handlers *)
Module Gateway.
Import Clock Limiter Auth.
Local Open Scope string_scope.

(** A request for one of the two routes, with what the middleware and the
    handler read from it: the form of [POST /token/] or the
    [Authorization] header of [GET /check/], and [c.ClientIP()]. *)
Inductive Routed :=
| PostToken (f : Form) (ip : string)
| GetCheck (authorization : string) (ip : string).

(** The client the middleware charges: the [client_id] of the form, the
    client of the token when the token cache knows the token, and the
    address of the caller when neither gives a name. *)
Definition clientKey (req : Routed) (s : State) : string :=
  let clientID :=
    match req with
    | PostToken f _ => ClientId f
    | GetCheck authHeader _ =>
        match Split authHeader " "%char with
        | [bearer; token] =>
            if bool_decide (bearer = "Bearer") then
              match tokens s !! token with
              | Some tokenInfo => ClientID tokenInfo
              | None => ""
              end
            else ""
        | _ => ""
        end
    end in
  if bool_decide (clientID = "") then
    match req with PostToken _ ip => ip | GetCheck _ ip => ip end
  else clientID.

(** What the caller receives: the 429 of the middleware, with the limit it
    announces and the time of its [X-RateLimit-Reset] header, or the answer
    of the handler. *)
Inductive Reply :=
| TooManyRequests (limit : Q) (reset : Z)
| Handled (r : Response).

(** The clock readings of a request: the creation of a bucket, [refill],
    the reset header, and the two of the handler. *)
Record Readings := mkReadings {
  r_create : Time; r_refill : Time; r_reset : Time; r_one : Time; r_two : Time
}.

(** The middleware followed, when the request is allowed, by the handler
    of its route. *)
Definition handle (t : Readings) (ins : Inserted) (req : Routed)
    (w : RateLimiter * State) : Reply * (RateLimiter * State) :=
  let '(rl, s) := w in
  let '(ok, rl1) := IsAllowed (r_create t) (r_refill t) (clientKey req s) rl in
  if negb ok then
    (TooManyRequests (rl_capacity rl1) (r_reset t / 1000000000 + 1), (rl1, s))
  else
    match req with
    | PostToken f _ =>
        let '(r, s1) := token_handler (r_one t) (r_two t) ins f s in
        (Handled r, (rl1, s1))
    | GetCheck header _ =>
        let '(r, s1) := check_handler (r_one t) (r_two t) header s in
        (Handled r, (rl1, s1))
    end.

(** The replies to a sequence of requests that all see the clock readings
    [t], each with the answer of the store to its insert. *)
Fixpoint replies (t : Readings) (reqs : list (Inserted * Routed))
    (w : RateLimiter * State) : list Reply :=
  match reqs with
  | [] => []
  | (ins, req) :: rest =>
      let '(r, w1) := handle t ins req w in
      r :: replies t rest w1
  end.

Definition refused (r : Reply) : bool :=
  match r with TooManyRequests _ _ => true | Handled _ => false end.

End Gateway.

(** ** Sample data *)
Module Sample.
Import Clock Auth.
Local Open Scope string_scope.

(** A registry with the single client [c1], allowed the scope [read]. *)
Definition c1 : User := mkUser "s3cret" ["read"] [""].

Definition boot : State :=
  {| users := {["c1" := c1]}; tokens := ∅; token_table := [] |}.

Definition grant (secret : string) : Form :=
  {| ClientId := "c1"; Scope := "read"; FormSecret := secret;
     GrantType := "client_credentials" |}.

(** A page of [n] rows of the user table. *)
Definition page (n : nat) : list Scanned :=
  replicate n (ScanOk "c1" "s3cret" ["read"]).

(** Two goroutines race to create the bucket of ["A"]; goroutine 0 wins and
    is served at once, goroutine 1 reaches [refill] [delay] nanoseconds
    later. *)
Definition race (delay : Time) : list (nat * Time) :=
  [(1%nat, 0); (0%nat, 0); (0%nat, 0); (1%nat, 0); (0%nat, 0); (0%nat, 0);
   (0%nat, 0); (1%nat, 0); (1%nat, 0); (1%nat, 0);
   (0%nat, 0); (0%nat, 0); (0%nat, 0); (0%nat, 0);
   (1%nat, delay); (1%nat, delay); (1%nat, delay); (1%nat, delay)]%Z.

End Sample.

(** * Properties *)

(** ** Clock arithmetic *)
Section ClockFacts.
Import Clock.

Lemma Sub_nonneg (t u : Time) : (u <= t)%Z -> (0 <= Sub t u)%Z.
Proof.
  intros H. unfold Sub, minDuration, maxDuration.
  repeat case_match; lia.
Qed.

Lemma Sub_exact (t u : Time) :
  (minDuration <= t - u <= maxDuration)%Z -> Sub t u = (t - u)%Z.
Proof.
  intros H. unfold Sub. repeat case_match; lia.
Qed.

Lemma Seconds_nonneg (d : Duration) : (0 <= d)%Z -> (0 <= Seconds d)%Q.
Proof. intros H. unfold Seconds, Qle. simpl. lia. Qed.

Lemma Seconds_pos (d : Duration) : (0 < d)%Z -> (0 < Seconds d)%Q.
Proof. intros H. unfold Seconds, Qlt. simpl. lia. Qed.

End ClockFacts.

(** ** The rate limiter *)
Section LimiterFacts.
Import Clock Limiter.
Local Open Scope Z_scope.
Local Open Scope Q_scope.

(** [refill] touches neither the capacity nor the fill rate. *)
Lemma refill_capacity now tb : capacity (refill now tb) = capacity tb.
Proof. unfold refill. destruct (Qlt_le_dec _ _); reflexivity. Qed.

Lemma refill_fillRate now tb : fillRate (refill now tb) = fillRate tb.
Proof. unfold refill. destruct (Qlt_le_dec _ _); reflexivity. Qed.

Lemma refill_ok cap now tb : bucket_ok cap tb -> bucket_ok cap (refill now tb).
Proof.
  intros (H0 & H1 & H2). unfold bucket_ok, refill.
  destruct (Qlt_le_dec 0 _) as [Hadd|Hadd]; simpl; [|done].
  destruct (Qlt_le_dec (capacity tb) _) as [Hc|Hc]; simpl;
    (repeat split; simpl; [lra | lra | done]).
Qed.

Lemma Allow_ok cap now tb : bucket_ok cap tb -> bucket_ok cap (snd (Allow now tb)).
Proof.
  intros H. apply (refill_ok cap now) in H. destruct H as (H0 & H1 & H2).
  unfold Allow. destruct (Qlt_le_dec _ 1) as [Hlt|Hge]; simpl.
  - done.
  - repeat split; simpl; [lra | lra | done].
Qed.

Lemma getLimiter_capacity now k rl :
  rl_capacity (snd (getLimiter now k rl)) = rl_capacity rl.
Proof. unfold getLimiter. destruct (limiters rl !! k); reflexivity. Qed.

Lemma getLimiter_fillRate now k rl :
  rl_fillRate (snd (getLimiter now k rl)) = rl_fillRate rl.
Proof. unfold getLimiter. destruct (limiters rl !! k); reflexivity. Qed.

(** The bucket handed out by [getLimiter] is the one stored under the key. *)
Lemma getLimiter_stored now k rl :
  limiters (snd (getLimiter now k rl)) !! k = Some (fst (getLimiter now k rl)).
Proof.
  unfold getLimiter. destruct (limiters rl !! k) eqn:E; simpl; [done|].
  by rewrite lookup_insert_eq.
Qed.

Lemma getLimiter_other now k k' rl :
  k <> k' -> limiters (snd (getLimiter now k rl)) !! k' = limiters rl !! k'.
Proof.
  intros Hne. unfold getLimiter. destruct (limiters rl !! k); simpl; [done|].
  by rewrite lookup_insert_ne.
Qed.

Lemma getLimiter_ok now k rl :
  0 <= rl_capacity rl -> limiter_ok rl ->
  bucket_ok (rl_capacity rl) (fst (getLimiter now k rl)).
Proof.
  intros Hcap Hok. unfold getLimiter.
  destruct (limiters rl !! k) eqn:E; simpl.
  - by apply (Hok k).
  - repeat split; simpl; [done | lra].
Qed.

Lemma IsAllowed_unfold tc tn k rl :
  IsAllowed tc tn k rl =
  (fst (Allow tn (fst (getLimiter tc k rl))),
   {| limiters := <[k := snd (Allow tn (fst (getLimiter tc k rl)))]>
                    (limiters (snd (getLimiter tc k rl)));
      rl_capacity := rl_capacity (snd (getLimiter tc k rl));
      rl_fillRate := rl_fillRate (snd (getLimiter tc k rl)) |}).
Proof.
  unfold IsAllowed. destruct (getLimiter tc k rl) as [tb rl1]. simpl.
  destruct (Allow tn tb) as [ok tb1]. reflexivity.
Qed.

Lemma IsAllowed_capacity tc tn k rl :
  rl_capacity (snd (IsAllowed tc tn k rl)) = rl_capacity rl.
Proof. rewrite IsAllowed_unfold. simpl. apply getLimiter_capacity. Qed.

Lemma IsAllowed_fillRate tc tn k rl :
  rl_fillRate (snd (IsAllowed tc tn k rl)) = rl_fillRate rl.
Proof. rewrite IsAllowed_unfold. simpl. apply getLimiter_fillRate. Qed.

Lemma IsAllowed_other tc tn k k' rl :
  k <> k' -> limiters (snd (IsAllowed tc tn k rl)) !! k' = limiters rl !! k'.
Proof.
  intros Hne. rewrite IsAllowed_unfold. simpl.
  rewrite lookup_insert_ne by done. by apply getLimiter_other.
Qed.

Lemma IsAllowed_ok tc tn k rl :
  0 <= rl_capacity rl -> limiter_ok rl -> limiter_ok (snd (IsAllowed tc tn k rl)).
Proof.
  intros Hcap Hok k' tb. rewrite IsAllowed_capacity.
  destruct (decide (k = k')) as [<-|Hne].
  - rewrite IsAllowed_unfold. simpl. rewrite lookup_insert_eq.
    intros [= <-]. apply Allow_ok. by apply getLimiter_ok.
  - rewrite IsAllowed_other by done. apply Hok.
Qed.

Lemma run_capacity calls rl : rl_capacity (run calls rl) = rl_capacity rl.
Proof.
  revert rl. induction calls as [|c rest IH]; intros rl; simpl; [done|].
  rewrite IH. apply IsAllowed_capacity.
Qed.

Lemma run_ok calls rl :
  0 <= rl_capacity rl -> limiter_ok rl -> limiter_ok (run calls rl).
Proof.
  revert rl. induction calls as [|c rest IH]; intros rl Hcap Hok; simpl; [done|].
  apply IH.
  - by rewrite IsAllowed_capacity.
  - by apply IsAllowed_ok.
Qed.

(** C1. From a fresh limiter of non-negative capacity, after any sequence of
    [IsAllowed] calls, for any keys and any clock readings, every bucket
    holds between zero and [capacity] tokens, and its capacity is the
    limiter's. *)
Theorem bucket_bound (cap rate : Q) (calls : list Call) (k : string) (tb : TokenBucket) :
  0 <= cap ->
  limiters (run calls (NewRateLimiter cap rate)) !! k = Some tb ->
  0 <= tokens tb /\ tokens tb <= capacity tb /\ capacity tb = cap.
Proof.
  intros Hcap Hk.
  assert (Hok : limiter_ok (run calls (NewRateLimiter cap rate))).
  { apply run_ok; [done|]. intros k' tb'. simpl. by rewrite lookup_empty. }
  specialize (Hok k tb Hk). by rewrite run_capacity in Hok.
Qed.

(** What [refill] leaves in a bucket, whatever its state. *)
Lemma refill_tokens now tb :
  let add := Seconds (Sub now (lastRefillTime tb)) * fillRate tb in
  (0 < add -> tokens (refill now tb) == Qmin (capacity tb) (tokens tb + add)) /\
  (add <= 0 -> refill now tb = tb).
Proof.
  simpl. unfold refill. split; intros Hadd.
  - destruct (Qlt_le_dec 0 _) as [_|Hle]; [|lra]. simpl.
    destruct (Qlt_le_dec (capacity tb) _) as [Hc|Hc].
    + symmetry. apply Q.min_l. lra.
    + symmetry. apply Q.min_r. lra.
  - destruct (Qlt_le_dec 0 _) as [Hlt|_]; [lra|reflexivity].
Qed.

(** C7, as the spec words it: the first call of an unseen key is allowed.
    It is denied when the configured capacity is below one token. *)
Lemma first_call_denied_below_one :
  limiters (NewRateLimiter (1 # 2) 1) !! "A"%string = None /\
  fst (IsAllowed 0 0 "A"%string (NewRateLimiter (1 # 2) 1)) = false.
Proof. split; reflexivity. Qed.

(** C7, amended. For a key with no bucket, the first call creates a full
    bucket and is allowed exactly when the capacity is at least one token;
    the bucket then holds [capacity - 1] tokens. *)
Theorem first_call_allowed (tc tn : Time) (k : string) (rl : RateLimiter) :
  limiters rl !! k = None ->
  fst (getLimiter tc k rl) =
    {| tokens := rl_capacity rl; capacity := rl_capacity rl;
       fillRate := rl_fillRate rl; lastRefillTime := tc |} /\
  (fst (IsAllowed tc tn k rl) = true <-> 1 <= rl_capacity rl) /\
  (1 <= rl_capacity rl ->
   exists tb, limiters (snd (IsAllowed tc tn k rl)) !! k = Some tb /\
              tokens tb = rl_capacity rl - 1 /\ capacity tb = rl_capacity rl).
Proof.
  intros Hnone.
  assert (Hget : fst (getLimiter tc k rl) =
    {| tokens := rl_capacity rl; capacity := rl_capacity rl;
       fillRate := rl_fillRate rl; lastRefillTime := tc |}).
  { unfold getLimiter. by rewrite Hnone. }
  split; [done|].
  rewrite IsAllowed_unfold. simpl. rewrite lookup_insert_eq, Hget.
  set (b := {| tokens := rl_capacity rl |}).
  assert (Href : tokens (refill tn b) = rl_capacity rl /\
                 capacity (refill tn b) = rl_capacity rl).
  { unfold refill, b. simpl.
    destruct (Qlt_le_dec 0 _) as [Hadd|Hadd]; simpl; [|done].
    destruct (Qlt_le_dec _ _) as [Hc|Hc]; simpl; [done | lra]. }
  destruct Href as [Ht Hc]. unfold Allow. rewrite Ht, Hc.
  destruct (Qlt_le_dec (rl_capacity rl) 1) as [Hlt|Hge]; simpl.
  - split; [split; [done | lra] | lra].
  - split; [split; done|]. intros _. eexists. split; [reflexivity|]. done.
Qed.

(** C10. A call for one key leaves the bucket of every other key, and the
    capacity and fill rate of the limiter, as they were. *)
Theorem IsAllowed_frame (tc tn : Time) (k1 k2 : string) (rl : RateLimiter) :
  k1 <> k2 ->
  limiters (snd (IsAllowed tc tn k1 rl)) !! k2 = limiters rl !! k2 /\
  rl_capacity (snd (IsAllowed tc tn k1 rl)) = rl_capacity rl /\
  rl_fillRate (snd (IsAllowed tc tn k1 rl)) = rl_fillRate rl.
Proof.
  intros Hne. split; [by apply IsAllowed_other|].
  split; [apply IsAllowed_capacity | apply IsAllowed_fillRate].
Qed.

Lemma bucket_bound_witness :
  exists tb,
    limiters (run [mkCall "A" 0 0; mkCall "B" 5 5; mkCall "A" 7 9]
                  (NewRateLimiter 2 1)) !! "A"%string = Some tb /\
    (0 <= tokens tb /\ tokens tb <= capacity tb /\ capacity tb = 2).
Proof.
  eexists. split.
  - vm_compute. reflexivity.
  - apply (bucket_bound 2 1 [mkCall "A" 0 0; mkCall "B" 5 5; mkCall "A" 7 9] "A").
    + unfold Qle. simpl. lia.
    + vm_compute. reflexivity.
Defined.

Lemma first_call_allowed_witness :
  fst (IsAllowed 0 3 "A" (NewRateLimiter 2 1)) = true.
Proof.
  apply (first_call_allowed 0 3 "A" (NewRateLimiter 2 1)).
  - simpl. apply lookup_empty.
  - simpl. unfold Qle. simpl. lia.
Defined.

Lemma IsAllowed_frame_witness :
  limiters (snd (IsAllowed 4 4 "A" (run [mkCall "B" 0 0] (NewRateLimiter 2 1)))) !! "B"%string
  = limiters (run [mkCall "B" 0 0] (NewRateLimiter 2 1)) !! "B"%string.
Proof.
  apply (IsAllowed_frame 4 4 "A" "B" (run [mkCall "B" 0 0] (NewRateLimiter 2 1))).
  discriminate.
Defined.

End LimiterFacts.

(** ** The token bucket in binary64 *)
Section Binary64Facts.
Import Clock Binary64.
Local Open Scope float_scope.

(** Adding a positive number to a zero gives the number. *)
Lemma add_zero_pos (z a : float) :
  (z =? 0) = true -> (0 <? a) = true -> z + a = a.
Proof.
  intros Hz Ha. rewrite FloatAxioms.eqb_spec in Hz. rewrite ltb_spec in Ha.
  apply Prim2SF_inj. rewrite add_spec.
  change (Prim2SF 0) with (S754_zero false) in Hz, Ha.
  destruct (Prim2SF z) as [sz|sz| |sz mz ez]; try (by destruct sz);
    destruct (Prim2SF a) as [sa|sa| |sa ma ea]; try done; by destruct sa.
Qed.

(** A zero is below one. *)
Lemma zero_below_one (z : float) : (z =? 0) = true -> (1 <=? z) = false.
Proof.
  intros Hz. rewrite FloatAxioms.eqb_spec in Hz. rewrite leb_spec.
  change (Prim2SF 0) with (S754_zero false) in Hz.
  destruct (Prim2SF z) as [sz|sz| |sz mz ez]; try (by destruct sz). reflexivity.
Qed.

(** C2, as the spec words it: after [t] seconds an empty bucket holds
    [min(capacity, t * fill_rate)] tokens.  A bucket of capacity 10 and
    fill rate 625 tokens a second, empty, is refilled 4.8 ms after its
    last refill: [t * fill_rate] is 3, and the bucket holds
    6755399441055743 / 2^51 tokens, the binary64 number just below 3; so
    it does whether [t] is 4.8 ms or the binary64 number that [Seconds]
    returns for it. *)
Lemma refill_from_empty_rounded :
  let tb := {| tokens := 0; capacity := 10; fillRate := 625; lastRefillTime := 0 |} in
  let t := Sub 4800000 (lastRefillTime tb) in
  let t64 := (5534023222112865 # 1152921504606846976)%Q in
  let observed := (6755399441055743 # 2251799813685248)%Q in
  value (tokens tb) = Some 0%Q /\
  value (capacity tb) = Some 10%Q /\
  value (fillRate tb) = Some 625%Q /\
  (Clock.Seconds t * 625 == 3)%Q /\
  value (Seconds t) = Some t64 /\
  value (tokens (refill 4800000 tb)) = Some observed /\
  ~ (observed == Qmin 10 (Clock.Seconds t * 625))%Q /\
  ~ (observed == Qmin 10 (t64 * 625))%Q.
Proof.
  do 6 (split; [reflexivity|]). split; vm_compute; discriminate.
Qed.

(** C2, amended. A bucket whose tokens are zero is refilled: with [a] the
    binary64 product of the elapsed seconds, as [Seconds] returns them,
    and the fill rate, the bucket holds [a], or the capacity when that is
    less, if [a] is positive, and is left as it was otherwise; this is the
    amount [Allow] tests against one and decrements. *)
Theorem refill_from_empty (now : Time) (tb : TokenBucket) :
  (tokens tb =? 0) = true ->
  let t := Seconds (Sub now (lastRefillTime tb)) in
  let a := t * fillRate tb in
  let observed :=
    if 0 <? a then (if capacity tb <? a then capacity tb else a) else tokens tb in
  tokens (refill now tb) = observed /\
  ((0 <? a) = false -> refill now tb = tb /\ fst (Allow now tb) = false) /\
  fst (Allow now tb) = (1 <=? observed) /\
  tokens (snd (Allow now tb)) = (if 1 <=? observed then observed - 1 else observed).
Proof.
  intros Hz t a observed.
  assert (Hobs : tokens (refill now tb) = observed).
  { unfold refill, observed. fold t. fold a.
    destruct (0 <? a) eqn:Ha; simpl; [|reflexivity].
    by rewrite (add_zero_pos _ _ Hz Ha). }
  split; [done|]. split.
  - intros Ha.
    assert (Hsame : refill now tb = tb).
    { unfold refill. fold t. fold a. by rewrite Ha. }
    split; [done|]. unfold Allow. rewrite Hsame.
    by rewrite (zero_below_one _ Hz).
  - unfold Allow. rewrite Hobs. by destruct (1 <=? observed).
Qed.

Lemma refill_from_empty_witness :
  tokens (refill 4800000 (mkBucket 0 10 625 0)) = Seconds 4800000 * 625 /\
  fst (Allow 4800000 (mkBucket 0 10 625 0)) = true /\
  value (tokens (snd (Allow 4800000 (mkBucket 0 10 625 0))))
  = Some (4503599627370495 # 2251799813685248)%Q.
Proof.
  destruct (refill_from_empty 4800000 (mkBucket 0 10 625 0)) as (H1 & _ & H2 & H3).
  - reflexivity.
  - split; [exact H1|]. split; [exact H2|]. rewrite H3. reflexivity.
Defined.

(** The decisions after a refill are those of binary64: a bucket of
    capacity 3 and fill rate 0.3, the binary64 number nearest to it,
    serves three calls, and ten seconds later three more, the product of
    10 and the fill rate being rounded to 3; the fill rate yields less
    than three tokens in ten seconds. *)
Remark six_calls_allowed :
  let tb := {| tokens := 3; capacity := 3; fillRate := 0x1.3333333333333p-2;
               lastRefillTime := 0 |} in
  Allows [0; 0; 0; 10000000000; 10000000000; 10000000000]%Z tb
  = [true; true; true; true; true; true] /\
  exists rate, value (fillRate tb) = Some rate /\
               ~ (6 <= 3 + rate * Clock.Seconds 10000000000)%Q.
Proof.
  split; [reflexivity|]. eexists. split; [vm_compute; reflexivity|].
  vm_compute. intros H. apply H. reflexivity.
Qed.

End Binary64Facts.

(** ** The token service *)
Section AuthFacts.
Import Clock Auth.
Local Open Scope string_scope.
Local Open Scope Z_scope.

Lemma set_token_wf scopes toks scope token :
  length toks = length scopes ->
  exists l, set_token scopes toks scope token = Done l /\ length l = length toks.
Proof.
  revert scopes. induction toks as [|tk toks IH]; intros [|sc scopes] Hlen;
    simpl in *; try discriminate.
  - by exists [].
  - case_bool_decide.
    + eexists. split; [reflexivity|]. done.
    + destruct (IH scopes) as (l & -> & Hl); [lia|].
      eexists. split; [reflexivity|]. simpl. by rewrite Hl.
Qed.

Lemma cached_token_wf scopes toks scope :
  length toks = length scopes ->
  exists o, cached_token scopes toks scope = Done o.
Proof.
  revert scopes. induction toks as [|tk toks IH]; intros [|sc scopes] Hlen;
    simpl in *; try discriminate.
  - by eexists.
  - destruct (_ && _); [by eexists|]. apply IH. lia.
Qed.

(** C5, at the code: a well-formed grant request for a client that is not
    in the registry makes the handler panic at [item.(User)]; no error
    response is written.  Nothing is stored. *)
Theorem token_handler_unknown_client (now1 now2 : Time) (ins : Inserted)
    (f : Form) (s : State) :
  ClientId f <> "" -> Scope f <> "" -> FormSecret f <> "" ->
  GrantType f = "client_credentials" ->
  users s !! ClientId f = None ->
  token_handler now1 now2 ins f s = (Panicked, s).
Proof.
  intros H1 H2 H3 H4 Hnone. unfold token_handler.
  rewrite !bool_decide_eq_false_2 by (by rewrite ?H4). simpl.
  rewrite bool_decide_eq_true_2 by done. simpl. by rewrite Hnone.
Qed.

Lemma token_handler_unknown_client_witness :
  token_handler 0%Z 0%Z (InsertOk "T" 7200%Z)
    {| ClientId := "nobody"; Scope := "read"; FormSecret := "x";
       GrantType := "client_credentials" |} Sample.boot
  = (Panicked, Sample.boot).
Proof.
  apply token_handler_unknown_client; simpl; try done.
Defined.

(** A token found in the client's slots is returned as it is: neither the
    clock nor the store is consulted. *)
Lemma AddToken_cached now1 now2 ins cid scope s user tk :
  users s !! cid = Some user ->
  cached_token (Scopes user) (Tokens user) scope = Done (Some tk) ->
  AddToken now1 now2 ins cid scope s = (Done tk, s).
Proof. intros Hu Hc. unfold AddToken. by rewrite Hu, Hc. Qed.

(** C4, at the code: a token issued at time 0 with expiration time 100 and
    validated at time 50 sits in the client's slot; a grant request at
    time 200 answers with that token, although it expired at 100 and the
    store still says so. *)
Theorem AddToken_returns_expired_token :
  let '(r1, s1) := token_handler 0 0 (InsertOk "T" 100) (Sample.grant "s3cret") Sample.boot in
  let '(r2, s2) := CheckToken 50 50 "T" s1 in
  let '(r3, s3) := token_handler 200 200 (InsertOk "U" 300) (Sample.grant "s3cret") s2 in
  r1 = JsonToken 200 "T" 7200 "read" /\
  r2 = Done (inl ("c1", "read")) /\
  r3 = JsonToken 200 "T" 7200 "read" /\
  (expiration_time <$> select_by_token "T" (token_table s3)) = Some 100%Z /\
  fst (CheckToken 200 200 "T" s3) = Done (inr ErrTokenExpired).
Proof. vm_compute. repeat split; reflexivity. Qed.

Lemma select_by_token_Some token db r :
  select_by_token token db = Some r -> r ∈ db /\ access_token r = token.
Proof.
  unfold select_by_token. intros H. apply find_some in H as [Hin Hb].
  apply bool_decide_eq_true_1 in Hb. split; [by apply list_elem_of_In | done].
Qed.

Lemma select_by_token_None token db :
  select_by_token token db = None <-> forall r, r ∈ db -> access_token r <> token.
Proof.
  unfold select_by_token. split.
  - intros H r Hin Heq. apply list_elem_of_In in Hin.
    pose proof (find_none _ _ H r Hin) as Hb. simpl in Hb.
    by rewrite bool_decide_eq_true_2 in Hb.
  - intros H. destruct (find _ db) as [r|] eqn:E; [|done].
    apply find_some in E as [Hin Hb]. apply bool_decide_eq_true_1 in Hb.
    exfalso. apply (H r); [by apply list_elem_of_In | done].
Qed.

(** The outcome of the store query of [CheckToken], for a well-formed
    registry. *)
Lemma CheckToken_store_spec now token s :
  users_wf (users s) ->
  match select_by_token token (token_table s) with
  | None => CheckToken_store now token s = (Done (inr ErrNoToken), s)
  | Some r =>
      if Before (expiration_time r) now
      then CheckToken_store now token s = (Done (inr ErrTokenExpired), s)
      else
        let s' := snd (CheckToken_store now token s) in
        fst (CheckToken_store now token s) = Done (inl (client_id r, access_scope r)) /\
        tokens s' = <[token := mkTokenInfo (client_id r) (access_scope r) (expiration_time r)]> (tokens s) /\
        token_table s' = token_table s
  end.
Proof.
  intros Hwf. unfold CheckToken_store.
  destruct (select_by_token token (token_table s)) as [r|]; [|done].
  destruct (Before (expiration_time r) now); [done|]. simpl.
  destruct (users s !! client_id r) as [u|] eqn:Hu; [|done].
  destruct (set_token_wf (Scopes u) (Tokens u) (access_scope r) token) as (l & -> & _).
  { by apply (Hwf (client_id r)). }
  done.
Qed.

(** C6. A validation that misses the token cache is decided by the store:
    no row gives [ErrNoToken]; a row whose expiration time is before the
    clock reading gives [ErrTokenExpired]; any other row gives its client
    and scope, and the token cache then maps the token to the client,
    scope and expiration time of that row. *)
Theorem CheckToken_cache_miss (now1 now2 : Time) (token : string) (s : State) :
  users_wf (users s) ->
  cache_miss now1 token s ->
  match select_by_token token (token_table s) with
  | None => fst (CheckToken now1 now2 token s) = Done (inr ErrNoToken)
  | Some r =>
      if Before (expiration_time r) now2
      then fst (CheckToken now1 now2 token s) = Done (inr ErrTokenExpired)
      else
        fst (CheckToken now1 now2 token s) = Done (inl (client_id r, access_scope r)) /\
        tokens (snd (CheckToken now1 now2 token s)) !! token =
          Some (mkTokenInfo (client_id r) (access_scope r) (expiration_time r))
  end.
Proof.
  intros Hwf Hmiss. unfold CheckToken, cache_miss in *.
  set (s0 := match tokens s !! token with
             | Some _ => set_tokens (delete token (tokens s)) s
             | None => s end).
  assert (Hrun : CheckToken_store now2 token s0 =
    match tokens s !! token with
    | Some token_info =>
        if After (ExpirationTime token_info) now1
        then (Done (inl (ClientID token_info, AccessScope token_info)), s)
        else CheckToken_store now2 token (set_tokens (delete token (tokens s)) s)
    | None => CheckToken_store now2 token s
    end).
  { unfold s0. destruct (tokens s !! token); [by rewrite Hmiss | done]. }
  rewrite <- Hrun.
  assert (Hwf0 : users_wf (users s0)) by (unfold s0; by destruct (tokens s !! token)).
  assert (Hdb : token_table s0 = token_table s) by (unfold s0; by destruct (tokens s !! token)).
  pose proof (CheckToken_store_spec now2 token s0 Hwf0) as Hspec.
  rewrite Hdb in Hspec.
  destruct (select_by_token token (token_table s)) as [r|].
  - destruct (Before (expiration_time r) now2).
    + by rewrite Hspec.
    + destruct Hspec as (Hres & Htok & _). split; [done|].
      rewrite Htok. apply lookup_insert_eq.
  - by rewrite Hspec.
Qed.

Lemma CheckToken_cache_miss_witness :
  fst (CheckToken 50 50 "T"
        {| users := {["c1" := Sample.c1]}; tokens := ∅;
           token_table := [mkRow "T" "c1" "read" 100] |})
  = Done (inl ("c1", "read")).
Proof.
  pose proof (CheckToken_cache_miss 50 50 "T"
    {| users := {["c1" := Sample.c1]}; tokens := ∅;
       token_table := [mkRow "T" "c1" "read" 100] |}) as H.
  simpl in H. apply H.
  - intros id u Hu. apply lookup_singleton_Some in Hu as [_ <-]. reflexivity.
  - unfold cache_miss. simpl. done.
Defined.


Lemma GetAllUsers_short_pages answers reg n :
  Forall short_page answers ->
  GetAllUsers answers reg n = Looping reg (n + length answers).
Proof.
  intros H. revert n. induction H as [|a answers (rows & usrs & -> & Hs & Hlen) _ IH];
    intros n; simpl.
  - f_equal. lia.
  - rewrite Hs. destruct (Z.eqb_spec (Z.of_nat (length usrs)) 1000) as [E|_]; [lia|].
    rewrite IH. f_equal. lia.
Qed.


Lemma GetAllUsers_Loaded_inv answers reg n reg' m :
  GetAllUsers answers reg n = Loaded reg' m ->
  exists rows usrs, QRows rows ∈ answers /\ scan_rows rows = Some usrs /\
                    Z.of_nat (length usrs) = 1000 /\ reg' = store_all usrs reg.
Proof.
  revert n. induction answers as [|a answers IH]; intros n H; simpl in H; [done|].
  destruct a as [rows| |]; [| |done].
  - destruct (scan_rows rows) as [usrs|] eqn:Hs; [|done].
    destruct (Z.eqb_spec (Z.of_nat (length usrs)) 1000) as [E|_].
    + exists rows, usrs. simplify_eq. repeat split; [left | done | done].
    + destruct (IH _ H) as (rows' & usrs' & Hin & ?). exists rows', usrs'.
      split; [by right | done].
  - destruct (IH _ H) as (rows' & usrs' & Hin & ?). exists rows', usrs'.
    split; [by right | done].
Qed.



(** *** The statements of the store *)

Lemma select_by_pair_Some cid scope db r :
  select_by_pair cid scope db = Some r ->
  r ∈ db /\ client_id r = cid /\ access_scope r = scope.
Proof.
  unfold select_by_pair. intros H. apply find_some in H as [Hin Hb].
  apply andb_true_iff in Hb as [H1 H2].
  apply bool_decide_eq_true_1 in H1. apply bool_decide_eq_true_1 in H2.
  split; [by apply list_elem_of_In | done].
Qed.

Lemma select_by_token_app token db l :
  select_by_token token (db ++ l) =
  match select_by_token token db with
  | Some r => Some r
  | None => select_by_token token l
  end.
Proof.
  unfold select_by_token. induction db as [|r db IH]; simpl; [done|].
  by case_bool_decide.
Qed.

Lemma select_by_token_delete token token' db :
  select_by_token token (delete_by_token token' db) =
  if bool_decide (token = token') then None else select_by_token token db.
Proof.
  unfold select_by_token, delete_by_token.
  induction db as [|r db IH]; simpl; [by case_bool_decide|].
  destruct (bool_decide (access_token r = token')) eqn:E1; simpl.
  - apply bool_decide_eq_true_1 in E1. rewrite IH.
    case_bool_decide as E2; [done|].
    rewrite bool_decide_eq_false_2; [done | congruence].
  - rewrite IH. apply bool_decide_eq_false_1 in E1.
    case_bool_decide as E2; [|done].
    rewrite bool_decide_eq_false_2; [done | congruence].
Qed.

Lemma delete_by_token_subseteq token db r :
  r ∈ delete_by_token token db -> r ∈ db /\ access_token r <> token.
Proof.
  unfold delete_by_token. rewrite !list_elem_of_In, filter_In.
  intros [Hin Hb]. split; [done|].
  apply negb_true_iff, bool_decide_eq_false_1 in Hb. done.
Qed.

Lemma delete_by_token_nodup token db :
  NoDup (access_token <$> db) -> NoDup (access_token <$> delete_by_token token db).
Proof.
  unfold delete_by_token. induction db as [|r db IH]; simpl; [done|].
  rewrite NoDup_cons. intros [Hnin Hnd].
  destruct (negb _); simpl; [|by apply IH].
  apply NoDup_cons. split; [|by apply IH].
  intros Hin. apply Hnin. apply list_elem_of_fmap in Hin as (r' & -> & Hr').
  apply list_elem_of_fmap. exists r'. split; [done|].
  by apply (delete_by_token_subseteq token).
Qed.

(** With unique token values, a row is found by its token value. *)
Lemma select_by_token_unique db r :
  NoDup (access_token <$> db) -> r ∈ db ->
  select_by_token (access_token r) db = Some r.
Proof.
  unfold select_by_token. induction db as [|r0 db IH]; simpl.
  - intros _ H. by apply elem_of_nil in H.
  - rewrite NoDup_cons. intros [Hnin Hnd] Hin.
    apply elem_of_cons in Hin as [->|Hin].
    + by rewrite bool_decide_eq_true_2.
    + rewrite bool_decide_eq_false_2; [by apply IH|].
      intros Heq. apply Hnin. rewrite Heq. apply list_elem_of_fmap. eauto.
Qed.

(** *** The token slots of a user *)

Lemma cached_token_None scopes toks scope i tk :
  cached_token scopes toks scope = Done None ->
  scopes !! i = Some scope -> toks !! i = Some tk -> tk = "".
Proof.
  revert scopes i. induction toks as [|tk0 toks IH]; intros [|sc scopes] i H Hs Ht;
    simpl in *; try done.
  destruct i as [|i]; simpl in *.
  - simplify_eq. rewrite bool_decide_eq_true_2 in H by done. simpl in H.
    case_bool_decide; [done | discriminate].
  - destruct (_ && _); [discriminate|]. by apply (IH scopes i).
Qed.

Lemma cached_token_Some scopes toks scope tk :
  cached_token scopes toks scope = Done (Some tk) ->
  exists i, scopes !! i = Some scope /\ toks !! i = Some tk /\ tk <> "".
Proof.
  revert scopes. induction toks as [|tk0 toks IH]; intros [|sc scopes] H;
    simpl in *; try done.
  destruct (bool_decide (sc = scope) && negb (bool_decide (tk0 = ""))) eqn:E.
  - simplify_eq. apply andb_true_iff in E as [E1 E2].
    apply bool_decide_eq_true_1 in E1.
    apply negb_true_iff, bool_decide_eq_false_1 in E2.
    exists 0%nat. simpl. by subst.
  - destruct (IH scopes H) as (i & ? & ? & ?). by exists (S i).
Qed.

Lemma set_token_slot scopes toks scope token l i sc tk :
  set_token scopes toks scope token = Done l ->
  scopes !! i = Some sc -> l !! i = Some tk ->
  (tk = token /\ sc = scope) \/ toks !! i = Some tk.
Proof.
  revert scopes l i. induction toks as [|tk0 toks IH]; intros [|sc0 scopes] l i H Hs Hl;
    simpl in *; simplify_eq; try done.
  case_bool_decide as E.
  - simplify_eq. destruct i as [|i]; simpl in *; simplify_eq; [by left | by right].
  - destruct (set_token scopes toks scope token) as [l'|] eqn:E'; simplify_eq.
    destruct i as [|i]; simpl in *; simplify_eq; [by right|].
    by apply (IH scopes l' i).
Qed.

(** *** The caches stay consistent with the store *)

Lemma delete_consistent s r :
  consistent s -> r ∈ token_table s ->
  no_slot (client_id r) (access_scope r) s ->
  consistent (set_table (delete_by_token (access_token r) (token_table s)) s).
Proof.
  intros [Hwf Hnd Hmir Hslot] Hin Hno. split; simpl.
  - done.
  - by apply delete_by_token_nodup.
  - intros token ti r0 Hti. rewrite select_by_token_delete.
    case_bool_decide; [done|]. by apply Hmir.
  - intros id u i sc tk Hu Hsc Htk Hne.
    destruct (Hslot id u i sc tk Hu Hsc Htk Hne) as (r0 & Hsel & Hid & Hsc0).
    exists r0. rewrite select_by_token_delete.
    rewrite bool_decide_eq_false_2; [done|]. intros ->.
    rewrite (select_by_token_unique _ r Hnd Hin) in Hsel. simplify_eq.
    by apply Hne, (Hno u i).
Qed.

Lemma get_token_users now cid scope s :
  users (snd (get_token now cid scope s)) = users s /\
  tokens (snd (get_token now cid scope s)) = tokens s.
Proof.
  unfold get_token. destruct (select_by_pair _ _ _) as [r|]; [|done].
  by destruct (Before _ _).
Qed.

Lemma get_token_consistent now cid scope s :
  consistent s -> no_slot cid scope s ->
  consistent (snd (get_token now cid scope s)).
Proof.
  intros Hc Hno. unfold get_token.
  destruct (select_by_pair _ _ _) as [r|] eqn:E; [|done].
  apply select_by_pair_Some in E as (Hin & <- & <-).
  destruct (Before _ _); [|done]. by apply delete_consistent.
Qed.

Lemma get_token_no_slot now cid scope cid' scope' s :
  no_slot cid' scope' s -> no_slot cid' scope' (snd (get_token now cid scope s)).
Proof.
  unfold no_slot. by destruct (get_token_users now cid scope s) as [-> _].
Qed.

Lemma get_token_fresh now cid scope ins s :
  fresh ins s -> fresh ins (snd (get_token now cid scope s)).
Proof.
  destruct ins as [tok exp|]; [|done]. intros [Hdb Hc].
  destruct (get_token_users now cid scope s) as [_ Ht].
  split; [|by rewrite Ht].
  unfold get_token. destruct (select_by_pair _ _ _) as [r|]; [|done].
  destruct (Before _ _); [|done]. simpl.
  intros Hin. apply Hdb. apply list_elem_of_fmap in Hin as (r' & -> & Hr').
  apply list_elem_of_fmap. exists r'. split; [done|].
  by apply (delete_by_token_subseteq (access_token r)).
Qed.

(** A token handed out by [get_token] is the token of a row of the pair. *)
Lemma get_token_row now cid scope s tk :
  consistent s -> fst (get_token now cid scope s) = tk -> tk <> "" ->
  snd (get_token now cid scope s) = s /\
  exists r, select_by_token tk (token_table s) = Some r /\
            client_id r = cid /\ access_scope r = scope /\
            Before (expiration_time r) now = false.
Proof.
  intros Hc. unfold get_token.
  destruct (select_by_pair _ _ _) as [r|] eqn:E; simpl; [|congruence].
  apply select_by_pair_Some in E as (Hin & Hid & Hsc).
  destruct (Before _ _) eqn:Hb; simpl; [congruence|].
  intros <- _. split; [done|]. exists r.
  split; [apply select_by_token_unique; [apply Hc | done] | done].
Qed.

Lemma insert_consistent s tok cid scope exp :
  consistent s -> fresh (InsertOk tok exp) s ->
  consistent (set_table (token_table s ++ [mkRow tok cid scope exp]) s).
Proof.
  intros [Hwf Hnd Hmir Hslot] [Hdb Hc]. split; simpl.
  - done.
  - rewrite fmap_app. apply NoDup_app. split; [done|]. split.
    + intros x Hx Hx'. apply list_elem_of_singleton in Hx'. by subst.
    + apply NoDup_singleton.
  - intros token ti r Hti. rewrite select_by_token_app.
    destruct (select_by_token token (token_table s)) as [r0|] eqn:E.
    + intros [= <-]. by apply (Hmir token).
    + unfold select_by_token. simpl. case_bool_decide; [|done].
      simpl in *. congruence.
  - intros id u i sc tk Hu Hsc Htk Hne.
    destruct (Hslot id u i sc tk Hu Hsc Htk Hne) as (r0 & Hsel & ?).
    exists r0. rewrite select_by_token_app, Hsel. done.
Qed.

Lemma AddToken_store_users now1 now2 ins cid scope s :
  users (snd (AddToken_store now1 now2 ins cid scope s)) = users s /\
  tokens (snd (AddToken_store now1 now2 ins cid scope s)) = tokens s.
Proof.
  unfold AddToken_store.
  pose proof (get_token_users now1 cid scope s) as [Hu Ht].
  destruct (get_token now1 cid scope s) as [token s1]. simpl in *.
  destruct (negb _); [done|]. destruct ins as [tok exp|]; [done|].
  pose proof (get_token_users now2 cid scope s1) as [Hu' Ht'].
  by rewrite Hu', Ht'.
Qed.

Lemma AddToken_store_consistent now1 now2 ins cid scope s :
  consistent s -> fresh ins s -> no_slot cid scope s ->
  consistent (snd (AddToken_store now1 now2 ins cid scope s)).
Proof.
  intros Hc Hf Hno. unfold AddToken_store.
  pose proof (get_token_consistent now1 cid scope s Hc Hno) as Hc1.
  pose proof (get_token_fresh now1 cid scope ins s Hf) as Hf1.
  pose proof (get_token_no_slot now1 cid scope cid scope s Hno) as Hno1.
  destruct (get_token now1 cid scope s) as [token s1]. simpl in *.
  destruct (negb _); [done|]. destruct ins as [tok exp|]; simpl.
  - by apply insert_consistent.
  - by apply get_token_consistent.
Qed.

(** A non-empty token returned by the store path of [AddToken] is the
    token of a row for the client and the scope. *)
Lemma AddToken_store_row now1 now2 ins cid scope s tk :
  consistent s -> fresh ins s -> no_slot cid scope s ->
  fst (AddToken_store now1 now2 ins cid scope s) = tk -> tk <> "" ->
  exists r, select_by_token tk (token_table (snd (AddToken_store now1 now2 ins cid scope s))) = Some r /\
            client_id r = cid /\ access_scope r = scope.
Proof.
  intros Hc Hf Hno. unfold AddToken_store.
  pose proof (get_token_consistent now1 cid scope s Hc Hno) as Hc1.
  pose proof (get_token_fresh now1 cid scope ins s Hf) as Hf1.
  pose proof (get_token_no_slot now1 cid scope cid scope s Hno) as Hno1.
  pose proof (get_token_row now1 cid scope s) as Hrow.
  destruct (get_token now1 cid scope s) as [token s1]. simpl in *.
  case_bool_decide as E; simpl.
  - destruct ins as [tok exp|]; simpl.
    + intros <- _. destruct Hf1 as [Hdb _].
      exists (mkRow tok cid scope exp). rewrite select_by_token_app.
      assert (select_by_token tok (token_table s1) = None) as ->.
      { apply select_by_token_None. intros r Hr Heq. apply Hdb.
        apply list_elem_of_fmap. eauto. }
      unfold select_by_token. simpl. by rewrite bool_decide_eq_true_2.
    + intros Htk Hne.
      destruct (get_token_row now2 cid scope s1 tk Hc1 Htk Hne) as (-> & r & ? & ? & ? & _).
      by exists r.
  - intros <- _. destruct (Hrow token Hc eq_refl E) as (-> & r & ? & ? & ? & _).
    by exists r.
Qed.

Lemma cached_no_slot cid scope s u :
  users s !! cid = Some u ->
  cached_token (Scopes u) (Tokens u) scope = Done None ->
  no_slot cid scope s.
Proof.
  intros Hu Hc u' i tk Hu' Hs Ht. simplify_eq.
  by apply (cached_token_None _ _ _ i tk Hc).
Qed.

Lemma no_user_no_slot cid scope s : users s !! cid = None -> no_slot cid scope s.
Proof. intros Hu u i tk Hu'. congruence. Qed.

Lemma AddToken_consistent now1 now2 ins cid scope s :
  consistent s -> fresh ins s ->
  consistent (snd (AddToken now1 now2 ins cid scope s)).
Proof.
  intros Hc Hf. unfold AddToken.
  destruct (users s !! cid) as [u|] eqn:Hu.
  - destruct (cached_token _ _ _) as [[tk|]|] eqn:E; try done.
    pose proof (AddToken_store_consistent now1 now2 ins cid scope s Hc Hf
                  (cached_no_slot _ _ _ _ Hu E)).
    by destruct (AddToken_store _ _ _ _ _ _).
  - pose proof (AddToken_store_consistent now1 now2 ins cid scope s Hc Hf
                  (no_user_no_slot _ _ _ Hu)).
    by destruct (AddToken_store _ _ _ _ _ _).
Qed.

(** [AddToken] writes to neither cache. *)
Lemma AddToken_caches now1 now2 ins cid scope s :
  users (snd (AddToken now1 now2 ins cid scope s)) = users s /\
  tokens (snd (AddToken now1 now2 ins cid scope s)) = tokens s.
Proof.
  unfold AddToken.
  pose proof (AddToken_store_users now1 now2 ins cid scope s) as H.
  destruct (AddToken_store _ _ _ _ _ _) as [tk s1].
  destruct (users s !! cid) as [u|]; [|done].
  by destruct (cached_token _ _ _) as [[?|]|].
Qed.

(** A non-empty token returned by [AddToken] is the token of a row of the
    table, for the client and the scope asked. *)
Lemma AddToken_row now1 now2 ins cid scope s tk :
  consistent s -> fresh ins s ->
  fst (AddToken now1 now2 ins cid scope s) = Done tk -> tk <> "" ->
  exists r, select_by_token tk (token_table (snd (AddToken now1 now2 ins cid scope s))) = Some r /\
            client_id r = cid /\ access_scope r = scope.
Proof.
  intros Hc Hf. unfold AddToken.
  destruct (users s !! cid) as [u|] eqn:Hu.
  - destruct (cached_token _ _ _) as [[tk0|]|] eqn:E; simpl; try done.
    + intros [= <-] Hne. apply cached_token_Some in E as (i & Hs & Ht & _).
      apply (cons_slot s Hc cid u i scope tk0 Hu Hs Ht Hne).
    + pose proof (AddToken_store_row now1 now2 ins cid scope s tk Hc Hf
                    (cached_no_slot _ _ _ _ Hu E)) as H.
      destruct (AddToken_store _ _ _ _ _ _) as [tk1 s1]. simpl in *.
      intros [= <-]. by apply H.
  - pose proof (AddToken_store_row now1 now2 ins cid scope s tk Hc Hf
                  (no_user_no_slot _ _ _ Hu)) as H.
    destruct (AddToken_store _ _ _ _ _ _) as [tk1 s1]. simpl in *.
    intros [= <-]. by apply H.
Qed.

Lemma CheckToken_store_table now token s :
  token_table (snd (CheckToken_store now token s)) = token_table s.
Proof.
  unfold CheckToken_store. destruct (select_by_token _ _) as [r|]; [|done].
  destruct (Before _ _); [done|]. simpl.
  destruct (users s !! client_id r) as [u|]; [|done].
  by destruct (set_token _ _ _ _).
Qed.

(** [CheckToken] never writes to the store. *)
Lemma CheckToken_table now1 now2 token s :
  token_table (snd (CheckToken now1 now2 token s)) = token_table s.
Proof.
  unfold CheckToken. destruct (tokens s !! token) as [ti|].
  - destruct (After _ _); [done|]. by rewrite CheckToken_store_table.
  - apply CheckToken_store_table.
Qed.

Lemma cache_delete_consistent token s :
  consistent s -> consistent (set_tokens (delete token (tokens s)) s).
Proof.
  intros [Hwf Hnd Hmir Hslot]. split; simpl; try done.
  intros token' ti r Hti. apply lookup_delete_Some in Hti as [_ Hti].
  by apply Hmir.
Qed.

Lemma CheckToken_store_consistent now token s :
  consistent s -> consistent (snd (CheckToken_store now token s)).
Proof.
  intros Hc. unfold CheckToken_store.
  destruct (select_by_token token (token_table s)) as [r|] eqn:Hsel; [|done].
  destruct (Before _ _); [done|]. simpl.
  set (s1 := set_tokens _ s).
  assert (Hc1 : consistent s1).
  { destruct Hc as [Hwf Hnd Hmir Hslot]. split; simpl; try done.
    intros token' ti r' Hti Hsel'.
    destruct (decide (token = token')) as [<-|Hne].
    - rewrite lookup_insert_eq in Hti. by simplify_eq.
    - rewrite lookup_insert_ne in Hti by done. by apply (Hmir token'). }
  destruct (users s !! client_id r) as [u|] eqn:Hu; [|done].
  destruct (set_token _ _ _ _) as [l|] eqn:Hset; [|done]. simpl.
  destruct Hc1 as [Hwf1 Hnd1 Hmir1 Hslot1]. split; simpl; try done.
  - intros id u' Hu'. destruct (decide (client_id r = id)) as [<-|Hne].
    + rewrite lookup_insert_eq in Hu'. simplify_eq. simpl.
      destruct (set_token_wf (Scopes u) (Tokens u) (access_scope r) token) as (l' & Hl' & Hlen).
      { by apply (Hwf1 (client_id r)). }
      rewrite Hset in Hl'. simplify_eq. rewrite Hlen. by apply (Hwf1 (client_id r)).
    + rewrite lookup_insert_ne in Hu' by done. by apply (Hwf1 id).
  - intros id u' i sc tk Hu' Hsc Htk Hne.
    destruct (decide (client_id r = id)) as [<-|Hne'].
    + rewrite lookup_insert_eq in Hu'. simplify_eq. simpl in *.
      destruct (set_token_slot _ _ _ _ _ _ _ _ Hset Hsc Htk) as [[-> ->]|Hold].
      * by exists r.
      * by apply (Hslot1 (client_id r) u i).
    + rewrite lookup_insert_ne in Hu' by done. by apply (Hslot1 id u' i).
Qed.

Lemma CheckToken_consistent now1 now2 token s :
  consistent s -> consistent (snd (CheckToken now1 now2 token s)).
Proof.
  intros Hc. unfold CheckToken. destruct (tokens s !! token) as [ti|].
  - destruct (After _ _); [done|].
    by apply CheckToken_store_consistent, cache_delete_consistent.
  - by apply CheckToken_store_consistent.
Qed.

(** What the handler does to the state is what [AddToken] does, if it is
    reached. *)
Lemma token_handler_state now1 now2 ins f s :
  snd (token_handler now1 now2 ins f s) = s \/
  snd (token_handler now1 now2 ins f s) =
    snd (AddToken now1 now2 ins (ClientId f) (Scope f) s).
Proof.
  unfold token_handler.
  destruct (_ || _); [by left|]. destruct (negb _); [by left|].
  destruct (users s !! ClientId f) as [u|]; [|by left].
  destruct (negb _); [by left|]. destruct (negb _); [by left|].
  right. destruct (AddToken _ _ _ _ _ _) as [[tk|] s1]; [|done].
  by case_bool_decide.
Qed.

Lemma token_handler_consistent now1 now2 ins f s :
  consistent s -> fresh ins s ->
  consistent (snd (token_handler now1 now2 ins f s)).
Proof.
  intros Hc Hf. destruct (token_handler_state now1 now2 ins f s) as [->| ->]; [done|].
  by apply AddToken_consistent.
Qed.

(** A granted token is the result of [AddToken] for the client and scope
    of the form, and is not empty. *)
Lemma token_handler_granted now1 now2 ins f s st tok ex sc s' :
  token_handler now1 now2 ins f s = (JsonToken st tok ex sc, s') ->
  AddToken now1 now2 ins (ClientId f) (Scope f) s = (Done tok, s') /\
  tok <> "" /\ sc = Scope f /\ st = 200 /\ ex = 7200 /\
  exists u, users s !! ClientId f = Some u /\ FormSecret f = ClientSecret u /\
            is_pos_scope (Scopes u) (Scope f) = true /\
            GrantType f = "client_credentials".
Proof.
  unfold token_handler.
  destruct (_ || _); [done|].
  case_bool_decide as Hg; simpl; [|done].
  destruct (users s !! ClientId f) as [u|]; [|done].
  case_bool_decide as Hsec; simpl; [|done].
  destruct (is_pos_scope _ _) eqn:Hscope; simpl; [|done].
  destruct (AddToken _ _ _ _ _ _) as [[tk|] s1]; [|done].
  case_bool_decide as Hempty; [done|].
  intros [= <- <- <- <- <-]. repeat split; try done.
  exists u. done.
Qed.

(** *** Validation of a token whose row is known *)

Lemma validate_live now1 now2 token r s :
  consistent s -> select_by_token token (token_table s) = Some r ->
  now2 <= expiration_time r ->
  fst (CheckToken now1 now2 token s) = Done (inl (client_id r, access_scope r)).
Proof.
  intros Hc Hsel Hlive.
  assert (Hstore : forall s0, users_wf (users s0) -> token_table s0 = token_table s ->
            fst (CheckToken_store now2 token s0) = Done (inl (client_id r, access_scope r))).
  { intros s0 Hwf Hdb. pose proof (CheckToken_store_spec now2 token s0 Hwf) as H.
    rewrite Hdb, Hsel in H. unfold Before in H.
    destruct (Z.ltb_spec (expiration_time r) now2); [lia|]. apply H. }
  unfold CheckToken. destruct (tokens s !! token) as [ti|] eqn:Hti.
  - destruct (cons_mirror s Hc token ti r Hti Hsel) as (-> & -> & _).
    destruct (After _ _); [done|]. apply Hstore; [apply Hc | done].
  - apply Hstore; [apply Hc | done].
Qed.

Lemma validate_gone now1 now2 token r s :
  users_wf (users s) -> row_or_gone token r s ->
  expiration_time r < now1 -> now1 <= now2 ->
  (select_by_token token (token_table s) = Some r ->
   fst (CheckToken now1 now2 token s) = Done (inr ErrTokenExpired)) /\
  (select_by_token token (token_table s) = None ->
   fst (CheckToken now1 now2 token s) = Done (inr ErrNoToken)).
Proof.
  intros Hwf [Hrow Hexp] Hlt Hle.
  assert (Hstore : forall s0, users_wf (users s0) -> token_table s0 = token_table s ->
    (select_by_token token (token_table s) = Some r ->
     fst (CheckToken_store now2 token s0) = Done (inr ErrTokenExpired)) /\
    (select_by_token token (token_table s) = None ->
     fst (CheckToken_store now2 token s0) = Done (inr ErrNoToken))).
  { intros s0 Hwf0 Hdb. pose proof (CheckToken_store_spec now2 token s0 Hwf0) as H.
    rewrite Hdb in H. split; intros Hsel; rewrite Hsel in H.
    - unfold Before in H. destruct (Z.ltb_spec (expiration_time r) now2); [|lia].
      by rewrite H.
    - by rewrite H. }
  unfold CheckToken. destruct (tokens s !! token) as [ti|] eqn:Hti.
  - rewrite (Hexp ti eq_refl). unfold After.
    destruct (Z.ltb_spec now1 (expiration_time r)); [lia|].
    by apply Hstore.
  - by apply Hstore.
Qed.

(** *** A row survives the requests made before it expires *)

Lemma get_token_keeps_row now cid scope s token r :
  consistent s -> select_by_token token (token_table s) = Some r ->
  now <= expiration_time r ->
  select_by_token token (token_table (snd (get_token now cid scope s))) = Some r.
Proof.
  intros Hc Hsel Hlive. unfold get_token.
  destruct (select_by_pair _ _ _) as [r'|] eqn:E; [|done].
  apply select_by_pair_Some in E as (Hin & _ & _).
  unfold Before. destruct (Z.ltb_spec (expiration_time r') now) as [Hlt|]; [|done].
  simpl. rewrite select_by_token_delete.
  rewrite bool_decide_eq_false_2; [done|]. intros ->.
  rewrite (select_by_token_unique _ r' (cons_nodup s Hc) Hin) in Hsel.
  simplify_eq. lia.
Qed.

Lemma AddToken_store_keeps_row now1 now2 ins cid scope s token r :
  consistent s -> no_slot cid scope s ->
  select_by_token token (token_table s) = Some r ->
  now1 <= expiration_time r -> now2 <= expiration_time r ->
  select_by_token token
    (token_table (snd (AddToken_store now1 now2 ins cid scope s))) = Some r.
Proof.
  intros Hc Hno Hsel H1 H2. unfold AddToken_store.
  pose proof (get_token_keeps_row now1 cid scope s token r Hc Hsel H1) as Hk.
  pose proof (get_token_consistent now1 cid scope s Hc Hno) as Hc1.
  destruct (get_token now1 cid scope s) as [tk s1]. simpl in *.
  destruct (negb _); [done|]. destruct ins as [tok exp|]; simpl.
  - by rewrite select_by_token_app, Hk.
  - by apply get_token_keeps_row.
Qed.

Lemma AddToken_keeps_row now1 now2 ins cid scope s token r :
  consistent s -> select_by_token token (token_table s) = Some r ->
  now1 <= expiration_time r -> now2 <= expiration_time r ->
  select_by_token token
    (token_table (snd (AddToken now1 now2 ins cid scope s))) = Some r.
Proof.
  intros Hc Hsel H1 H2. unfold AddToken.
  destruct (users s !! cid) as [u|] eqn:Hu.
  - destruct (cached_token _ _ _) as [[tk|]|] eqn:E; try done.
    pose proof (AddToken_store_keeps_row now1 now2 ins cid scope s token r Hc
                  (cached_no_slot _ _ _ _ Hu E) Hsel H1 H2).
    by destruct (AddToken_store _ _ _ _ _ _).
  - pose proof (AddToken_store_keeps_row now1 now2 ins cid scope s token r Hc
                  (no_user_no_slot _ _ _ Hu) Hsel H1 H2).
    by destruct (AddToken_store _ _ _ _ _ _).
Qed.

Lemma serve_keeps_row req s token r :
  consistent s -> select_by_token token (token_table s) = Some r ->
  not_after (expiration_time r) req ->
  select_by_token token (token_table (serve req s)) = Some r.
Proof.
  intros Hc Hsel Hna. destruct req as [now1 now2 ins f|now1 now2 token']; simpl in *.
  - destruct Hna as [H1 H2].
    destruct (token_handler_state now1 now2 ins f s) as [->| ->]; [done|].
    by apply AddToken_keeps_row.
  - by rewrite CheckToken_table.
Qed.

Lemma serve_consistent token req rest s :
  consistent s -> fresh_all token (req :: rest) s -> consistent (serve req s).
Proof.
  intros Hc [Hf _]. destruct req as [now1 now2 ins f|now1 now2 token']; simpl in *.
  - apply token_handler_consistent; [done | apply Hf].
  - by apply CheckToken_consistent.
Qed.

Lemma serve_all_keeps_row reqs s token r :
  consistent s -> fresh_all token reqs s ->
  select_by_token token (token_table s) = Some r ->
  Forall (not_after (expiration_time r)) reqs ->
  consistent (serve_all reqs s) /\
  select_by_token token (token_table (serve_all reqs s)) = Some r.
Proof.
  revert s. induction reqs as [|req rest IH]; intros s Hc Hf Hsel Hna; simpl; [done|].
  apply Forall_cons in Hna as [Hna Hrest].
  apply IH; try done.
  - by apply (serve_consistent token req rest).
  - apply Hf.
  - by apply serve_keeps_row.
Qed.

(** *** An expired token after further requests *)

Lemma get_token_row_or_gone now cid scope s token r :
  row_or_gone token r s -> row_or_gone token r (snd (get_token now cid scope s)).
Proof.
  intros [Hrow Hexp]. destruct (get_token_users now cid scope s) as [_ Ht].
  split; [|by rewrite Ht].
  unfold get_token. destruct (select_by_pair _ _ _) as [r'|]; [|done].
  destruct (Before _ _); [|done]. simpl. rewrite select_by_token_delete.
  case_bool_decide; [by right | done].
Qed.

Lemma AddToken_store_row_or_gone now1 now2 ins cid scope s token r :
  match ins with InsertOk tok _ => tok <> token | InsertFailed => True end ->
  row_or_gone token r s ->
  row_or_gone token r (snd (AddToken_store now1 now2 ins cid scope s)).
Proof.
  intros Hne Hrg. unfold AddToken_store.
  pose proof (get_token_row_or_gone now1 cid scope s token r Hrg) as Hrg1.
  destruct (get_token now1 cid scope s) as [tk s1]. simpl in *.
  destruct (negb _); [done|]. destruct ins as [tok exp|]; simpl.
  - destruct Hrg1 as [Hrow Hexp]. split; [|done]. simpl.
    rewrite select_by_token_app. destruct Hrow as [-> | ->]; [by left|].
    right. unfold select_by_token. simpl. by rewrite bool_decide_eq_false_2.
  - by apply get_token_row_or_gone.
Qed.

Lemma AddToken_row_or_gone now1 now2 ins cid scope s token r :
  match ins with InsertOk tok _ => tok <> token | InsertFailed => True end ->
  row_or_gone token r s ->
  row_or_gone token r (snd (AddToken now1 now2 ins cid scope s)).
Proof.
  intros Hne Hrg. unfold AddToken.
  pose proof (AddToken_store_row_or_gone now1 now2 ins cid scope s token r Hne Hrg) as H.
  destruct (AddToken_store _ _ _ _ _ _) as [tk s1].
  destruct (users s !! cid) as [u|]; [|done].
  by destruct (cached_token _ _ _) as [[?|]|].
Qed.

Lemma CheckToken_store_tokens now token s :
  tokens (snd (CheckToken_store now token s)) = tokens s \/
  exists r, select_by_token token (token_table s) = Some r /\
    tokens (snd (CheckToken_store now token s)) =
      <[token := mkTokenInfo (client_id r) (access_scope r) (expiration_time r)]> (tokens s).
Proof.
  unfold CheckToken_store. destruct (select_by_token _ _) as [r|]; [|by left].
  destruct (Before _ _); [by left|]. right. exists r. split; [done|]. simpl.
  destruct (users s !! client_id r) as [u|]; [|done].
  by destruct (set_token _ _ _ _).
Qed.

Lemma CheckToken_store_row_or_gone now token' s token r :
  row_or_gone token r s -> row_or_gone token r (snd (CheckToken_store now token' s)).
Proof.
  intros [Hrow Hexp]. split; [by rewrite CheckToken_store_table|].
  intros ti. destruct (CheckToken_store_tokens now token' s) as [->|(r' & Hsel & ->)];
    [apply Hexp|].
  destruct (decide (token' = token)) as [->|Hne].
  - rewrite lookup_insert_eq. intros [= <-]. simpl.
    destruct Hrow as [Hr|Hr]; rewrite Hr in Hsel; by simplify_eq.
  - rewrite lookup_insert_ne by done. apply Hexp.
Qed.

Lemma CheckToken_row_or_gone now1 now2 token' s token r :
  row_or_gone token r s -> row_or_gone token r (snd (CheckToken now1 now2 token' s)).
Proof.
  intros Hrg. unfold CheckToken.
  assert (Hdel : row_or_gone token r (set_tokens (delete token' (tokens s)) s)).
  { destruct Hrg as [Hrow Hexp]. split; [done|]. simpl.
    intros ti Hti. apply lookup_delete_Some in Hti as [_ Hti]. by apply Hexp. }
  destruct (tokens s !! token') as [ti|].
  - destruct (After _ _); [done|]. by apply CheckToken_store_row_or_gone.
  - by apply CheckToken_store_row_or_gone.
Qed.

Lemma serve_row_or_gone req rest s token r :
  fresh_all token (req :: rest) s ->
  row_or_gone token r s -> row_or_gone token r (serve req s).
Proof.
  intros [Hf _] Hrg. destruct req as [now1 now2 ins f|now1 now2 token']; simpl in *.
  - destruct (token_handler_state now1 now2 ins f s) as [->| ->]; [done|].
    apply AddToken_row_or_gone; [apply Hf | done].
  - by apply CheckToken_row_or_gone.
Qed.

Lemma serve_all_row_or_gone reqs s token r :
  consistent s -> fresh_all token reqs s -> row_or_gone token r s ->
  consistent (serve_all reqs s) /\ row_or_gone token r (serve_all reqs s).
Proof.
  revert s. induction reqs as [|req rest IH]; intros s Hc Hf Hrg; simpl; [done|].
  apply IH.
  - by apply (serve_consistent token req rest).
  - apply Hf.
  - by apply (serve_row_or_gone req rest).
Qed.

(** C3, as the spec words it: after its expiration time a token fails
    validation with [ErrTokenExpired].  A token issued at time 0 with
    expiration time 100 is dropped from the store by the grant request made
    at time 200 for the same client and scope; validated at time 201 it
    fails with [ErrNoToken]. *)
Lemma validate_after_reap :
  let '(r1, s1) := token_handler 0 0 (InsertOk "T" 100) (Sample.grant "s3cret") Sample.boot in
  let '(r2, s2) := token_handler 200 200 (InsertOk "U" 300) (Sample.grant "s3cret") s1 in
  r1 = JsonToken 200 "T" 7200 "read" /\
  (expiration_time <$> select_by_token "T" (token_table s1)) = Some 100 /\
  r2 = JsonToken 200 "U" 7200 "read" /\
  fst (CheckToken 201 201 "T" s2) = Done (inr ErrNoToken) /\
  fst (CheckToken 201 201 "T" s2) <> Done (inr ErrTokenExpired).
Proof. vm_compute. repeat split; try reflexivity. discriminate. Qed.

(** C3, amended. A token granted by the handler is the token of a row of
    the store for the client and scope of the request.  After any further
    requests, none of which is given that token value again by the store:
    a validation that ends no later than the expiration time of the row
    (the requests having been made before it) succeeds with that client and
    scope; a validation that starts after the expiration time fails, with
    [ErrTokenExpired] when the store still holds the row and with
    [ErrNoToken] when the row has been deleted. *)
Theorem issue_validate_roundtrip (now1 now2 : Time) (ins : Inserted) (f : Form)
    (s s' : State) (st ex : Z) (tok sc : string) :
  consistent s -> fresh ins s ->
  token_handler now1 now2 ins f s = (JsonToken st tok ex sc, s') ->
  exists r,
    select_by_token tok (token_table s') = Some r /\
    client_id r = ClientId f /\ access_scope r = Scope f /\ sc = Scope f /\
    forall (reqs : list Request) (n1 n2 : Time),
      fresh_all tok reqs s' -> n1 <= n2 ->
      let s'' := serve_all reqs s' in
      (Forall (not_after n1) reqs -> n2 <= expiration_time r ->
       fst (CheckToken n1 n2 tok s'') = Done (inl (ClientId f, Scope f))) /\
      (expiration_time r < n1 ->
       (select_by_token tok (token_table s'') = Some r /\
        fst (CheckToken n1 n2 tok s'') = Done (inr ErrTokenExpired)) \/
       (select_by_token tok (token_table s'') = None /\
        fst (CheckToken n1 n2 tok s'') = Done (inr ErrNoToken))).
Proof.
  intros Hc Hf Hh.
  apply token_handler_granted in Hh as (Hadd & Hne & -> & _ & _ & _).
  pose proof (AddToken_consistent now1 now2 ins (ClientId f) (Scope f) s Hc Hf) as Hc'.
  destruct (AddToken_row now1 now2 ins (ClientId f) (Scope f) s tok Hc Hf) as (r & Hsel & Hid & Hsc);
    [by rewrite Hadd | done |].
  rewrite Hadd in Hc', Hsel. simpl in *.
  exists r. do 4 (split; [done|]).
  intros reqs n1 n2 Hfresh Hle. split.
  - intros Hna Hlive.
    destruct (serve_all_keeps_row reqs s' tok r Hc' Hfresh Hsel) as [Hc'' Hsel''].
    { eapply Forall_impl; [exact Hna|]. intros [a b ? ?|a b ?]; simpl; lia. }
    rewrite (validate_live n1 n2 tok r _ Hc'' Hsel'' Hlive). by rewrite Hid, Hsc.
  - intros Hdead.
    assert (Hrg : row_or_gone tok r s').
    { split; [by left|]. intros ti Hti. by apply (cons_mirror s' Hc' tok ti r). }
    destruct (serve_all_row_or_gone reqs s' tok r Hc' Hfresh Hrg) as [Hc'' Hrg''].
    destruct (validate_gone n1 n2 tok r _ (cons_wf _ Hc'') Hrg'' Hdead Hle) as [He Hn].
    destruct Hrg'' as [[Hrow|Hrow] _]; [left | right]; split; auto.
Qed.

(** A state whose caches are empty agrees with an empty store. *)
Lemma boot_consistent : consistent Sample.boot.
Proof.
  split; simpl.
  - intros id u Hu. apply lookup_singleton_Some in Hu as [_ <-]. reflexivity.
  - constructor.
  - intros token ti r Hti. by rewrite lookup_empty in Hti.
  - intros id u i sc tk Hu Hsc Htk Hne.
    apply lookup_singleton_Some in Hu as [_ <-]. simpl in *.
    destruct i as [|i]; simpl in *; simplify_eq.
Qed.

Lemma issue_validate_roundtrip_witness :
  fst (CheckToken 50 60 "T"
        (snd (token_handler 0 0 (InsertOk "T" 100) (Sample.grant "s3cret") Sample.boot)))
  = Done (inl ("c1", "read")).
Proof.
  destruct (issue_validate_roundtrip 0 0 (InsertOk "T" 100) (Sample.grant "s3cret")
              Sample.boot
              (snd (token_handler 0 0 (InsertOk "T" 100) (Sample.grant "s3cret") Sample.boot))
              200 7200 "T" "read" boot_consistent)
    as (r & Hsel & _ & _ & _ & Hall).
  - simpl. split; [apply not_elem_of_nil | apply lookup_empty].
  - vm_compute. reflexivity.
  - vm_compute in Hsel. injection Hsel as <-.
    destruct (Hall [] 50 60) as [Hlive _]; [exact I | lia |].
    apply Hlive; [constructor | simpl; lia].
Defined.

End AuthFacts.

(** ** Concurrent calls *)
Section ConcFacts.
Import Clock Limiter Conc.
Local Open Scope Z_scope.
Local Open Scope Q_scope.

Lemma count_insert (p : Thread -> bool) ts i t t' :
  ts !! i = Some t ->
  (count p (<[i := t']> ts) + (if p t then 1 else 0)
   = count p ts + (if p t' then 1 else 0))%nat.
Proof.
  unfold count. revert i. induction ts as [|t0 ts IH]; intros [|i] H; simpl in *;
    simplify_eq.
  - destruct (p t), (p t'); simpl; lia.
  - specialize (IH i H). destruct (p t0); simpl; lia.
Qed.

Lemma count_zero (p : Thread -> bool) ts :
  Forall (fun t => p t = false) ts -> count p ts = 0%nat.
Proof.
  unfold count. induction 1 as [|t ts Ht _ IH]; simpl; [done|]. by rewrite Ht.
Qed.

Lemma count_zero_inv (p : Thread -> bool) ts j t :
  count p ts = 0%nat -> ts !! j = Some t -> p t = false.
Proof.
  unfold count. revert j. induction ts as [|t0 ts IH]; intros [|j] H Hj; simpl in *;
    simplify_eq.
  - destruct (p t); [discriminate | done].
  - destruct (p t0); [discriminate|]. by apply (IH j).
Qed.

(** When one goroutine holds [globalMux], no other does. *)
Lemma holder_alone ts i t j t' :
  count is_holder ts = 1%nat -> ts !! i = Some t -> is_holder t = true ->
  j <> i -> ts !! j = Some t' -> is_holder t' = false.
Proof.
  intros Hc Hi Ht Hne Hj.
  pose proof (count_insert is_holder ts i t (mkThread (key t) AtLoad) Hi) as H.
  rewrite Ht, Hc in H. simpl in H.
  apply (count_zero_inv is_holder (<[i := mkThread (key t) AtLoad]> ts) j); [lia|].
  by rewrite list_lookup_insert_ne.
Qed.

Lemma insert_last {A} (l : list A) (x y : A) :
  <[length l := y]> (l ++ [x]) = l ++ [y].
Proof. induction l as [|a l IH]; simpl; [done|]. by rewrite IH. Qed.

Lemma lookup_last {A} (l : list A) (x : A) : (l ++ [x]) !! length l = Some x.
Proof. induction l as [|a l IH]; simpl; done. Qed.

Lemma Seconds_plus (a b : Z) : Seconds a + Seconds b == Seconds (a + b).
Proof. unfold Seconds, Qeq, Qplus. simpl. lia. Qed.

Lemma Seconds_le (a b : Z) : (a <= b)%Z -> Seconds a <= Seconds b.
Proof. intros H. unfold Seconds, Qle. simpl. lia. Qed.

Lemma Sub_le (t u : Time) : (u <= t)%Z -> (Sub t u <= t - u)%Z.
Proof. intros H. unfold Sub, minDuration, maxDuration. repeat case_match; lia. Qed.

Lemma Sub_pos_inv (t u : Time) : (0 < Sub t u)%Z -> (u < t)%Z.
Proof. unfold Sub, minDuration, maxDuration. repeat case_match; lia. Qed.

Lemma Seconds_pos_inv (d : Duration) : 0 < Seconds d -> (0 < d)%Z.
Proof. unfold Seconds, Qlt. simpl. lia. Qed.

(** [refill] keeps the account of a bucket. *)
Lemma account_refill lo hi cap0 rate0 g now tb :
  0 <= cap0 -> 0 <= rate0 -> (lo <= now <= hi)%Z ->
  account lo hi cap0 rate0 g tb -> account lo hi cap0 rate0 g (refill now tb).
Proof.
  intros Hcap Hrate Hnow (Htok & Hc & Hr & Hlast & Hacc). unfold refill.
  destruct (Qlt_le_dec 0 _) as [Hadd|_]; [|done].
  assert (Hel : 0 < Seconds (Sub now (lastRefillTime tb))).
  { destruct (Qlt_le_dec 0 (Seconds (Sub now (lastRefillTime tb)))) as [|Hle]; [done|].
    exfalso. rewrite Hr in Hadd.
    assert (Seconds (Sub now (lastRefillTime tb)) * rate0 <= 0 * rate0)
      by (by apply Qmult_le_compat_r).
    lra. }
  apply Seconds_pos_inv in Hel as Hd. apply Sub_pos_inv in Hd as Hlt.
  assert (Hbound : Seconds (Sub now (lastRefillTime tb)) * fillRate tb
                   <= rate0 * Seconds (now - lastRefillTime tb)).
  { assert (Hxy : Seconds (Sub now (lastRefillTime tb))
                   <= Seconds (now - lastRefillTime tb))
      by (apply Seconds_le, Sub_le; lia).
    rewrite Hr. nra. }
  assert (Hsum : Seconds (lastRefillTime tb - lo) + Seconds (now - lastRefillTime tb)
                 == Seconds (now - lo)).
  { rewrite Seconds_plus. by replace (lastRefillTime tb - lo + (now - lastRefillTime tb))%Z
      with (now - lo)%Z by lia. }
  assert (Hdist : rate0 * Seconds (now - lo)
                  == rate0 * Seconds (lastRefillTime tb - lo)
                     + rate0 * Seconds (now - lastRefillTime tb)).
  { rewrite <- Hsum. ring. }
  unfold account. simpl. rewrite Hdist.
  destruct (Qlt_le_dec (capacity tb) _) as [Hover|Hunder]; simpl.
  - rewrite Hc in *. repeat split; try done; try lia. lra.
  - repeat split; try done; try lia; lra.
Qed.

Lemma account_take lo hi cap0 rate0 g tb :
  1 <= tokens tb ->
  account lo hi cap0 rate0 g tb ->
  account lo hi cap0 rate0 (S g)
    {| tokens := tokens tb - 1; capacity := capacity tb;
       fillRate := fillRate tb; lastRefillTime := lastRefillTime tb |}.
Proof.
  intros Hone (Htok & Hc & Hr & Hlast & Hacc). unfold account. simpl.
  repeat split; try done; try lia; [lra|].
  assert (Hs : inject_Z (Z.of_nat (S g)) == inject_Z (Z.of_nat g) + 1).
  { rewrite Nat2Z.inj_succ. unfold Z.succ. by rewrite inject_Z_plus. }
  rewrite Hs. lra.
Qed.

Lemma is_holder_pc t :
  is_holder t = match pc t with AtReload | AtStore | AtUnlock _ => true | _ => false end.
Proof. reflexivity. Qed.

Lemma is_granted_pc t :
  is_granted t = match pc t with AtBucketUnlock _ true | Returned true => true | _ => false end.
Proof. reflexivity. Qed.

Ltac counts Hch Hcg Hpc :=
  rewrite !is_holder_pc in Hch; rewrite !is_granted_pc in Hcg;
  rewrite Hpc in Hch, Hcg; simpl in Hch, Hcg.

Ltac same_granted Hcg Hacc :=
  unfold granted in Hacc; simpl;
  match type of Hcg with
  | (?x + _ = ?y + _)%nat => replace x with y by lia
  end.

Ltac more_granted Hcg Hacc :=
  unfold granted in Hacc; simpl;
  match type of Hcg with
  | (?x + _ = ?y + _)%nat => replace x with (S y) by lia
  end.

Ltac racing_fields Hkeys Hhold :=
  split; [apply Hkeys|]; split; [done|]; split; [done|];
  split; [simpl; first [ rewrite <- Hhold; lia
                       | lia
                       | revert Hhold; destruct (globalMux _); intros; lia ]|].

(** Each operation of a goroutine keeps the invariant of the race. *)
Lemma insert_fresh_ne (m0 : gmap string nat) k a :
  m0 !! k = None -> <[k := a]> m0 <> m0.
Proof.
  intros Hnone Heq. apply (f_equal (fun m => m !! k)) in Heq. simpl in Heq.
  rewrite lookup_insert_eq in Heq. congruence.
Qed.

Lemma step_racing lo hi k h0 m0 cap0 rate0 i now c c' :
  0 <= cap0 -> 0 <= rate0 -> m0 !! k = None -> (lo <= now <= hi)%Z ->
  racing lo hi k h0 m0 cap0 rate0 c -> step i now c = Some c' ->
  racing lo hi k h0 m0 cap0 rate0 c'.
Proof.
  intros Hcap Hrate Hm0 Hnow (Hkey & Hc & Hr & Hhold & Hphase) Hstep.
  unfold step in Hstep.
  destruct (threads c !! i) as [t|] eqn:Hi; [|done].
  assert (Hk : key t = k) by (by apply (Forall_lookup_1 _ _ _ _ Hkey Hi)).
  assert (Hkeys : forall p, Forall (fun t => key t = k) (<[i := mkThread (key t) p]> (threads c)))
    by (intros p; by apply Forall_insert).
  pose proof (count_insert is_holder (threads c) i t) as Hch.
  pose proof (count_insert is_granted (threads c) i t) as Hcg.
  assert (Hphase_t : (index c = m0 /\ heap c = h0 /\ early t) \/
                     (index c = <[k := length h0]> m0 /\ late (length h0) t)).
  { destruct Hphase as [(? & ? & He)|(cell & ? & ? & Hl & _)].
    - left. repeat split; try done. by apply (Forall_lookup_1 _ _ _ _ He Hi).
    - right. split; [done|]. by apply (Forall_lookup_1 _ _ _ _ Hl Hi). }
  unfold early, late in Hphase_t.
  unfold racing, granted.
  destruct (pc t) as [| | | |a|a|a|a|a ok|ok] eqn:Hpc.
  - (* AtLoad *)
    specialize (Hch (mkThread (key t) AtLock) Hi) as Hch1.
    destruct (index c !! key t) as [a|] eqn:Hidx; simplify_eq; simpl.
    + specialize (Hch (mkThread (key t) (AtBucketLock a)) Hi).
      specialize (Hcg (mkThread (key t) (AtBucketLock a)) Hi).
      counts Hch Hcg Hpc.
      racing_fields Hkeys Hhold.
      destruct Hphase as [(Hm & ? & ?)|(cell & Hm & Hh & Hl & Hacc)].
      * rewrite Hm in Hidx. congruence.
      * right. exists cell. do 2 (split; [done|]). split.
        -- apply Forall_insert; [done|]. unfold late. simpl.
           rewrite Hm, lookup_insert_eq in Hidx. congruence.
        -- same_granted Hcg Hacc. done.
    + specialize (Hcg (mkThread (key t) AtLock) Hi).
      counts Hch1 Hcg Hpc.
      racing_fields Hkeys Hhold.
      destruct Hphase as [(Hm & ? & ?)|(cell & Hm & Hh & Hl & Hacc)].
      * left. repeat split; try done. by apply Forall_insert.
      * right. exists cell. do 2 (split; [done|]). split.
        -- by apply Forall_insert.
        -- same_granted Hcg Hacc. done.
  - (* AtLock *)
    destruct (globalMux c) eqn:Hmux; simplify_eq; simpl.
    specialize (Hch (mkThread (key t) AtReload) Hi).
    specialize (Hcg (mkThread (key t) AtReload) Hi).
    counts Hch Hcg Hpc.
    racing_fields Hkeys Hhold.
    destruct Hphase as [(Hm & ? & ?)|(cell & Hm & Hh & Hl & Hacc)].
    + left. repeat split; try done. by apply Forall_insert.
    + right. exists cell. do 2 (split; [done|]). split.
      * by apply Forall_insert.
      * same_granted Hcg Hacc. done.
  - (* AtReload *)
    destruct (index c !! key t) as [a|] eqn:Hidx; simplify_eq; simpl.
    + specialize (Hch (mkThread (key t) (AtUnlock a)) Hi).
      specialize (Hcg (mkThread (key t) (AtUnlock a)) Hi).
      counts Hch Hcg Hpc.
      racing_fields Hkeys Hhold.
      destruct Hphase as [(Hm & ? & ?)|(cell & Hm & Hh & Hl & Hacc)].
      * rewrite Hm in Hidx. congruence.
      * right. exists cell. do 2 (split; [done|]). split.
        -- apply Forall_insert; [done|]. unfold late. simpl.
           rewrite Hm, lookup_insert_eq in Hidx. congruence.
        -- same_granted Hcg Hacc. done.
    + specialize (Hch (mkThread (key t) AtStore) Hi).
      specialize (Hcg (mkThread (key t) AtStore) Hi).
      counts Hch Hcg Hpc.
      racing_fields Hkeys Hhold.
      destruct Hphase as [(Hm & ? & ?)|(cell & Hm & Hh & Hl & Hacc)].
      * left. repeat split; try done. by apply Forall_insert.
      * rewrite Hm, lookup_insert_eq in Hidx. congruence.
  - (* AtStore *)
    simplify_eq. simpl.
    destruct Hphase_t as [(Hm & Hh & _)|[_ []]].
    destruct Hphase as [(_ & _ & Hearly)|(cell & Hm' & _)];
      [|exfalso; eapply insert_fresh_ne; [exact Hm0|];
        transitivity (index c); [symmetry; exact Hm' | exact Hm]].
    assert (Hone : count is_holder (threads c) = 1%nat).
    { specialize (Hch (mkThread (key t) AtLoad) Hi).
      rewrite !is_holder_pc, Hpc in Hch. simpl in Hch.
      revert Hhold. destruct (globalMux c); intros; lia. }
    specialize (Hch (mkThread (key t) (AtUnlock (length (heap c)))) Hi).
    rewrite !is_holder_pc, Hpc in Hch. simpl in Hch.
    racing_fields Hkeys Hhold.
    right. eexists. rewrite Hm, Hh. split; [done|]. split; [done|].
    assert (Hothers : forall j t', j <> i -> threads c !! j = Some t' ->
                        late (length h0) t' /\ is_granted t' = false).
    { intros j t' Hne Hj.
      pose proof (holder_alone (threads c) i t j t' Hone Hi) as Hnh.
      rewrite is_holder_pc, Hpc in Hnh. specialize (Hnh eq_refl Hne Hj).
      pose proof (Forall_lookup_1 _ _ _ _ Hearly Hj) as He.
      unfold early in He. unfold late, is_holder, is_granted in *.
      by destruct (pc t'). }
    split.
    + apply Forall_lookup_2. intros j t' Hj.
      destruct (decide (j = i)) as [->|Hne].
      * rewrite list_lookup_insert_eq in Hj by (by eapply lookup_lt_Some).
        simplify_eq. unfold late. simpl. done.
      * rewrite list_lookup_insert_ne in Hj by done. by apply (Hothers j).
    + rewrite count_zero.
      * unfold account. simpl. repeat split; try done; try lia.
        assert (0 <= rate c * Seconds (now - lo)).
        { apply Qmult_le_0_compat; [done|]. apply Seconds_nonneg. lia. }
        change (inject_Z (Z.of_nat 0)) with 0. lra.
      * apply Forall_lookup_2. intros j t' Hj.
        destruct (decide (j = i)) as [->|Hne].
        -- rewrite list_lookup_insert_eq in Hj by (by eapply lookup_lt_Some).
           by simplify_eq.
        -- rewrite list_lookup_insert_ne in Hj by done. by apply (Hothers j).
  - (* AtUnlock *)
    simplify_eq. simpl.
    destruct Hphase_t as [(_ & _ & [])|(Hm & ->)].
    specialize (Hch (mkThread (key t) (AtBucketLock (length h0))) Hi).
    specialize (Hcg (mkThread (key t) (AtBucketLock (length h0))) Hi).
    counts Hch Hcg Hpc.
    racing_fields Hkeys Hhold.
    destruct Hphase as [(Hm' & _)|(cell & _ & Hh & Hl & Hacc)].
    { exfalso; eapply insert_fresh_ne; [exact Hm0|];
        transitivity (index c); [symmetry; exact Hm | exact Hm']. }
    right. exists cell. do 2 (split; [done|]). split.
    + by apply Forall_insert.
    + same_granted Hcg Hacc. done.
  - (* AtBucketLock *)
    destruct Hphase_t as [(_ & _ & [])|(Hm & ->)].
    destruct Hphase as [(Hm' & _)|(cell & _ & Hh & Hl & Hacc)].
    { exfalso; eapply insert_fresh_ne; [exact Hm0|];
        transitivity (index c); [symmetry; exact Hm | exact Hm']. }
    rewrite Hh, lookup_last in Hstep.
    destruct (locked cell); simplify_eq. simpl.
    specialize (Hch (mkThread (key t) (AtRefill (length h0))) Hi).
    specialize (Hcg (mkThread (key t) (AtRefill (length h0))) Hi).
    counts Hch Hcg Hpc.
    racing_fields Hkeys Hhold.
    right. eexists. rewrite insert_last. do 2 (split; [done|]). split.
    + by apply Forall_insert.
    + same_granted Hcg Hacc. done.
  - (* AtRefill *)
    destruct Hphase_t as [(_ & _ & [])|(Hm & ->)].
    destruct Hphase as [(Hm' & _)|(cell & _ & Hh & Hl & Hacc)].
    { exfalso; eapply insert_fresh_ne; [exact Hm0|];
        transitivity (index c); [symmetry; exact Hm | exact Hm']. }
    rewrite Hh, lookup_last in Hstep. simplify_eq. simpl.
    specialize (Hch (mkThread (key t) (AtTake (length h0))) Hi).
    specialize (Hcg (mkThread (key t) (AtTake (length h0))) Hi).
    counts Hch Hcg Hpc.
    racing_fields Hkeys Hhold.
    right. eexists. rewrite insert_last. do 2 (split; [done|]). split.
    + by apply Forall_insert.
    + same_granted Hcg Hacc.
      by apply account_refill.
  - (* AtTake *)
    destruct Hphase_t as [(_ & _ & [])|(Hm & ->)].
    destruct Hphase as [(Hm' & _)|(cell & _ & Hh & Hl & Hacc)].
    { exfalso; eapply insert_fresh_ne; [exact Hm0|];
        transitivity (index c); [symmetry; exact Hm | exact Hm']. }
    rewrite Hh, lookup_last in Hstep.
    destruct (Qlt_le_dec (tokens (bucket cell)) 1) as [Hlt|Hge]; simplify_eq; simpl.
    + specialize (Hch (mkThread (key t) (AtBucketUnlock (length h0) false)) Hi).
      specialize (Hcg (mkThread (key t) (AtBucketUnlock (length h0) false)) Hi).
      counts Hch Hcg Hpc.
      racing_fields Hkeys Hhold.
      right. exists cell. do 2 (split; [done|]). split.
      * by apply Forall_insert.
      * same_granted Hcg Hacc. done.
    + specialize (Hch (mkThread (key t) (AtBucketUnlock (length h0) true)) Hi).
      specialize (Hcg (mkThread (key t) (AtBucketUnlock (length h0) true)) Hi).
      counts Hch Hcg Hpc.
      racing_fields Hkeys Hhold.
      right. eexists. rewrite insert_last. do 2 (split; [done|]). split.
      * by apply Forall_insert.
      * more_granted Hcg Hacc.
        by apply account_take.
  - (* AtBucketUnlock *)
    destruct Hphase_t as [(_ & _ & [])|(Hm & ->)].
    destruct Hphase as [(Hm' & _)|(cell & _ & Hh & Hl & Hacc)].
    { exfalso; eapply insert_fresh_ne; [exact Hm0|];
        transitivity (index c); [symmetry; exact Hm | exact Hm']. }
    rewrite Hh, lookup_last in Hstep. simplify_eq. simpl.
    specialize (Hch (mkThread (key t) (Returned ok)) Hi).
    specialize (Hcg (mkThread (key t) (Returned ok)) Hi).
    counts Hch Hcg Hpc.
    racing_fields Hkeys Hhold.
    right. eexists. rewrite insert_last. do 2 (split; [done|]). split.
    + by apply Forall_insert.
    + destruct ok; same_granted Hcg Hacc; done.
  - (* Returned *)
    done.
Qed.

Lemma step_length i now c c' :
  step i now c = Some c' -> length (threads c') = length (threads c).
Proof.
  unfold step. intros H.
  repeat (case_match; simplify_eq; simpl; try apply length_insert).
Qed.

Lemma spawn_racing lo hi n k h0 m0 cap0 rate0 :
  racing lo hi k h0 m0 cap0 rate0 (spawn n k h0 m0 cap0 rate0).
Proof.
  unfold racing, spawn. simpl. repeat split.
  - apply Forall_replicate. done.
  - apply count_zero, Forall_replicate. done.
  - left. repeat split. apply Forall_replicate. done.
Qed.

Lemma exec_racing lo hi k h0 m0 cap0 rate0 sched c :
  0 <= cap0 -> 0 <= rate0 -> m0 !! k = None -> within lo hi sched ->
  racing lo hi k h0 m0 cap0 rate0 c ->
  racing lo hi k h0 m0 cap0 rate0 (exec sched c) /\
  length (threads (exec sched c)) = length (threads c).
Proof.
  intros Hcap Hrate Hm0 Hw. revert c.
  induction Hw as [|[i now] sched Hnow _ IH]; intros c Hinv; simpl; [done|].
  destruct (step i now c) as [c1|] eqn:Hstep.
  - destruct (IH c1) as [Hinv' Hlen].
    + by apply (step_racing lo hi k h0 m0 cap0 rate0 i now c).
    + split; [done|]. rewrite Hlen. by apply (step_length i now).
  - by apply IH.
Qed.

(** C9, as the spec words it: at most [capacity] of the racing calls are
    allowed.  With capacity 1 and a fill rate of 1000 tokens a second, two
    goroutines race for the bucket of a new key; the second reaches
    [refill] one millisecond after the first was served, and both calls
    are allowed, from the one bucket there is. *)
Lemma race_admits_more_than_capacity :
  let c := exec (Sample.race 1000000) (spawn 2 "A" [] ∅ 1 1000) in
  (pc <$> threads c) = [Returned true; Returned true] /\
  length (heap c) = 1%nat /\
  granted c = 2%nat /\
  ~ inject_Z (Z.of_nat (granted c)) <= cap c.
Proof.
  vm_compute. split; [reflexivity|]. split; [reflexivity|]. split; [reflexivity|].
  intros H. apply H. reflexivity.
Qed.

(** C9, amended. However [n] calls of [IsAllowed] for a key without bucket
    are interleaved, at most one bucket is added to the heap, at the
    address the map then holds for the key, and every call that has
    returned went through it; when the clock does not advance during the
    calls, or the fill rate is zero, so that no refill adds a token, the
    number of calls allowed is at most the capacity. *)
Theorem racing_calls (n : nat) (k : string) (h0 : list Cell) (m0 : gmap string nat)
    (cap0 rate0 : Q) (lo hi : Time) (sched : list (nat * Time)) :
  0 <= cap0 -> 0 <= rate0 -> m0 !! k = None -> (lo <= hi)%Z ->
  within lo hi sched ->
  let c := exec sched (spawn n k h0 m0 cap0 rate0) in
  length (threads c) = n /\
  ((heap c = h0 /\ index c = m0 /\ granted c = 0%nat) \/
   (exists cell, heap c = h0 ++ [cell] /\ index c = <[k := length h0]> m0)) /\
  (forall i t ok, threads c !! i = Some t -> pc t = Returned ok ->
     exists cell, heap c = h0 ++ [cell] /\ index c !! k = Some (length h0)) /\
  (hi = lo \/ rate0 == 0 -> inject_Z (Z.of_nat (granted c)) <= cap0).
Proof.
  intros Hcap Hrate Hm0 Hlohi Hw c.
  destruct (exec_racing lo hi k h0 m0 cap0 rate0 sched (spawn n k h0 m0 cap0 rate0)
              Hcap Hrate Hm0 Hw (spawn_racing _ _ _ _ _ _ _ _)) as [Hinv Hlen].
  fold c in Hinv, Hlen.
  destruct Hinv as (_ & _ & _ & _ & Hphase).
  assert (Hbound : inject_Z (Z.of_nat (granted c)) <= cap0 + rate0 * Seconds (hi - lo)).
  { destruct Hphase as [(_ & _ & He)|(cell & _ & _ & _ & Hacc)].
    - unfold granted. rewrite count_zero.
      + assert (0 <= rate0 * Seconds (hi - lo)).
        { apply Qmult_le_0_compat; [done|]. apply Seconds_nonneg. lia. }
        change (inject_Z (Z.of_nat 0)) with 0. lra.
      + eapply Forall_impl; [exact He|]. intros t. unfold early, is_granted.
        by destruct (pc t).
    - destruct Hacc as (Htok & _ & _ & Hlast & Hacc).
      assert (Seconds (lastRefillTime (bucket cell) - lo) <= Seconds (hi - lo))
        by (apply Seconds_le; lia).
      nra. }
  split; [by rewrite Hlen; simpl; rewrite length_replicate|].
  split; [|split].
  - destruct Hphase as [(Hm & Hh & He)|(cell & Hm & Hh & _)].
    + left. repeat split; try done. unfold granted. apply count_zero.
      eapply Forall_impl; [exact He|]. intros t. unfold early, is_granted.
      by destruct (pc t).
    + right. by exists cell.
  - intros i t ok Hi Hpc.
    destruct Hphase as [(_ & _ & He)|(cell & Hm & Hh & _)].
    + pose proof (Forall_lookup_1 _ _ _ _ He Hi) as Het. unfold early in Het.
      by rewrite Hpc in Het.
    + exists cell. split; [done|]. rewrite Hm. apply lookup_insert_eq.
  - intros [->|Hzero].
    + replace (lo - lo)%Z with 0%Z in Hbound by lia.
      assert (Seconds 0 == 0) by reflexivity. nra.
    + rewrite Hzero in Hbound. lra.
Qed.

Lemma racing_calls_witness :
  inject_Z (Z.of_nat (granted (exec (Sample.race 0) (spawn 2 "A" [] ∅ 1 1000)))) <= 1.
Proof.
  destruct (racing_calls 2 "A" [] ∅ 1 1000 0 0 (Sample.race 0))
    as (_ & _ & _ & H).
  - unfold Qle. simpl. lia.
  - unfold Qle. simpl. lia.
  - apply lookup_empty.
  - lia.
  - unfold within, Sample.race. repeat (constructor; [simpl; lia|]). constructor.
  - apply H. by left.
Defined.

End ConcFacts.

(** ** More on the rate limiter *)
Section LimiterMore.
Import Clock Limiter Conc.
Local Open Scope Z_scope.
Local Open Scope Q_scope.

Lemma Sub_diag (t : Time) : Sub t t = 0%Z.
Proof. unfold Sub. rewrite Z.sub_diag. reflexivity. Qed.

(** At the clock reading of its last refill a bucket is left as it is. *)
Lemma refill_same_instant now tb :
  lastRefillTime tb = now -> refill now tb = tb.
Proof.
  intros <-. unfold refill. rewrite Sub_diag.
  destruct (Qlt_le_dec 0 _) as [Hadd|_]; [|done].
  exfalso. unfold Seconds, Qlt, Qmult in Hadd. simpl in Hadd. lia.
Qed.

(** X1. Refilling twice at the same clock reading is refilling once. *)
Theorem refill_idempotent (now : Time) (tb : TokenBucket) :
  refill now (refill now tb) = refill now tb.
Proof.
  destruct (Qlt_le_dec 0 (Seconds (Sub now (lastRefillTime tb)) * fillRate tb))
    as [Hadd|Hadd] eqn:E.
  - apply refill_same_instant. unfold refill. by rewrite E.
  - assert (H : refill now tb = tb) by (unfold refill; by rewrite E).
    by rewrite !H.
Qed.

Lemma Sub_mono (t1 t2 u : Time) : (t1 <= t2)%Z -> (Sub t1 u <= Sub t2 u)%Z.
Proof. intros H. unfold Sub, minDuration, maxDuration. repeat case_match; lia. Qed.

(** X2. With a non-negative fill rate, a bucket that holds no more than its
    capacity never loses tokens in a refill, holds at least as many tokens
    the later it is refilled, and never more than its capacity. *)
Theorem refill_monotone (now1 now2 : Time) (tb : TokenBucket) :
  tokens tb <= capacity tb -> 0 <= fillRate tb ->
  (lastRefillTime tb <= now1)%Z -> (now1 <= now2)%Z ->
  tokens tb <= tokens (refill now1 tb) /\
  tokens (refill now1 tb) <= tokens (refill now2 tb) /\
  tokens (refill now2 tb) <= capacity tb.
Proof.
  intros Hcap Hrate H1 H2.
  set (a1 := Seconds (Sub now1 (lastRefillTime tb)) * fillRate tb).
  set (a2 := Seconds (Sub now2 (lastRefillTime tb)) * fillRate tb).
  assert (Ha : a1 <= a2).
  { unfold a1, a2. apply Qmult_le_compat_r; [|done].
    apply Seconds_le, Sub_mono. done. }
  destruct (refill_tokens now1 tb) as [Hp1 Hn1].
  destruct (refill_tokens now2 tb) as [Hp2 Hn2].
  fold a1 in Hp1, Hn1. fold a2 in Hp2, Hn2.
  destruct (Qlt_le_dec 0 a1) as [Hpos1|Hneg1];
    destruct (Qlt_le_dec 0 a2) as [Hpos2|Hneg2].
  - rewrite (Hp1 Hpos1), (Hp2 Hpos2).
    split; [apply Q.min_glb; lra|]. split; [|apply Q.le_min_l].
    apply Q.min_le_compat_l. lra.
  - lra.
  - rewrite (Hn1 Hneg1), (Hp2 Hpos2).
    split; [lra|]. split; [apply Q.min_glb; lra | apply Q.le_min_l].
  - rewrite (Hn1 Hneg1), (Hn2 Hneg2). lra.
Qed.

Lemma refill_monotone_witness :
  tokens (refill 1 (mkBucket 0 2 1 0)) <= tokens (refill 5 (mkBucket 0 2 1 0)).
Proof.
  apply (refill_monotone 1 5 (mkBucket 0 2 1 0)); simpl;
    try (unfold Qle; simpl; lia); lia.
Defined.

Lemma decisions_cons c rest rl :
  decisions (c :: rest) rl =
  fst (IsAllowed (c_create c) (c_now c) (c_key c) rl)
  :: decisions rest (snd (IsAllowed (c_create c) (c_now c) (c_key c) rl)).
Proof. simpl. by destruct (IsAllowed _ _ _ _). Qed.

Lemma getLimiter_again now now' k rl :
  getLimiter now' k (snd (getLimiter now k rl))
  = (fst (getLimiter now k rl), snd (getLimiter now k rl)).
Proof.
  unfold getLimiter. destruct (limiters rl !! k) as [tb|] eqn:E; simpl.
  - by rewrite E.
  - by rewrite lookup_insert_eq.
Qed.

(** After a call, [getLimiter] hands out the bucket the call left. *)
Lemma getLimiter_after tc tn now k rl :
  fst (getLimiter now k (snd (IsAllowed tc tn k rl)))
  = snd (Allow tn (fst (getLimiter tc k rl))).
Proof.
  rewrite IsAllowed_unfold. simpl. unfold getLimiter at 1. simpl.
  by rewrite lookup_insert_eq.
Qed.

Lemma inject_S (i : nat) : inject_Z (Z.of_nat (S i)) == inject_Z (Z.of_nat i) + 1.
Proof. rewrite Nat2Z.inj_succ. unfold Z.succ. by rewrite inject_Z_plus. Qed.

Lemma burst_from t k n rl i :
  lastRefillTime (fst (getLimiter t k rl)) = t -> (i < n)%nat ->
  decisions (replicate n (mkCall k t t)) rl !! i
  = Some (Qle_bool (inject_Z (Z.of_nat (S i))) (tokens (fst (getLimiter t k rl)))).
Proof.
  revert rl i. induction n as [|n IH]; intros rl i Hlast Hi; [lia|].
  change (replicate (S n) (mkCall k t t)) with (mkCall k t t :: replicate n (mkCall k t t)).
  rewrite decisions_cons. simpl c_create. simpl c_now. simpl c_key.
  set (tb := fst (getLimiter t k rl)) in *.
  assert (Hallow : Allow t tb =
    if Qlt_le_dec (tokens tb) 1 then (false, tb)
    else (true, {| tokens := tokens tb - 1; capacity := capacity tb;
                   fillRate := fillRate tb; lastRefillTime := lastRefillTime tb |})).
  { unfold Allow. by rewrite (refill_same_instant t tb Hlast). }
  destruct i as [|i]; simpl.
  - f_equal. rewrite IsAllowed_unfold. simpl. fold tb. rewrite Hallow.
    change (inject_Z (Z.of_nat 1)) with 1.
    destruct (Qlt_le_dec (tokens tb) 1) as [Hlt|Hge]; simpl; symmetry.
    + apply not_true_is_false. rewrite Qle_bool_iff. intros H. lra.
    + apply Qle_bool_iff. lra.
  - rewrite IH; [|by rewrite getLimiter_after; fold tb; rewrite Hallow;
                    destruct (Qlt_le_dec (tokens tb) 1) | lia].
    f_equal. rewrite getLimiter_after. fold tb. rewrite Hallow.
    pose proof (inject_S (S i)) as HS.
    assert (Hpos : 0 <= inject_Z (Z.of_nat (S i))).
    { change 0 with (inject_Z 0). rewrite <- Zle_Qle. lia. }
    destruct (Qlt_le_dec (tokens tb) 1) as [Hlt|Hge]; simpl.
    + assert (Qle_bool (inject_Z (Z.of_nat (S i))) (tokens tb) = false) as ->.
      { apply not_true_is_false. rewrite Qle_bool_iff. intros H.
        pose proof (inject_S i). assert (0 <= inject_Z (Z.of_nat i)).
        { change 0 with (inject_Z 0). rewrite <- Zle_Qle. lia. }
        lra. }
      symmetry. apply not_true_is_false. rewrite Qle_bool_iff. intros H. lra.
    + destruct (Qle_bool (inject_Z (Z.of_nat (S i))) (tokens tb - 1)) eqn:E; symmetry.
      * apply Qle_bool_iff in E. apply Qle_bool_iff. lra.
      * apply not_true_is_false. rewrite Qle_bool_iff. intros H.
        apply not_true_iff_false in E. apply E. apply Qle_bool_iff. lra.
Qed.

Lemma burst_fresh t k n rl i :
  limiters rl !! k = None -> (i < n)%nat ->
  decisions (replicate n (mkCall k t t)) rl !! i
  = Some (Qle_bool (inject_Z (Z.of_nat (S i))) (rl_capacity rl)).
Proof.
  intros Hnone Hi.
  assert (Hget : fst (getLimiter t k rl) =
    {| tokens := rl_capacity rl; capacity := rl_capacity rl;
       fillRate := rl_fillRate rl; lastRefillTime := t |}).
  { unfold getLimiter. by rewrite Hnone. }
  rewrite (burst_from t k n rl i); [by rewrite Hget | by rewrite Hget | done].
Qed.

(** X3. A burst: of [n] calls made for a key without bucket at one clock
    reading, call number [i] (counted from one) is allowed exactly when
    [i <= capacity]. *)
Theorem burst (t : Time) (k : string) (n i : nat) (rl : RateLimiter) :
  limiters rl !! k = None -> (i < n)%nat ->
  decisions (replicate n (mkCall k t t)) rl !! i
  = Some (Qle_bool (inject_Z (Z.of_nat (S i))) (rl_capacity rl)).
Proof. apply burst_fresh. Qed.

Lemma burst_witness :
  decisions (replicate 4 (mkCall "A" 7 7)) (NewRateLimiter (5 # 2) 1) !! 2%nat
  = Some false.
Proof.
  rewrite (burst 7 "A" 4 2 (NewRateLimiter (5 # 2) 1)).
  - reflexivity.
  - apply lookup_empty.
  - lia.
Defined.

Lemma IsAllowed_dom tc tn k rl :
  dom (limiters (snd (IsAllowed tc tn k rl))) = {[k]} ∪ dom (limiters rl).
Proof.
  rewrite IsAllowed_unfold. simpl. rewrite dom_insert_L.
  unfold getLimiter. destruct (limiters rl !! k) as [tb|] eqn:E; simpl.
  - done.
  - by rewrite dom_insert_L, (assoc_L (∪)), (idemp_L (∪)).
Qed.

(** X4. Buckets are never dropped: after a sequence of calls the limiter
    holds a bucket for exactly the keys it had one for and the keys of the
    calls. *)
Theorem run_dom (calls : list Call) (rl : RateLimiter) :
  dom (limiters (run calls rl)) = list_to_set (c_key <$> calls) ∪ dom (limiters rl).
Proof.
  revert rl. induction calls as [|c rest IH]; intros rl; simpl.
  - by rewrite (left_id_L ∅ (∪)).
  - rewrite IH, IsAllowed_dom, !(assoc_L (∪)).
    by rewrite (comm_L (∪) (list_to_set (c_key <$> rest)) {[c_key c]}).
Qed.

Lemma Allow_params now tb :
  capacity (snd (Allow now tb)) = capacity tb /\
  fillRate (snd (Allow now tb)) = fillRate tb.
Proof.
  unfold Allow. destruct (Qlt_le_dec _ 1); simpl;
    by rewrite refill_capacity, refill_fillRate.
Qed.

Lemma IsAllowed_params tc tn k k' rl tb :
  limiters rl !! k' = Some tb ->
  exists tb', limiters (snd (IsAllowed tc tn k rl)) !! k' = Some tb' /\
              capacity tb' = capacity tb /\ fillRate tb' = fillRate tb.
Proof.
  intros Hk'. destruct (decide (k = k')) as [<-|Hne].
  - rewrite IsAllowed_unfold. simpl. rewrite lookup_insert_eq.
    eexists. split; [done|].
    assert (fst (getLimiter tc k rl) = tb) as ->
      by (unfold getLimiter; by rewrite Hk').
    apply Allow_params.
  - exists tb. by rewrite IsAllowed_other.
Qed.

(** X5. The capacity and the fill rate of a bucket are those it was
    created with: no call changes them, even after the limiter itself was
    given other values. *)
Theorem bucket_params_fixed (calls : list Call) (rl : RateLimiter) (k : string)
    (tb : TokenBucket) :
  limiters rl !! k = Some tb ->
  exists tb', limiters (run calls rl) !! k = Some tb' /\
              capacity tb' = capacity tb /\ fillRate tb' = fillRate tb.
Proof.
  revert rl tb. induction calls as [|c rest IH]; intros rl tb Hk; simpl.
  - by exists tb.
  - destruct (IsAllowed_params (c_create c) (c_now c) (c_key c) k rl tb Hk)
      as (tb1 & Hk1 & Hc1 & Hf1).
    destruct (IH _ tb1 Hk1) as (tb' & Hk' & Hc' & Hf').
    exists tb'. split; [done|]. by rewrite Hc', Hf'.
Qed.

Lemma bucket_params_fixed_witness :
  exists tb', limiters (run [mkCall "A" 1 1; mkCall "B" 2 2]
                          (mkLimiter {["A"%string := mkBucket 0 5 3 0]} 2 1)) !! "A"%string
              = Some tb' /\ capacity tb' = 5 /\ fillRate tb' = 3.
Proof.
  apply (bucket_params_fixed [mkCall "A" 1 1; mkCall "B" 2 2]
           (mkLimiter {["A"%string := mkBucket 0 5 3 0]} 2 1) "A" (mkBucket 0 5 3 0)).
  simpl. apply lookup_singleton_eq.
Defined.

Lemma IsAllowed_tally lo hi cap0 rate0 k g tc tn k' rl :
  0 <= cap0 -> 0 <= rate0 -> (lo <= tc <= hi)%Z -> (lo <= tn <= hi)%Z ->
  tally lo hi cap0 rate0 k g rl ->
  tally lo hi cap0 rate0 k
    (g + (if bool_decide (k' = k) && fst (IsAllowed tc tn k' rl) then 1 else 0))
    (snd (IsAllowed tc tn k' rl)).
Proof.
  intros Hcap Hrate Htc Htn (Hc & Hr & Hb). unfold tally.
  rewrite IsAllowed_capacity, IsAllowed_fillRate. do 2 (split; [done|]).
  case_bool_decide as Hk; simpl.
  - subst k'. rewrite IsAllowed_unfold. simpl. rewrite lookup_insert_eq.
    set (tb := fst (getLimiter tc k rl)).
    assert (Htb : account lo hi cap0 rate0 g tb).
    { unfold tb, getLimiter. destruct (limiters rl !! k) as [tb0|]; simpl; [done|].
      subst g. unfold account. simpl. rewrite Hc, Hr.
      repeat split; try done; try lia.
      assert (0 <= rate0 * Seconds (tc - lo)).
      { apply Qmult_le_0_compat; [done|]. apply Seconds_nonneg. lia. }
      change (inject_Z (Z.of_nat 0)) with 0. lra. }
    apply (account_refill lo hi cap0 rate0 g tn tb Hcap Hrate Htn) in Htb.
    unfold Allow. destruct (Qlt_le_dec (tokens (refill tn tb)) 1) as [Hlt|Hge]; simpl.
    + by rewrite Nat.add_0_r.
    + replace (g + 1)%nat with (S g) by lia. by apply account_take.
  - rewrite Nat.add_0_r, IsAllowed_other by done. done.
Qed.

(** Clock readings that span the calls of a sequence. *)
Lemma calls_span (calls : list Call) :
  exists lo hi : Time, (lo <= hi)%Z /\
    Forall (fun c => (lo <= c_create c <= hi)%Z /\ (lo <= c_now c <= hi)%Z) calls.
Proof.
  induction calls as [|c rest (lo & hi & Hlohi & IH)].
  - exists 0%Z, 0%Z. split; [lia | constructor].
  - exists (Z.min lo (Z.min (c_create c) (c_now c))),
           (Z.max hi (Z.max (c_create c) (c_now c))).
    split; [lia|]. constructor; [lia|].
    eapply Forall_impl; [exact IH|]. simpl. intros c' ?. lia.
Qed.

(** X6. Without refill a key is allowed its capacity and no more: from a
    fresh limiter with non-negative capacity and fill rate, when the fill
    rate is zero, or all the clock readings are the same, at most
    [capacity] of the calls made for one key are allowed, however the
    calls for other keys are interleaved with them. *)
Theorem admitted_without_refill (cap0 rate0 : Q) (t : Time) (k : string)
    (calls : list Call) :
  0 <= cap0 -> 0 <= rate0 ->
  rate0 == 0 \/ Forall (fun c => c_create c = t /\ c_now c = t) calls ->
  inject_Z (Z.of_nat (admitted k calls (NewRateLimiter cap0 rate0))) <= cap0.
Proof.
  intros Hcap Hrate Hquiet.
  assert (Hspan : exists lo hi : Time, (lo <= hi)%Z /\
            Forall (fun c => (lo <= c_create c <= hi)%Z /\ (lo <= c_now c <= hi)%Z) calls /\
            rate0 * Seconds (hi - lo) == 0).
  { destruct Hquiet as [Hzero|Hsame].
    - destruct (calls_span calls) as (lo & hi & Hlohi & Hcalls).
      exists lo, hi. do 2 (split; [done|]). rewrite Hzero. lra.
    - exists t, t. split; [lia|]. split.
      + eapply Forall_impl; [exact Hsame|]. simpl. intros c [-> ->]. lia.
      + replace (t - t)%Z with 0%Z by lia.
        assert (Seconds 0 == 0) by reflexivity. nra. }
  destruct Hspan as (lo & hi & Hlohi & Hcalls & Hnone).
  assert (Hgen : forall rl g, tally lo hi cap0 rate0 k g rl ->
            inject_Z (Z.of_nat (g + admitted k calls rl)) <= cap0 + rate0 * Seconds (hi - lo)).
  { clear Hquiet Hnone.
    induction Hcalls as [|c rest [Hc1 Hc2] _ IH]; intros rl g Ht; simpl.
    - rewrite Nat.add_0_r. destruct Ht as (_ & _ & Hb).
      assert (Hspan : 0 <= rate0 * Seconds (hi - lo)).
      { apply Qmult_le_0_compat; [done|]. apply Seconds_nonneg. lia. }
      destruct (limiters rl !! k) as [tb|].
      + destruct Hb as (Htok & _ & _ & Hlast & Hacc).
        assert (Seconds (lastRefillTime tb - lo) <= Seconds (hi - lo))
          by (apply Seconds_le; lia).
        nra.
      + subst g. change (inject_Z (Z.of_nat 0)) with 0. lra.
    - pose proof (IsAllowed_tally lo hi cap0 rate0 k g (c_create c) (c_now c) (c_key c) rl
                    Hcap Hrate Hc1 Hc2 Ht) as Ht'.
      destruct (IsAllowed (c_create c) (c_now c) (c_key c) rl) as [ok rl1]. simpl in *.
      rewrite Nat.add_assoc. by apply IH. }
  assert (Hb : inject_Z (Z.of_nat (0 + admitted k calls (NewRateLimiter cap0 rate0)))
               <= cap0 + rate0 * Seconds (hi - lo)).
  { apply Hgen. unfold tally. simpl. by rewrite lookup_empty. }
  rewrite Nat.add_0_l in Hb. lra.
Qed.

Lemma admitted_without_refill_witness :
  inject_Z (Z.of_nat (admitted "A" [mkCall "A" 0 0; mkCall "A" 5 5; mkCall "B" 7 7;
                                    mkCall "A" 9 9; mkCall "A" 12 12]
                               (NewRateLimiter 2 0)))
  <= 2.
Proof.
  apply (admitted_without_refill 2 0 0 "A"
           [mkCall "A" 0 0; mkCall "A" 5 5; mkCall "B" 7 7; mkCall "A" 9 9; mkCall "A" 12 12]).
  - unfold Qle. simpl. lia.
  - unfold Qle. simpl. lia.
  - left. reflexivity.
Defined.

End LimiterMore.

(** ** Mutual exclusion and progress of the racing calls *)
Section ConcMore.
Import Clock Limiter Conc.
Local Open Scope Z_scope.
Local Open Scope Q_scope.

Lemma is_inside_pc t :
  is_inside t = match pc t with AtRefill _ | AtTake _ | AtBucketUnlock _ _ => true | _ => false end.
Proof. reflexivity. Qed.

(** Where a goroutine of the race can stand, before and after the bucket
    exists. *)
Lemma racing_thread lo hi k h0 m0 cap0 rate0 c i t :
  racing lo hi k h0 m0 cap0 rate0 c -> threads c !! i = Some t ->
  (heap c = h0 /\ index c = m0 /\ early t) \/
  (exists cell, heap c = h0 ++ [cell] /\ index c = <[k := length h0]> m0 /\
                late (length h0) t).
Proof.
  intros (_ & _ & _ & _ & Hphase) Hi.
  destruct Hphase as [(? & ? & He)|(cell & ? & ? & Hl & _)].
  - left. repeat split; try done. by apply (Forall_lookup_1 _ _ _ _ He Hi).
  - right. exists cell. repeat split; try done. by apply (Forall_lookup_1 _ _ _ _ Hl Hi).
Qed.

Lemma step_exclusive lo hi k h0 m0 cap0 rate0 i now c c' :
  racing lo hi k h0 m0 cap0 rate0 c -> exclusive (length h0) c ->
  step i now c = Some c' -> exclusive (length h0) c'.
Proof.
  intros Hrace Hex Hstep. unfold step in Hstep.
  destruct (threads c !! i) as [t|] eqn:Hi; [|done].
  pose proof (racing_thread _ _ _ _ _ _ _ _ _ _ Hrace Hi) as Hwhere.
  pose proof (count_insert is_inside (threads c) i t) as Hci.
  unfold exclusive in *. unfold early, late in Hwhere.
  destruct (pc t) as [| | | |a|a|a|a|a ok|ok] eqn:Hpc.
  - destruct (index c !! key t) as [a|]; simplify_eq; simpl.
    + specialize (Hci (mkThread (key t) (AtBucketLock a)) Hi).
      rewrite !is_inside_pc, Hpc in Hci. simpl in Hci. rewrite <- Hex. lia.
    + specialize (Hci (mkThread (key t) AtLock) Hi).
      rewrite !is_inside_pc, Hpc in Hci. simpl in Hci. rewrite <- Hex. lia.
  - destruct (globalMux c); simplify_eq; simpl.
    specialize (Hci (mkThread (key t) AtReload) Hi).
    rewrite !is_inside_pc, Hpc in Hci. simpl in Hci. rewrite <- Hex. lia.
  - destruct (index c !! key t) as [a|]; simplify_eq; simpl.
    + specialize (Hci (mkThread (key t) (AtUnlock a)) Hi).
      rewrite !is_inside_pc, Hpc in Hci. simpl in Hci. rewrite <- Hex. lia.
    + specialize (Hci (mkThread (key t) AtStore) Hi).
      rewrite !is_inside_pc, Hpc in Hci. simpl in Hci. rewrite <- Hex. lia.
  - simplify_eq. simpl.
    destruct Hwhere as [(Hh & _ & _)|(cell & _ & _ & [])].
    specialize (Hci (mkThread (key t) (AtUnlock (length (heap c)))) Hi).
    rewrite !is_inside_pc, Hpc in Hci. simpl in Hci.
    rewrite Hh in *. rewrite lookup_last. simpl.
    rewrite lookup_ge_None_2 in Hex by lia. lia.
  - simplify_eq. simpl.
    specialize (Hci (mkThread (key t) (AtBucketLock a)) Hi).
    rewrite !is_inside_pc, Hpc in Hci. simpl in Hci. rewrite <- Hex. lia.
  - destruct Hwhere as [(_ & _ & [])|(cell & Hh & _ & ->)].
    rewrite Hh, lookup_last in Hstep, Hex.
    destruct (locked cell); simplify_eq. simpl.
    specialize (Hci (mkThread (key t) (AtRefill (length h0))) Hi).
    rewrite !is_inside_pc, Hpc in Hci. simpl in Hci.
    rewrite insert_last, lookup_last. simpl. lia.
  - destruct Hwhere as [(_ & _ & [])|(cell & Hh & _ & ->)].
    rewrite Hh, lookup_last in Hstep, Hex. simplify_eq. simpl.
    specialize (Hci (mkThread (key t) (AtTake (length h0))) Hi).
    rewrite !is_inside_pc, Hpc in Hci. simpl in Hci.
    rewrite insert_last, lookup_last. simpl. lia.
  - destruct Hwhere as [(_ & _ & [])|(cell & Hh & _ & ->)].
    rewrite Hh, lookup_last in Hstep, Hex.
    destruct (Qlt_le_dec _ 1); simplify_eq; simpl.
    + specialize (Hci (mkThread (key t) (AtBucketUnlock (length h0) false)) Hi).
      rewrite !is_inside_pc, Hpc in Hci. simpl in Hci.
      rewrite Hh, lookup_last. lia.
    + specialize (Hci (mkThread (key t) (AtBucketUnlock (length h0) true)) Hi).
      rewrite !is_inside_pc, Hpc in Hci. simpl in Hci.
      rewrite insert_last, lookup_last. simpl. lia.
  - destruct Hwhere as [(_ & _ & [])|(cell & Hh & _ & ->)].
    rewrite Hh, lookup_last in Hstep, Hex. simplify_eq. simpl.
    specialize (Hci (mkThread (key t) (Returned ok)) Hi).
    rewrite !is_inside_pc, Hpc in Hci. simpl in Hci.
    rewrite insert_last, lookup_last. simpl. destruct (locked cell); lia.
  - done.
Qed.

Lemma spawn_exclusive n k h0 m0 cap0 rate0 :
  exclusive (length h0) (spawn n k h0 m0 cap0 rate0).
Proof.
  unfold exclusive, spawn. simpl. rewrite lookup_ge_None_2 by lia.
  apply count_zero, Forall_replicate. done.
Qed.

(** The configurations a race can reach. *)
Lemma exec_reach lo hi k h0 m0 cap0 rate0 sched c :
  0 <= cap0 -> 0 <= rate0 -> m0 !! k = None -> within lo hi sched ->
  racing lo hi k h0 m0 cap0 rate0 c -> exclusive (length h0) c ->
  racing lo hi k h0 m0 cap0 rate0 (exec sched c) /\
  exclusive (length h0) (exec sched c).
Proof.
  intros Hcap Hrate Hm0 Hw. revert c.
  induction Hw as [|[i now] sched Hnow _ IH]; intros c Hinv Hex; simpl; [done|].
  destruct (step i now c) as [c1|] eqn:Hstep; [|by apply IH].
  apply IH.
  - by apply (step_racing lo hi k h0 m0 cap0 rate0 i now c).
  - by apply (step_exclusive lo hi k h0 m0 cap0 rate0 i now c).
Qed.

Lemma count_unique (p : Thread -> bool) ts i j ti tj :
  (count p ts <= 1)%nat -> ts !! i = Some ti -> ts !! j = Some tj ->
  p ti = true -> p tj = true -> i = j.
Proof.
  unfold count. revert i j. induction ts as [|t ts IH]; intros i j Hc Hi Hj Hpi Hpj;
    [done|]. simpl in Hc.
  destruct i as [|i], j as [|j]; simpl in *; simplify_eq; try done.
  - rewrite Hpi in Hc. simpl in Hc.
    assert (Hz : count p ts = 0%nat) by (unfold count; lia).
    rewrite (count_zero_inv p ts j tj Hz Hj) in Hpj. done.
  - rewrite Hpj in Hc. simpl in Hc.
    assert (Hz : count p ts = 0%nat) by (unfold count; lia).
    rewrite (count_zero_inv p ts i ti Hz Hi) in Hpi. done.
  - f_equal. apply (IH i j); try done. destruct (p t); simpl in Hc; lia.
Qed.

(** X7. Mutual exclusion: however the calls are interleaved, two distinct
    goroutines are never both between [Lock] and [Unlock] of [globalMux],
    nor both inside the body of [Allow] on the bucket of the key. *)
Theorem mutual_exclusion (n : nat) (k : string) (h0 : list Cell) (m0 : gmap string nat)
    (cap0 rate0 : Q) (lo hi : Time) (sched : list (nat * Time))
    (i j : nat) (ti tj : Thread) :
  0 <= cap0 -> 0 <= rate0 -> m0 !! k = None -> within lo hi sched ->
  let c := exec sched (spawn n k h0 m0 cap0 rate0) in
  threads c !! i = Some ti -> threads c !! j = Some tj ->
  (is_holder ti = true -> is_holder tj = true -> i = j) /\
  (is_inside ti = true -> is_inside tj = true -> i = j).
Proof.
  intros Hcap Hrate Hm0 Hw c Hi Hj.
  destruct (exec_reach lo hi k h0 m0 cap0 rate0 sched (spawn n k h0 m0 cap0 rate0)
              Hcap Hrate Hm0 Hw (spawn_racing _ _ _ _ _ _ _ _)
              (spawn_exclusive _ _ _ _ _ _)) as [Hrace Hex].
  fold c in Hrace, Hex. destruct Hrace as (_ & _ & _ & Hhold & _).
  split; apply (count_unique _ (threads c)); try done.
  - rewrite Hhold. destruct (globalMux c); lia.
  - unfold exclusive in Hex. rewrite Hex.
    destruct (heap c !! length h0) as [cell|]; [|lia].
    destruct (locked cell); lia.
Qed.

Lemma mutual_exclusion_witness :
  (is_holder (mkThread "A" (AtBucketLock 0)) = true ->
   is_holder (mkThread "A" (AtUnlock 0)) = true -> 0%nat = 1%nat) /\
  (is_inside (mkThread "A" (AtBucketLock 0)) = true ->
   is_inside (mkThread "A" (AtUnlock 0)) = true -> 0%nat = 1%nat).
Proof.
  apply (mutual_exclusion 2 "A" [] ∅ 1 1000 0 0 (take 9 (Sample.race 0)) 0 1).
  - unfold Qle. simpl. lia.
  - unfold Qle. simpl. lia.
  - apply lookup_empty.
  - unfold within. simpl. repeat (constructor; [simpl; lia|]). constructor.
  - vm_compute. reflexivity.
  - vm_compute. reflexivity.
Defined.

Lemma count_pos (p : Thread -> bool) ts :
  (0 < count p ts)%nat -> exists j t, ts !! j = Some t /\ p t = true.
Proof.
  unfold count. induction ts as [|t ts IH]; simpl; [lia|].
  destruct (p t) eqn:E.
  - intros _. by exists 0%nat, t.
  - intros H. destruct (IH H) as (j & t' & ? & ?). by exists (S j), t'.
Qed.

(** A goroutine that holds a mutex can move. *)
Lemma holder_moves now c j t :
  threads c !! j = Some t -> is_holder t = true -> is_Some (step j now c).
Proof.
  intros Hj Hh. unfold step. rewrite Hj. unfold is_holder in Hh.
  destruct (pc t); try done.
  - by destruct (index c !! key t).
Qed.

Lemma inside_moves lo hi k h0 m0 cap0 rate0 now c j t :
  racing lo hi k h0 m0 cap0 rate0 c ->
  threads c !! j = Some t -> is_inside t = true -> is_Some (step j now c).
Proof.
  intros Hrace Hj Hin. unfold step. rewrite Hj. unfold is_inside in Hin.
  destruct (racing_thread _ _ _ _ _ _ _ _ _ _ Hrace Hj) as [(_ & _ & He)|(cell & Hh & _ & Hl)];
    unfold early, late in *; destruct (pc t); try done; subst;
    rewrite Hh, lookup_last; try done.
  by destruct (Qlt_le_dec _ 1).
Qed.

Lemma can_move lo hi k h0 m0 cap0 rate0 c i t :
  racing lo hi k h0 m0 cap0 rate0 c -> exclusive (length h0) c ->
  threads c !! i = Some t -> (forall ok, pc t <> Returned ok) ->
  exists j, forall now, is_Some (step j now c).
Proof.
  intros Hrace Hex Hi Hrun.
  pose proof Hrace as (_ & _ & _ & Hhold & _).
  destruct (pc t) as [| | | |a|a|a|a|a ok|ok] eqn:Hpc.
  - exists i. intros now. unfold step. rewrite Hi, Hpc.
    by destruct (index c !! key t).
  - destruct (globalMux c) eqn:Hmux.
    + destruct (count_pos is_holder (threads c)) as (j & tj & Hj & Hh); [lia|].
      exists j. intros now. by apply (holder_moves now c j tj).
    + exists i. intros now. unfold step. by rewrite Hi, Hpc, Hmux.
  - exists i. intros now. apply (holder_moves now c i t Hi).
    unfold is_holder. by rewrite Hpc.
  - exists i. intros now. apply (holder_moves now c i t Hi).
    unfold is_holder. by rewrite Hpc.
  - exists i. intros now. apply (holder_moves now c i t Hi).
    unfold is_holder. by rewrite Hpc.
  - destruct (racing_thread _ _ _ _ _ _ _ _ _ _ Hrace Hi) as [(_ & _ & He)|(cell & Hh & _ & Hl)];
      unfold early, late in *; rewrite Hpc in *; [done|]. subst a.
    unfold exclusive in Hex. rewrite Hh, lookup_last in Hex.
    destruct (locked cell) eqn:Hlock.
    + destruct (count_pos is_inside (threads c)) as (j & tj & Hj & Hin); [lia|].
      exists j. intros now.
      by apply (inside_moves lo hi k h0 m0 cap0 rate0 now c j tj).
    + exists i. intros now. unfold step. by rewrite Hi, Hpc, Hh, lookup_last, Hlock.
  - exists i. intros now. apply (inside_moves lo hi k h0 m0 cap0 rate0 now c i t Hrace Hi).
    unfold is_inside. by rewrite Hpc.
  - exists i. intros now. apply (inside_moves lo hi k h0 m0 cap0 rate0 now c i t Hrace Hi).
    unfold is_inside. by rewrite Hpc.
  - exists i. intros now. apply (inside_moves lo hi k h0 m0 cap0 rate0 now c i t Hrace Hi).
    unfold is_inside. by rewrite Hpc.
  - by destruct (Hrun ok).
Qed.

(** X8. No deadlock: however the calls were interleaved so far, as long as
    one of them has not returned, some goroutine can perform its next
    operation. *)
Theorem progress (n : nat) (k : string) (h0 : list Cell) (m0 : gmap string nat)
    (cap0 rate0 : Q) (lo hi : Time) (sched : list (nat * Time)) (i : nat) (t : Thread) :
  0 <= cap0 -> 0 <= rate0 -> m0 !! k = None -> within lo hi sched ->
  let c := exec sched (spawn n k h0 m0 cap0 rate0) in
  threads c !! i = Some t -> (forall ok, pc t <> Returned ok) ->
  exists j, forall now, is_Some (step j now c).
Proof.
  intros Hcap Hrate Hm0 Hw c Hi Hrun.
  destruct (exec_reach lo hi k h0 m0 cap0 rate0 sched (spawn n k h0 m0 cap0 rate0)
              Hcap Hrate Hm0 Hw (spawn_racing _ _ _ _ _ _ _ _)
              (spawn_exclusive _ _ _ _ _ _)) as [Hrace Hex].
  by apply (can_move lo hi k h0 m0 cap0 rate0 c i t).
Qed.

Lemma progress_witness :
  exists j, forall now,
    is_Some (step j now (exec (take 4 (Sample.race 0)) (spawn 2 "A" [] ∅ 1 1000))).
Proof.
  apply (progress 2 "A" [] ∅ 1 1000 0 0 (take 4 (Sample.race 0)) 1 (mkThread "A" AtLock)).
  - unfold Qle. simpl. lia.
  - unfold Qle. simpl. lia.
  - apply lookup_empty.
  - unfold within. simpl. repeat (constructor; [simpl; lia|]). constructor.
  - vm_compute. reflexivity.
  - intros ok. simpl. discriminate.
Defined.

Lemma sum_insert (f : Thread -> nat) ts i t t' :
  ts !! i = Some t ->
  (sum_list (f <$> <[i := t']> ts) + f t = sum_list (f <$> ts) + f t')%nat.
Proof.
  revert i. induction ts as [|t0 ts IH]; intros [|i] H; simpl in *; simplify_eq.
  - lia.
  - specialize (IH i H). unfold fmap in IH. lia.
Qed.

(** Every operation performed leaves less to do. *)
Lemma step_work i now c c' : step i now c = Some c' -> (work c' < work c)%nat.
Proof.
  unfold step, work. intros Hstep.
  destruct (threads c !! i) as [t|] eqn:Hi; [|done].
  assert (Hgo : forall p c0, threads c0 = threads c ->
            (remaining (mkThread (key t) p) < remaining t)%nat ->
            (sum_list (remaining <$> threads (goto i t p c0))
             < sum_list (remaining <$> threads c))%nat).
  { intros p c0 Hc0 Hlt. simpl. rewrite Hc0.
    pose proof (sum_insert remaining (threads c) i t (mkThread (key t) p) Hi). lia. }
  destruct (pc t) eqn:Hpc; repeat case_match; simplify_eq; apply Hgo;
    try done; unfold remaining; rewrite Hpc; simpl; lia.
Qed.

Lemma work_spawn n k h0 m0 cap0 rate0 :
  work (spawn n k h0 m0 cap0 rate0) = (9 * n)%nat.
Proof.
  unfold work, spawn. cbn [threads]. induction n as [|n IH]; [done|].
  rewrite replicate_S, fmap_cons.
  change (sum_list (remaining (mkThread k AtLoad)
                    :: (remaining <$> replicate n (mkThread k AtLoad))))
    with (9 + sum_list (remaining <$> replicate n (mkThread k AtLoad)))%nat.
  rewrite IH. lia.
Qed.

(** X9. No call spins: of any schedule, the operations that are performed
    number at most nine for each call. *)
Theorem bounded_work (n : nat) (k : string) (h0 : list Cell) (m0 : gmap string nat)
    (cap0 rate0 : Q) (sched : list (nat * Time)) :
  (performed sched (spawn n k h0 m0 cap0 rate0) <= 9 * n)%nat.
Proof.
  assert (Hgen : forall c, (performed sched c + work (exec sched c) <= work c)%nat).
  { induction sched as [|[i now] sched IH]; intros c; simpl; [lia|].
    destruct (step i now c) as [c1|] eqn:Hstep; [|apply IH].
    pose proof (step_work i now c c1 Hstep). specialize (IH c1). lia. }
  specialize (Hgen (spawn n k h0 m0 cap0 rate0)).
  rewrite work_spawn in Hgen. lia.
Qed.

Lemma exec_app s1 s2 c : exec (s1 ++ s2) c = exec s2 (exec s1 c).
Proof.
  revert c. induction s1 as [|[i now] s1 IH]; intros c; simpl; [done|]. apply IH.
Qed.

Lemma work_pending c :
  (0 < work c)%nat ->
  exists i t, threads c !! i = Some t /\ forall ok, pc t <> Returned ok.
Proof.
  unfold work. induction (threads c) as [|t ts IH]; simpl; [intros H; lia|].
  destruct (pc t) eqn:Hpc;
    try (intros _; exists 0%nat, t; split; [done|]; intros ok'; by rewrite Hpc).
  intros H. unfold remaining in H at 1. rewrite Hpc in H. simpl in H.
  destruct (IH H) as (i & t' & ? & ?). by exists (S i), t'.
Qed.

Lemma work_done c :
  work c = 0%nat -> Forall (fun t => exists ok, pc t = Returned ok) (threads c).
Proof.
  unfold work. induction (threads c) as [|t ts IH]; simpl; [constructor|].
  intros H. constructor.
  - unfold remaining in H at 1. destruct (pc t); simpl in H; try lia. by eexists.
  - apply IH. unfold fmap in *. lia.
Qed.

Lemma finish lo hi k h0 m0 cap0 rate0 w c :
  0 <= cap0 -> 0 <= rate0 -> m0 !! k = None -> (lo <= hi)%Z ->
  (work c <= w)%nat ->
  racing lo hi k h0 m0 cap0 rate0 c -> exclusive (length h0) c ->
  exists sched, within lo hi sched /\
    Forall (fun t => exists ok, pc t = Returned ok) (threads (exec sched c)).
Proof.
  intros Hcap Hrate Hm0 Hlohi. revert c.
  induction w as [|w IH]; intros c Hw Hrace Hex.
  - exists []. split; [constructor|]. simpl. apply work_done. lia.
  - destruct (decide (work c = 0%nat)) as [Hz|Hnz].
    + exists []. split; [constructor|]. by apply work_done.
    + destruct (work_pending c) as (i & t & Hi & Hrun); [lia|].
      destruct (can_move lo hi k h0 m0 cap0 rate0 c i t Hrace Hex Hi Hrun) as [j Hj].
      destruct (Hj lo) as [c1 Hstep].
      destruct (IH c1) as (sched & Hwithin & Hall).
      * pose proof (step_work j lo c c1 Hstep). lia.
      * apply (step_racing lo hi k h0 m0 cap0 rate0 j lo c); try done; lia.
      * by apply (step_exclusive lo hi k h0 m0 cap0 rate0 j lo c).
      * exists ((j, lo) :: sched). split.
        -- constructor; [simpl; lia | done].
        -- simpl. by rewrite Hstep.
Qed.

(** X10. The calls can always be brought to an end: any interleaving of
    the racing calls can be continued so that every call returns. *)
Theorem calls_can_return (n : nat) (k : string) (h0 : list Cell) (m0 : gmap string nat)
    (cap0 rate0 : Q) (lo hi : Time) (sched : list (nat * Time)) :
  0 <= cap0 -> 0 <= rate0 -> m0 !! k = None -> (lo <= hi)%Z ->
  within lo hi sched ->
  exists rest, within lo hi rest /\
    Forall (fun t => exists ok, pc t = Returned ok)
           (threads (exec (sched ++ rest) (spawn n k h0 m0 cap0 rate0))).
Proof.
  intros Hcap Hrate Hm0 Hlohi Hw.
  destruct (exec_reach lo hi k h0 m0 cap0 rate0 sched (spawn n k h0 m0 cap0 rate0)
              Hcap Hrate Hm0 Hw (spawn_racing _ _ _ _ _ _ _ _)
              (spawn_exclusive _ _ _ _ _ _)) as [Hrace Hex].
  destruct (finish lo hi k h0 m0 cap0 rate0 _ _ Hcap Hrate Hm0 Hlohi (le_n _) Hrace Hex)
    as (rest & Hwithin & Hall).
  exists rest. split; [done|]. by rewrite exec_app.
Qed.

Lemma calls_can_return_witness :
  exists rest, within 0 0 rest /\
    Forall (fun t => exists ok, pc t = Returned ok)
           (threads (exec (take 4 (Sample.race 0) ++ rest) (spawn 2 "A" [] ∅ 1 1000))).
Proof.
  apply (calls_can_return 2 "A" [] ∅ 1 1000 0 0 (take 4 (Sample.race 0))).
  - unfold Qle. simpl. lia.
  - unfold Qle. simpl. lia.
  - apply lookup_empty.
  - lia.
  - unfold within. simpl. repeat (constructor; [simpl; lia|]). constructor.
Defined.

(** The operations of a goroutine that is alone. *)
Section Solo.
Variables (k : string) (cap0 rate0 : Q).

Lemma solo_load now h m mux :
  step 0 now (alone k cap0 rate0 h m mux AtLoad) =
  Some (alone k cap0 rate0 h m mux (match m !! k with Some a => AtBucketLock a | None => AtLock end)).
Proof. unfold step, alone. simpl. by destruct (m !! k). Qed.

Lemma solo_lock now h m :
  step 0 now (alone k cap0 rate0 h m false AtLock) = Some (alone k cap0 rate0 h m true AtReload).
Proof. reflexivity. Qed.

Lemma solo_reload now h m mux :
  step 0 now (alone k cap0 rate0 h m mux AtReload) =
  Some (alone k cap0 rate0 h m mux (match m !! k with Some a => AtUnlock a | None => AtStore end)).
Proof. unfold step, alone. simpl. by destruct (m !! k). Qed.

Lemma solo_store now h m mux :
  step 0 now (alone k cap0 rate0 h m mux AtStore) =
  Some (alone k cap0 rate0 (h ++ [mkCell (mkBucket cap0 cap0 rate0 now) false])
              (<[k := length h]> m) mux (AtUnlock (length h))).
Proof. reflexivity. Qed.

Lemma solo_unlock now h m mux a :
  step 0 now (alone k cap0 rate0 h m mux (AtUnlock a)) = Some (alone k cap0 rate0 h m false (AtBucketLock a)).
Proof. reflexivity. Qed.

Lemma solo_bucket_lock now h m mux a tb :
  h !! a = Some (mkCell tb false) ->
  step 0 now (alone k cap0 rate0 h m mux (AtBucketLock a)) =
  Some (alone k cap0 rate0 (<[a := mkCell tb true]> h) m mux (AtRefill a)).
Proof. intros Ha. unfold step, alone. simpl. by rewrite Ha. Qed.

Lemma solo_refill now h m mux a tb :
  h !! a = Some (mkCell tb true) ->
  step 0 now (alone k cap0 rate0 h m mux (AtRefill a)) =
  Some (alone k cap0 rate0 (<[a := mkCell (refill now tb) true]> h) m mux (AtTake a)).
Proof. intros Ha. unfold step, alone. simpl. by rewrite Ha. Qed.

Lemma solo_take now h m mux a tb :
  h !! a = Some (mkCell tb true) ->
  step 0 now (alone k cap0 rate0 h m mux (AtTake a)) =
  Some (if Qlt_le_dec (tokens tb) 1
        then alone k cap0 rate0 h m mux (AtBucketUnlock a false)
        else alone k cap0 rate0 (<[a := mkCell (mkBucket (tokens tb - 1) (capacity tb) (fillRate tb)
                                            (lastRefillTime tb)) true]> h)
                   m mux (AtBucketUnlock a true)).
Proof.
  intros Ha. unfold step, alone. simpl. rewrite Ha. simpl.
  by destruct (Qlt_le_dec (tokens tb) 1).
Qed.

Lemma solo_bucket_unlock now h m mux a tb ok :
  h !! a = Some (mkCell tb true) ->
  step 0 now (alone k cap0 rate0 h m mux (AtBucketUnlock a ok)) =
  Some (alone k cap0 rate0 (<[a := mkCell tb false]> h) m mux (Returned ok)).
Proof. intros Ha. unfold step, alone. simpl. by rewrite Ha. Qed.

(** From the locking of the bucket on, a goroutine alone does what
    [Allow] does to the bucket. *)
Lemma solo_allow tn h m mux a tb :
  h !! a = Some (mkCell tb false) ->
  exec [(0%nat, tn); (0%nat, tn); (0%nat, tn); (0%nat, tn)]
       (alone k cap0 rate0 h m mux (AtBucketLock a))
  = alone k cap0 rate0 (<[a := mkCell (snd (Allow tn tb)) false]> h) m mux
          (Returned (fst (Allow tn tb))).
Proof.
  intros Ha. assert (Hlt : (a < length h)%nat) by (by eapply lookup_lt_Some).
  cbn [exec]. rewrite (solo_bucket_lock tn h m mux a tb Ha).
  rewrite (solo_refill tn _ m mux a tb) by (by rewrite list_lookup_insert_eq).
  rewrite list_insert_insert_eq.
  rewrite (solo_take tn _ m mux a (refill tn tb)) by (by rewrite list_lookup_insert_eq).
  unfold Allow. destruct (Qlt_le_dec (tokens (refill tn tb)) 1) as [Hl|Hg]; cbn [fst snd].
  - rewrite (solo_bucket_unlock tn _ m mux a (refill tn tb))
      by (by rewrite list_lookup_insert_eq).
    by rewrite list_insert_insert_eq.
  - rewrite list_insert_insert_eq.
    erewrite (solo_bucket_unlock tn _ m mux a)
      by (by rewrite list_lookup_insert_eq).
    by rewrite list_insert_insert_eq.
Qed.

(** X11. A call that runs alone goes through the operations of the
    interleaving model to the decision and the bucket of [IsAllowed]: when
    it creates the bucket (nine operations), and when it finds it (five). *)
Theorem solo_call (tc tn : Time) (rl : RateLimiter) (h : list Cell) (m : gmap string nat) :
  rl_capacity rl = cap0 -> rl_fillRate rl = rate0 ->
  (limiters rl !! k = None -> m !! k = None ->
   let c := exec (solo_create 0 tc tn) (spawn 1 k h m cap0 rate0) in
   (pc <$> threads c) = [Returned (fst (IsAllowed tc tn k rl))] /\
   index c !! k = Some (length h) /\
   (bucket <$> heap c !! length h) = limiters (snd (IsAllowed tc tn k rl)) !! k /\
   (locked <$> heap c !! length h) = Some false /\
   globalMux c = false) /\
  (forall a tb, limiters rl !! k = Some tb -> m !! k = Some a ->
   h !! a = Some (mkCell tb false) ->
   let c := exec (solo_found 0 tn) (spawn 1 k h m cap0 rate0) in
   (pc <$> threads c) = [Returned (fst (IsAllowed tc tn k rl))] /\
   index c !! k = Some a /\
   (bucket <$> heap c !! a) = limiters (snd (IsAllowed tc tn k rl)) !! k /\
   (locked <$> heap c !! a) = Some false /\
   globalMux c = false).
Proof.
  intros Hcap Hrate. split.
  - intros Hnone Hm c. subst c.
    rewrite IsAllowed_unfold. cbn [fst snd limiters]. rewrite lookup_insert_eq.
    assert (Hget : fst (getLimiter tc k rl) = mkBucket cap0 cap0 rate0 tc)
      by (unfold getLimiter; by rewrite Hnone, Hcap, Hrate).
    rewrite Hget.
    change (spawn 1 k h m cap0 rate0) with (alone k cap0 rate0 h m false AtLoad).
    change (solo_create 0 tc tn) with
      ([(0%nat, tc); (0%nat, tc); (0%nat, tc); (0%nat, tc); (0%nat, tc)]
       ++ [(0%nat, tn); (0%nat, tn); (0%nat, tn); (0%nat, tn)]).
    rewrite exec_app.
    assert (exec [(0%nat, tc); (0%nat, tc); (0%nat, tc); (0%nat, tc); (0%nat, tc)]
                 (alone k cap0 rate0 h m false AtLoad)
            = alone k cap0 rate0 (h ++ [mkCell (mkBucket cap0 cap0 rate0 tc) false])
                    (<[k := length h]> m) false (AtBucketLock (length h))) as ->.
    { cbn [exec].
      by rewrite solo_load, Hm, solo_lock, solo_reload, Hm, solo_store, solo_unlock. }
    rewrite (solo_allow tn _ _ _ _ (mkBucket cap0 cap0 rate0 tc)) by apply lookup_last.
    unfold alone. cbn [threads index heap globalMux].
    rewrite insert_last, lookup_last, lookup_insert_eq. done.
  - intros a tb Hk Hm Ha c. subst c.
    rewrite IsAllowed_unfold. cbn [fst snd limiters]. rewrite lookup_insert_eq.
    assert (Hget : fst (getLimiter tc k rl) = tb)
      by (unfold getLimiter; by rewrite Hk).
    rewrite Hget.
    assert (Hlt : (a < length h)%nat) by (by eapply lookup_lt_Some).
    change (spawn 1 k h m cap0 rate0) with (alone k cap0 rate0 h m false AtLoad).
    change (solo_found 0 tn) with
      ([(0%nat, tn)] ++ [(0%nat, tn); (0%nat, tn); (0%nat, tn); (0%nat, tn)]).
    rewrite exec_app.
    assert (exec [(0%nat, tn)] (alone k cap0 rate0 h m false AtLoad)
            = alone k cap0 rate0 h m false (AtBucketLock a)) as ->.
    { cbn [exec]. by rewrite solo_load, Hm. }
    rewrite (solo_allow tn _ _ _ _ tb Ha).
    unfold alone. cbn [threads index heap globalMux].
    rewrite list_lookup_insert_eq by done. done.
Qed.

End Solo.

Lemma solo_call_witness :
  (pc <$> threads (exec (solo_create 0 0 3) (spawn 1 "A" [] ∅ 2 1)))
  = [Returned (fst (IsAllowed 0 3 "A" (NewRateLimiter 2 1)))].
Proof.
  apply (solo_call "A" 2 1 0 3 (NewRateLimiter 2 1) [] ∅ eq_refl eq_refl);
    apply lookup_empty.
Defined.

End ConcMore.

(** ** More on the token service *)
Section AuthMore.
Import Clock Auth.
Local Open Scope string_scope.
Local Open Scope Z_scope.

(** X12. Issuing writes to neither cache: whatever the request and its
    answer, the handler of [token/] leaves the registry, with the token
    slots of every user, and the token cache as they were. *)
Theorem token_handler_caches (now1 now2 : Time) (ins : Inserted) (f : Form) (s : State) :
  users (snd (token_handler now1 now2 ins f s)) = users s /\
  tokens (snd (token_handler now1 now2 ins f s)) = tokens s.
Proof.
  destruct (token_handler_state now1 now2 ins f s) as [->| ->]; [done|].
  apply AddToken_caches.
Qed.

Lemma is_pos_scope_elem scopes scope :
  is_pos_scope scopes scope = true <-> scope ∈ scopes.
Proof.
  unfold is_pos_scope. rewrite existsb_exists. split.
  - intros (sc & Hin & Hb). apply bool_decide_eq_true_1 in Hb. subst.
    by apply list_elem_of_In.
  - intros Hin. exists scope. split; [by apply list_elem_of_In|].
    by apply bool_decide_eq_true_2.
Qed.

(** X13. The rejections of the handler of [token/] for a known client: a
    secret that is not the stored one gives 400 "Incorrect client
    credentials", a scope that is not among the scopes of the client gives
    400 "Wrong scope"; in both cases nothing changes, in the caches or in
    the store. *)
Theorem token_handler_rejects (now1 now2 : Time) (ins : Inserted) (f : Form)
    (s : State) (u : User) :
  ClientId f <> "" -> Scope f <> "" -> FormSecret f <> "" ->
  GrantType f = "client_credentials" ->
  users s !! ClientId f = Some u ->
  (FormSecret f <> ClientSecret u ->
   token_handler now1 now2 ins f s = (JsonError 400 "Incorrect client credentials", s)) /\
  (FormSecret f = ClientSecret u -> Scope f ∉ Scopes u ->
   token_handler now1 now2 ins f s = (JsonError 400 "Wrong scope", s)).
Proof.
  intros H1 H2 H3 H4 Hu. unfold token_handler.
  rewrite !bool_decide_eq_false_2 by (by rewrite ?H4). simpl.
  rewrite bool_decide_eq_true_2 by done. simpl. rewrite Hu. split.
  - intros Hne. by rewrite bool_decide_eq_false_2.
  - intros Heq Hnin. rewrite bool_decide_eq_true_2 by done. simpl.
    destruct (is_pos_scope (Scopes u) (Scope f)) eqn:E; [|done].
    by apply is_pos_scope_elem in E.
Qed.

Lemma token_handler_rejects_witness :
  token_handler 0 0 (InsertOk "T" 100) (Sample.grant "wrong") Sample.boot
  = (JsonError 400 "Incorrect client credentials", Sample.boot).
Proof.
  apply (token_handler_rejects 0 0 (InsertOk "T" 100) (Sample.grant "wrong")
           Sample.boot Sample.c1); try done.
Defined.

(** X14. Whatever its answer, the handler of [token/] changes the state
    only when it answers with a token or with the internal error. *)
Theorem token_handler_quiet (now1 now2 : Time) (ins : Inserted) (f : Form) (s : State) :
  match fst (token_handler now1 now2 ins f s) with
  | JsonToken _ _ _ _ => True
  | JsonError st _ => st = 500 \/ snd (token_handler now1 now2 ins f s) = s
  | _ => snd (token_handler now1 now2 ins f s) = s
  end.
Proof.
  unfold token_handler.
  destruct (_ || _); simpl; [by right|]. destruct (negb _); simpl; [by right|].
  destruct (users s !! ClientId f) as [u|] eqn:Hu; [|done].
  destruct (negb _); simpl; [by right|]. destruct (negb _); simpl; [by right|].
  destruct (AddToken _ _ _ _ _ _) as [[tk|] s1] eqn:E; simpl.
  - case_bool_decide; simpl; [by left | done].
  - unfold AddToken in E. rewrite Hu in E.
    destruct (cached_token _ _ _) as [[?|]|]; simplify_eq; try done.
    by destruct (AddToken_store _ _ _ _ _ _).
Qed.

Lemma CheckToken_store_error now token s e :
  fst (CheckToken_store now token s) = Done (inr e) ->
  snd (CheckToken_store now token s) = s.
Proof.
  unfold CheckToken_store. destruct (select_by_token _ _) as [r|]; [|done].
  destruct (Before _ _); [done|]. simpl.
  destruct (users s !! client_id r) as [u|]; [|done].
  by destruct (set_token _ _ _ _).
Qed.

(** X15. Validation never writes to the store, and a validation that
    fails leaves no entry for the token in the token cache and the token
    slots of the users as they were. *)
Theorem CheckToken_failure (now1 now2 : Time) (token : string) (s : State) :
  token_table (snd (CheckToken now1 now2 token s)) = token_table s /\
  (forall e, fst (CheckToken now1 now2 token s) = Done (inr e) ->
     tokens (snd (CheckToken now1 now2 token s)) !! token = None /\
     users (snd (CheckToken now1 now2 token s)) = users s).
Proof.
  split; [apply CheckToken_table|]. intros e. unfold CheckToken.
  destruct (tokens s !! token) as [ti|] eqn:Hti.
  - destruct (After _ _); [done|]. intros He.
    rewrite (CheckToken_store_error now2 token _ e He). simpl.
    split; [apply lookup_delete_eq | done].
  - intros He. by rewrite (CheckToken_store_error now2 token _ e He).
Qed.

(** X16. After a validation that succeeds the token is in the token cache:
    until the expiration time recorded there, validating again gives the
    same client and scope and changes nothing, without a query of the
    store. *)
Theorem CheckToken_again (now1 now2 : Time) (token cid scope : string) (s : State) :
  fst (CheckToken now1 now2 token s) = Done (inl (cid, scope)) ->
  let s' := snd (CheckToken now1 now2 token s) in
  exists ti, tokens s' !! token = Some ti /\
    ClientID ti = cid /\ AccessScope ti = scope /\
    (now1 < ExpirationTime ti \/ now2 <= ExpirationTime ti) /\
    forall m1 m2, m1 < ExpirationTime ti ->
      CheckToken m1 m2 token s' = (Done (inl (cid, scope)), s').
Proof.
  intros Hok s'.
  assert (Hhit : forall ti, tokens s' !! token = Some ti ->
            forall m1 m2, m1 < ExpirationTime ti ->
              CheckToken m1 m2 token s' = (Done (inl (ClientID ti, AccessScope ti)), s')).
  { intros ti Hti m1 m2 Hm. unfold CheckToken. rewrite Hti. unfold After.
    by destruct (Z.ltb_spec m1 (ExpirationTime ti)); [|lia]. }
  assert (Hstore : forall s0, fst (CheckToken_store now2 token s0) = Done (inl (cid, scope)) ->
            exists ti, tokens (snd (CheckToken_store now2 token s0)) !! token = Some ti /\
              ClientID ti = cid /\ AccessScope ti = scope /\ now2 <= ExpirationTime ti).
  { intros s0. unfold CheckToken_store.
    destruct (select_by_token _ _) as [r|]; [|done].
    unfold Before. destruct (Z.ltb_spec (expiration_time r) now2); [done|]. simpl.
    destruct (users s0 !! client_id r) as [u|].
    - destruct (set_token _ _ _ _); [|done]. simpl. intros [= <- <-].
      eexists. rewrite lookup_insert_eq. done.
    - simpl. intros [= <- <-]. eexists. rewrite lookup_insert_eq. done. }
  unfold s', CheckToken in *.
  destruct (tokens s !! token) as [ti|] eqn:Hti.
  - unfold After in *. destruct (Z.ltb_spec now1 (ExpirationTime ti)).
    + simpl in *. simplify_eq. exists ti. repeat split; try done; [by left|].
      intros m1 m2 Hm. by apply (Hhit ti).
    + destruct (Hstore _ Hok) as (ti' & Hti' & <- & <- & Hexp).
      exists ti'. repeat split; try done; [by right|].
      intros m1 m2 Hm. by apply (Hhit ti').
  - destruct (Hstore _ Hok) as (ti' & Hti' & <- & <- & Hexp).
    exists ti'. repeat split; try done; [by right|].
    intros m1 m2 Hm. by apply (Hhit ti').
Qed.

Lemma CheckToken_again_witness :
  exists ti,
    tokens (snd (CheckToken 50 50 "T"
              (mkState {["c1" := Sample.c1]} ∅ [mkRow "T" "c1" "read" 100])))
      !! "T" = Some ti /\ ClientID ti = "c1".
Proof.
  destruct (CheckToken_again 50 50 "T" "c1" "read"
              (mkState {["c1" := Sample.c1]} ∅ [mkRow "T" "c1" "read" 100]))
    as (ti & Hti & Hid & _).
  - vm_compute. reflexivity.
  - by exists ti.
Defined.

Lemma serve_all_consistent reqs s :
  consistent s -> all_fresh reqs s -> consistent (serve_all reqs s).
Proof.
  revert s. induction reqs as [|req rest IH]; intros s Hc Hf; simpl in *; [done|].
  destruct Hf as [Hf Hrest]. apply IH; [|done].
  destruct req as [now1 now2 ins f|now1 now2 token]; simpl.
  - by apply token_handler_consistent.
  - by apply CheckToken_consistent.
Qed.

Lemma store_all_lookup usrs reg id u :
  store_all usrs reg !! id = Some u -> (id, u) ∈ usrs \/ reg !! id = Some u.
Proof.
  unfold store_all. revert reg. induction usrs as [|[id0 u0] usrs IH]; intros reg H;
    simpl in *; [by right|].
  destruct (IH _ H) as [Hin|Hreg]; [left; by right|].
  destruct (decide (id0 = id)) as [->|Hne].
  - rewrite lookup_insert_eq in Hreg. simplify_eq. left. by left.
  - rewrite lookup_insert_ne in Hreg by done. by right.
Qed.

Lemma scan_rows_slots rows usrs id u :
  scan_rows rows = Some usrs -> (id, u) ∈ usrs ->
  Tokens u = replicate (length (Scopes u)) "".
Proof.
  revert usrs. induction rows as [|[id0 sec scs|] rows IH]; intros usrs H Hin;
    simpl in H; simplify_eq.
  - by apply elem_of_nil in Hin.
  - destruct (scan_rows rows) as [l|]; simplify_eq.
    apply elem_of_cons in Hin as [Heq|Hin]; [by simplify_eq | by apply (IH l)].
Qed.

Lemma loaded_registry answers n m reg :
  GetAllUsers answers ∅ n = Loaded reg m ->
  users_wf reg /\
  forall id u, reg !! id = Some u -> Tokens u = replicate (length (Scopes u)) "".
Proof.
  intros H.
  destruct (GetAllUsers_Loaded_inv _ _ _ _ _ H) as (rows & usrs & _ & Hs & _ & ->).
  assert (Hslots : forall id u, store_all usrs ∅ !! id = Some u ->
            Tokens u = replicate (length (Scopes u)) "").
  { intros id u Hu. destruct (store_all_lookup _ _ _ _ Hu) as [Hin|He].
    - by apply (scan_rows_slots rows usrs id).
    - by rewrite lookup_empty in He. }
  split; [|done]. intros id u Hu. rewrite (Hslots id u Hu). apply length_replicate.
Qed.

(** X17. The registry [GetAllUsers] loads into an empty map holds, for
    every client, one empty token slot per scope. *)
Theorem GetAllUsers_registry (answers : list QueryAnswer) (n m : nat)
    (reg : gmap string User) :
  GetAllUsers answers ∅ n = Loaded reg m ->
  users_wf reg /\
  forall id u, reg !! id = Some u -> Tokens u = replicate (length (Scopes u)) "".
Proof. apply loaded_registry. Qed.

Lemma GetAllUsers_registry_witness :
  users_wf (store_all (replicate (Z.to_nat 1000) ("c1", Sample.c1)) ∅).
Proof.
  apply (GetAllUsers_registry [QRows (Sample.page (Z.to_nat 1000))] 0 0).
  vm_compute. reflexivity.
Defined.

Lemma replicate_empty_slot (n i : nat) (tk : string) :
  replicate n "" !! i = Some tk -> tk = "".
Proof. intros H. apply lookup_replicate in H as [-> _]. done. Qed.

(** X18. Startup and after: with the registry loaded by [GetAllUsers],
    empty caches and a store whose token values are distinct, the caches
    agree with the store, and they still do after any sequence of grant
    and validation requests in which the store gives new token values to
    the rows it creates. *)
Theorem caches_agree (answers : list QueryAnswer) (n m : nat) (reg : gmap string User)
    (db : list TokenRow) (reqs : list Request) :
  GetAllUsers answers ∅ n = Loaded reg m ->
  NoDup (access_token <$> db) ->
  all_fresh reqs (mkState reg ∅ db) ->
  consistent (mkState reg ∅ db) /\
  consistent (serve_all reqs (mkState reg ∅ db)).
Proof.
  intros Hload Hnd Hf.
  destruct (loaded_registry _ _ _ _ Hload) as [Hwf Hslots].
  assert (Hc : consistent (mkState reg ∅ db)).
  { split; simpl.
    - exact Hwf.
    - exact Hnd.
    - intros token ti r Hti. by rewrite lookup_empty in Hti.
    - intros id u i sc tk Hu Hsc Htk Hne. rewrite (Hslots id u Hu) in Htk.
      by apply replicate_empty_slot in Htk. }
  split; [done|]. by apply serve_all_consistent.
Qed.

Lemma caches_agree_witness :
  consistent (serve_all [Grant 0 0 (InsertOk "T" 100) (Sample.grant "s3cret");
                         Check 50 50 "T"]
                (mkState (store_all (replicate (Z.to_nat 1000) ("c1", Sample.c1)) ∅) ∅ [])).
Proof.
  apply (caches_agree [QRows (Sample.page (Z.to_nat 1000))] 0 0).
  - vm_compute. reflexivity.
  - constructor.
  - simpl. split; [|done]. split; [apply not_elem_of_nil | apply lookup_empty].
Defined.

(** *** One token for a client and a scope *)

Lemma select_by_pair_None cid scope db r :
  select_by_pair cid scope db = None -> r ∈ db ->
  ~ (client_id r = cid /\ access_scope r = scope).
Proof.
  unfold select_by_pair. intros H Hin [H1 H2]. apply list_elem_of_In in Hin.
  pose proof (find_none _ _ H r Hin) as Hb. simpl in Hb.
  by rewrite !bool_decide_eq_true_2 in Hb.
Qed.

Lemma select_by_pair_found cid scope db r :
  r ∈ db -> client_id r = cid -> access_scope r = scope ->
  exists r', select_by_pair cid scope db = Some r'.
Proof.
  intros Hin H1 H2. destruct (select_by_pair cid scope db) as [r'|] eqn:E; [by eexists|].
  by destruct (select_by_pair_None cid scope db r E Hin).
Qed.

Lemma delete_tidy token db : tidy db -> tidy (delete_by_token token db).
Proof.
  intros [Hone Hne]. split.
  - intros r1 r2 H1 H2. apply delete_by_token_subseteq in H1 as [H1 _].
    apply delete_by_token_subseteq in H2 as [H2 _]. by apply Hone.
  - apply Forall_forall. intros r Hr. apply delete_by_token_subseteq in Hr as [Hr _].
    by apply (proj1 (Forall_forall _ _) Hne).
Qed.

(** When [get_token] finds nothing, the table it leaves is tidy and has no
    row for the pair. *)
Lemma get_token_nothing now cid scope s :
  tidy (token_table s) -> fst (get_token now cid scope s) = "" ->
  tidy (token_table (snd (get_token now cid scope s))) /\
  forall r, r ∈ token_table (snd (get_token now cid scope s)) ->
    ~ (client_id r = cid /\ access_scope r = scope).
Proof.
  intros Ht. unfold get_token.
  destruct (select_by_pair _ _ _) as [r0|] eqn:E; simpl.
  - apply select_by_pair_Some in E as (Hin & Hid & Hsc).
    destruct (Before _ _); simpl.
    + intros _. split; [by apply delete_tidy|].
      intros r Hr [H1 H2]. apply delete_by_token_subseteq in Hr as [Hr Hne].
      apply Hne. f_equal. apply (proj1 Ht); congruence.
    + intros He. destruct Ht as [_ Hne].
      by destruct (proj1 (Forall_forall _ _) Hne r0 Hin).
  - intros _. split; [done|]. intros r Hr.
    by apply (select_by_pair_None cid scope (token_table s) r).
Qed.

Lemma get_token_something now cid scope s :
  fst (get_token now cid scope s) <> "" -> snd (get_token now cid scope s) = s.
Proof.
  unfold get_token. destruct (select_by_pair _ _ _) as [r0|]; [|done].
  by destruct (Before _ _).
Qed.

Lemma insert_tidy db tok cid scope exp :
  tidy db -> tok <> "" ->
  (forall r, r ∈ db -> ~ (client_id r = cid /\ access_scope r = scope)) ->
  tidy (db ++ [mkRow tok cid scope exp]).
Proof.
  intros [Hone Hne] Htok Hnone. split.
  - intros r1 r2 H1 H2 Hid Hsc.
    apply elem_of_app in H1 as [H1|H1]; apply elem_of_app in H2 as [H2|H2].
    + by apply Hone.
    + apply list_elem_of_singleton in H2. subst r2. simpl in *.
      by destruct (Hnone r1 H1).
    + apply list_elem_of_singleton in H1. subst r1. simpl in *.
      by destruct (Hnone r2 H2).
    + apply list_elem_of_singleton in H1. apply list_elem_of_singleton in H2. congruence.
  - apply Forall_app. split; [done|]. by constructor.
Qed.

Lemma AddToken_store_tidy now1 now2 ins cid scope s :
  tidy (token_table s) -> sound ins ->
  tidy (token_table (snd (AddToken_store now1 now2 ins cid scope s))).
Proof.
  intros Ht Hs. unfold AddToken_store.
  pose proof (get_token_nothing now1 cid scope s Ht) as Hnothing.
  pose proof (get_token_something now1 cid scope s) as Hsome.
  destruct (get_token now1 cid scope s) as [tk s1]. simpl in *.
  case_bool_decide as E; simpl.
  - destruct (Hnothing E) as [Ht1 Hnone]. destruct ins as [tok exp|]; simpl.
    + by apply insert_tidy.
    + destruct (decide (fst (get_token now2 cid scope s1) = "")) as [E2|E2].
      * by apply (get_token_nothing now2 cid scope s1).
      * by rewrite (get_token_something now2 cid scope s1 E2).
  - by rewrite (Hsome E).
Qed.

Lemma AddToken_tidy now1 now2 ins cid scope s :
  tidy (token_table s) -> sound ins ->
  tidy (token_table (snd (AddToken now1 now2 ins cid scope s))).
Proof.
  intros Ht Hs. unfold AddToken.
  pose proof (AddToken_store_tidy now1 now2 ins cid scope s Ht Hs) as H.
  destruct (AddToken_store _ _ _ _ _ _) as [tk s1].
  destruct (users s !! cid) as [u|]; [|done].
  by destruct (cached_token _ _ _) as [[?|]|].
Qed.

(** X19. With new and non-empty token values from the store, the requests
    keep the table tidy: it never holds two rows for the same client and
    scope. *)
Theorem one_token_per_pair (reqs : list Request) (s : State) :
  tidy (token_table s) ->
  all_fresh reqs s ->
  Forall (fun req => match req with Grant _ _ ins _ => sound ins | Check _ _ _ => True end) reqs ->
  tidy (token_table (serve_all reqs s)).
Proof.
  intros Ht Hf Hs. revert s Ht Hf.
  induction Hs as [|req rest Hreq _ IH]; intros s Ht Hf; simpl; [done|].
  apply IH; [|apply Hf].
  destruct req as [now1 now2 ins f|now1 now2 token]; simpl.
  - destruct (token_handler_state now1 now2 ins f s) as [->| ->]; [done|].
    by apply AddToken_tidy.
  - by rewrite CheckToken_table.
Qed.

Lemma one_token_per_pair_witness :
  tidy (token_table (serve_all [Grant 0 0 (InsertOk "T" 100) (Sample.grant "s3cret");
                                Grant 200 200 (InsertOk "U" 300) (Sample.grant "s3cret")]
                       Sample.boot)).
Proof.
  apply one_token_per_pair.
  - split; [intros r1 r2 H; by apply elem_of_nil in H | constructor].
  - simpl. split; [split; [apply not_elem_of_nil | apply lookup_empty]|].
    split; [|done]. vm_compute. split; [|reflexivity].
    intros H. inversion H as [|? ? ? H']. inversion H'.
  - repeat constructor; simpl; discriminate.
Defined.

(** Past its checks, the handler answers with what [AddToken] returns. *)
Lemma token_handler_checked now1 now2 ins f s st tok ex sc s' m1 m2 ins' s2 :
  token_handler now1 now2 ins f s = (JsonToken st tok ex sc, s') ->
  users s2 !! ClientId f = users s !! ClientId f ->
  token_handler m1 m2 ins' f s2 =
  match AddToken m1 m2 ins' (ClientId f) (Scope f) s2 with
  | (Panic, s3) => (Panicked, s3)
  | (Done token, s3) =>
      if bool_decide (token = "") then (JsonError 500 "Internal server error", s3)
      else (JsonToken 200 token 7200 (Scope f), s3)
  end.
Proof.
  unfold token_handler. intros H Hu. rewrite Hu.
  destruct (_ || _); [done|]. destruct (negb _); [done|].
  destruct (users s !! ClientId f) as [u|]; [|done].
  destruct (negb _); [done|]. by destruct (negb _).
Qed.

(** X20. Issuing again gives the same token: after a grant, a second
    request with the same form, made no later than the expiration time of
    the row of the token, is answered with the same token, and neither the
    store nor a cache changes; the store is not asked to create a row. *)
Theorem grant_again (now1 now2 m1 m2 : Time) (ins ins' : Inserted) (f : Form)
    (s s' : State) (st ex : Z) (tok sc : string) (r : TokenRow) :
  consistent s -> tidy (token_table s) -> fresh ins s -> sound ins ->
  token_handler now1 now2 ins f s = (JsonToken st tok ex sc, s') ->
  select_by_token tok (token_table s') = Some r ->
  m1 <= expiration_time r ->
  token_handler m1 m2 ins' f s' = (JsonToken 200 tok 7200 (Scope f), s').
Proof.
  intros Hc Ht Hf Hs Hh Hsel Hlive.
  pose proof (token_handler_granted _ _ _ _ _ _ _ _ _ _ Hh) as (Hadd & Hne & _ & _ & _ & u & Hu & _).
  pose proof (AddToken_caches now1 now2 ins (ClientId f) (Scope f) s) as [Hus _].
  rewrite Hadd in Hus. simpl in Hus.
  rewrite (token_handler_checked _ _ _ _ _ _ _ _ _ _ m1 m2 ins' s' Hh) by (by rewrite Hus).
  assert (Hsame : AddToken m1 m2 ins' (ClientId f) (Scope f) s' = (Done tok, s')).
  { unfold AddToken in Hadd |- *. rewrite Hus, Hu in *.
    destruct (cached_token (Scopes u) (Tokens u) (Scope f)) as [[tk|]|] eqn:Hcache;
      [by simplify_eq | | done].
    pose proof (AddToken_store_tidy now1 now2 ins (ClientId f) (Scope f) s Ht Hs) as Ht'.
    pose proof (AddToken_store_row now1 now2 ins (ClientId f) (Scope f) s tok Hc Hf
                  (cached_no_slot _ _ _ _ Hu Hcache)) as Hrow.
    pose proof (AddToken_store_consistent now1 now2 ins (ClientId f) (Scope f) s Hc Hf
                  (cached_no_slot _ _ _ _ Hu Hcache)) as Hc'.
    destruct (AddToken_store now1 now2 ins (ClientId f) (Scope f) s) as [tk s1] eqn:E.
    simpl in *. simplify_eq.
    destruct (Hrow eq_refl Hne) as (r' & Hsel' & Hid & Hsc). rewrite Hsel in Hsel'.
    simplify_eq.
    apply select_by_token_Some in Hsel as [Hin Htok].
    assert (Hget : get_token m1 (client_id r') (access_scope r') s' = (access_token r', s')).
    { unfold get_token.
      destruct (select_by_pair_found (client_id r') (access_scope r') (token_table s') r' Hin
                  eq_refl eq_refl) as (r0 & Hsel0).
      rewrite Hsel0. apply select_by_pair_Some in Hsel0 as (Hin0 & Hid0 & Hsc0).
      assert (r0 = r') as -> by (by apply (proj1 Ht')).
      unfold Before. by destruct (Z.ltb_spec (expiration_time r') m1); [lia|]. }
    unfold AddToken_store. rewrite <- Hid, <- Hsc, Hget.
    rewrite bool_decide_eq_false_2 by congruence. simpl. by rewrite Htok. }
  rewrite Hsame. by rewrite bool_decide_eq_false_2.
Qed.

Lemma grant_again_witness :
  token_handler 50 50 (InsertOk "U" 300) (Sample.grant "s3cret")
    (snd (token_handler 0 0 (InsertOk "T" 100) (Sample.grant "s3cret") Sample.boot))
  = (JsonToken 200 "T" 7200 "read",
     snd (token_handler 0 0 (InsertOk "T" 100) (Sample.grant "s3cret") Sample.boot)).
Proof.
  apply (grant_again 0 0 50 50 (InsertOk "T" 100) (InsertOk "U" 300) (Sample.grant "s3cret")
           Sample.boot _ 200 7200 "T" "read" (mkRow "T" "c1" "read" 100)).
  - apply boot_consistent.
  - split; [intros r1 r2 H; by apply elem_of_nil in H | constructor].
  - split; [apply not_elem_of_nil | apply lookup_empty].
  - simpl. discriminate.
  - vm_compute. reflexivity.
  - vm_compute. reflexivity.
  - simpl. lia.
Defined.

(** *** The [Authorization] header *)

Lemma Split_cons s sep : exists part parts, Split s sep = part :: parts.
Proof.
  induction s as [|c s (part & parts & IH)]; simpl; [by eexists _, _|].
  destruct (Ascii.eqb c sep); [by eexists _, _|]. rewrite IH. by eexists _, _.
Qed.

Lemma Split_whole s sep : contains sep s = false -> Split s sep = [s].
Proof.
  induction s as [|c s IH]; simpl; [done|].
  intros H. apply orb_false_iff in H as [H1 H2]. rewrite H1, (IH H2). done.
Qed.

Lemma Split_app a b sep :
  contains sep a = false -> Split (a ++ String sep b) sep = a :: Split b sep.
Proof.
  induction a as [|c a IH]; simpl.
  - intros _. by rewrite Ascii.eqb_refl.
  - intros H. apply orb_false_iff in H as [H1 H2]. rewrite H1, (IH H2). done.
Qed.

Lemma Split_join s sep parts :
  Split s sep = parts ->
  s = join sep parts /\ Forall (fun part => contains sep part = false) parts.
Proof.
  revert parts. induction s as [|c s IH]; simpl; intros parts H.
  - subst. split; [done|]. by repeat constructor.
  - destruct (Ascii.eqb c sep) eqn:E.
    + apply Ascii.eqb_eq in E. subst.
      destruct (IH _ eq_refl) as [Hs Hall].
      destruct (Split_cons s sep) as (part & rest & Hsp). rewrite Hsp in *.
      split; [|by constructor]. clear Hsp. by subst s.
    + destruct (Split_cons s sep) as (part & rest & Hsp). rewrite Hsp in *. subst.
      destruct (IH _ eq_refl) as [Hs Hall]. apply Forall_cons in Hall as [Hp Hrest].
      split.
      * clear Hsp. subst s. by destruct rest.
      * constructor; [simpl; by rewrite E | done].
Qed.

(** X21. The handler of [check/] takes a header exactly when it is
    ["Bearer "] followed by a token without a space, and then answers as
    [CheckToken] decides for that token; any other header gives 400
    "Incorrect 'Authorization' header" and changes nothing. *)
Theorem check_handler_header (now1 now2 : Time) (header : string) (s : State) :
  (forall token, header = "Bearer " ++ token -> contains " " token = false ->
     check_handler now1 now2 header s =
     match CheckToken now1 now2 token s with
     | (Panic, s1) => (Panicked, s1)
     | (Done (inr err), s1) => (JsonError 400 (Error err), s1)
     | (Done (inl (id, scope)), s1) => (JsonIdentity 200 id scope, s1)
     end) /\
  ((forall token, header = "Bearer " ++ token -> contains " " token = true) ->
   check_handler now1 now2 header s
   = (JsonError 400 "Incorrect 'Authorization' header", s)).
Proof.
  split.
  - intros token -> Hns. unfold check_handler.
    change ("Bearer " ++ token) with ("Bearer" ++ String " " token).
    rewrite Split_app by reflexivity. rewrite (Split_whole token) by done.
    simpl. by destruct (CheckToken now1 now2 token s) as [[[[? ?]|?]|] ?].
  - intros Hbad. unfold check_handler.
    destruct (Split header " ") as [|bearer [|token [|? ?]]] eqn:E; try done.
    case_bool_decide as Hb; [|done]. exfalso.
    apply Split_join in E as [Hh Hall]. simpl in Hh. subst bearer.
    apply Forall_cons in Hall as [_ Hall]. apply Forall_cons in Hall as [Hns _].
    rewrite (Hbad token Hh) in Hns. done.
Qed.

Lemma check_handler_header_witness :
  check_handler 50 50 "Bearer T"
    (mkState {["c1" := Sample.c1]} ∅ [mkRow "T" "c1" "read" 100])
  = (JsonIdentity 200 "c1" "read",
     snd (CheckToken 50 50 "T"
            (mkState {["c1" := Sample.c1]} ∅ [mkRow "T" "c1" "read" 100]))).
Proof.
  rewrite (proj1 (check_handler_header 50 50 "Bearer T"
                    (mkState {["c1" := Sample.c1]} ∅ [mkRow "T" "c1" "read" 100]))
             "T" eq_refl eq_refl).
  vm_compute. reflexivity.
Defined.

Lemma get_token_live now cid scope s tk :
  fst (get_token now cid scope s) = tk -> tk <> "" ->
  snd (get_token now cid scope s) = s /\
  exists r, r ∈ token_table s /\ access_token r = tk /\
            client_id r = cid /\ access_scope r = scope /\ now <= expiration_time r.
Proof.
  unfold get_token. destruct (select_by_pair _ _ _) as [r|] eqn:E; simpl; [|congruence].
  apply select_by_pair_Some in E as (Hin & Hid & Hsc).
  unfold Before. destruct (Z.ltb_spec (expiration_time r) now); simpl; [congruence|].
  intros <- _. split; [done|]. by exists r.
Qed.

(** X24. What [AddToken] takes from the store is never an expired token:
    when no token slot of the client is in use for the scope, a non-empty
    result is the token of the row the store has just created, or the
    token of a row of the table for the client and the scope that has not
    expired at the clock reading of the query. *)
Theorem AddToken_store_live (now1 now2 : Time) (ins : Inserted) (cid scope : string)
    (s : State) :
  no_slot cid scope s ->
  forall tk s', AddToken now1 now2 ins cid scope s = (Done tk, s') -> tk <> "" ->
  (exists exp, ins = InsertOk tk exp /\ mkRow tk cid scope exp ∈ token_table s') \/
  (exists r, r ∈ token_table s' /\ access_token r = tk /\ client_id r = cid /\
             access_scope r = scope /\
             (now1 <= expiration_time r \/ now2 <= expiration_time r)).
Proof.
  intros Hno tk s' Hadd Hne.
  assert (Hstore : AddToken_store now1 now2 ins cid scope s = (tk, s')).
  { unfold AddToken in Hadd. destruct (users s !! cid) as [u|] eqn:Hu.
    - destruct (cached_token _ _ _) as [[tk0|]|] eqn:Hc; simplify_eq.
      + apply cached_token_Some in Hc as (i & Hs & Ht & _).
        by destruct Hne, (Hno u i tk Hu Hs Ht).
      + by destruct (AddToken_store _ _ _ _ _ _); simplify_eq.
    - by destruct (AddToken_store _ _ _ _ _ _); simplify_eq. }
  unfold AddToken_store in Hstore.
  pose proof (get_token_live now1 cid scope s) as H1.
  destruct (get_token now1 cid scope s) as [tk1 s1]. simpl in *.
  case_bool_decide as E; simpl in Hstore.
  - destruct ins as [tok exp|].
    + simplify_eq. left. exists exp. split; [done|]. simpl.
      apply elem_of_app. right. by apply list_elem_of_singleton.
    + pose proof (get_token_live now2 cid scope s1 tk) as H2.
      rewrite Hstore in H2. simpl in H2.
      destruct (H2 eq_refl Hne) as (-> & r & ? & ? & ? & ? & ?).
      right. exists r. repeat split; try done. by right.
  - simplify_eq. destruct (H1 tk eq_refl Hne) as (-> & r & ? & ? & ? & ? & ?).
    right. exists r. repeat split; try done. by left.
Qed.

Lemma AddToken_store_live_witness :
  (exists exp, InsertOk "T" 100 = InsertOk "T" exp /\
     mkRow "T" "c1" "read" exp
     ∈ token_table (snd (AddToken 0 0 (InsertOk "T" 100) "c1" "read" Sample.boot))) \/
  (exists r, r ∈ token_table (snd (AddToken 0 0 (InsertOk "T" 100) "c1" "read" Sample.boot)) /\
     access_token r = "T" /\ client_id r = "c1" /\ access_scope r = "read" /\
     (0 <= expiration_time r \/ 0 <= expiration_time r)).
Proof.
  apply (AddToken_store_live 0 0 (InsertOk "T" 100) "c1" "read" Sample.boot).
  - intros u i tk Hu Hs Ht. simpl in Hu.
    apply lookup_singleton_Some in Hu as [_ <-].
    destruct i as [|i]; simpl in *; by simplify_eq.
  - vm_compute. reflexivity.
  - discriminate.
Defined.

Lemma GetAllUsers_app_retried pre answers reg n :
  Forall retried pre ->
  GetAllUsers (pre ++ answers) reg n = GetAllUsers answers reg (n + naps pre).
Proof.
  intros H. revert n. induction H as [|a pre Ha _ IH]; intros n; simpl.
  - f_equal. lia.
  - destruct Ha as [(rows & usrs & -> & Hs & Hlen)| ->]; simpl.
    + rewrite Hs. destruct (Z.eqb_spec (Z.of_nat (length usrs)) 1000) as [E|_]; [lia|].
      rewrite IH. f_equal. lia.
    + apply IH.
Qed.

(** X25. How [GetAllUsers] ends after answers that make it go on (short
    pages, and [pgx.ErrNoRows], which is retried at once): a query error
    or a row that cannot be scanned ends the process without a user being
    stored; a full page is loaded after one sleep for each page before
    it, none for the [pgx.ErrNoRows] answers. *)
Theorem GetAllUsers_outcomes (pre rest : list QueryAnswer) (reg : gmap string User)
    (rows : list Scanned) :
  Forall retried pre ->
  GetAllUsers (pre ++ QFail :: rest) reg 0 = Fatal /\
  (scan_rows rows = None -> GetAllUsers (pre ++ QRows rows :: rest) reg 0 = Fatal) /\
  (forall usrs, scan_rows rows = Some usrs -> Z.of_nat (length usrs) = 1000 ->
     GetAllUsers (pre ++ QRows rows :: rest) reg 0 = Loaded (store_all usrs reg) (naps pre)) /\
  GetAllUsers pre reg 0 = Looping reg (naps pre).
Proof.
  intros Hpre. repeat split.
  - by rewrite GetAllUsers_app_retried.
  - intros Hs. rewrite GetAllUsers_app_retried by done. simpl. by rewrite Hs.
  - intros usrs Hs Hlen. rewrite GetAllUsers_app_retried by done. simpl.
    rewrite Hs. by destruct (Z.eqb_spec (Z.of_nat (length usrs)) 1000).
  - rewrite <- (app_nil_r pre) at 1. by rewrite GetAllUsers_app_retried.
Qed.

Lemma GetAllUsers_outcomes_witness :
  GetAllUsers ([QNoRows; QRows (Sample.page 3)] ++ QFail :: []) ∅ 0 = Fatal.
Proof.
  apply (GetAllUsers_outcomes [QNoRows; QRows (Sample.page 3)] [] ∅ []).
  constructor; [by right|]. constructor; [|constructor].
  left. exists (Sample.page 3), (replicate 3 ("c1", Sample.c1)).
  split; [reflexivity|]. split; [reflexivity|]. vm_compute. discriminate.
Defined.

End AuthMore.

(** ** The middleware *)
Section GatewayFacts.
Import Clock Limiter Auth Gateway.
Local Open Scope string_scope.
Local Open Scope Z_scope.

Lemma handle_limiter t ins req rl s :
  fst (snd (handle t ins req (rl, s)))
  = snd (IsAllowed (r_create t) (r_refill t) (clientKey req s) rl).
Proof.
  unfold handle. destruct (IsAllowed _ _ _ _) as [ok rl1]. simpl.
  destruct ok; simpl; [|done].
  destruct req as [f ip|h ip].
  - by destruct (token_handler _ _ _ _ _).
  - by destruct (check_handler _ _ _ _).
Qed.

Lemma handle_refused t ins req rl s :
  refused (fst (handle t ins req (rl, s)))
  = negb (fst (IsAllowed (r_create t) (r_refill t) (clientKey req s) rl)).
Proof.
  unfold handle. destruct (IsAllowed _ _ _ _) as [ok rl1]. simpl.
  destruct ok; simpl; [|done].
  destruct req as [f ip|h ip].
  - by destruct (token_handler _ _ _ _ _).
  - by destruct (check_handler _ _ _ _).
Qed.


Lemma replies_refused t c reqs rl s :
  c <> "" ->
  Forall (fun p => exists f ip, snd p = PostToken f ip /\ ClientId f = c) reqs ->
  refused <$> replies t reqs (rl, s)
  = negb <$> decisions (replicate (length reqs) (mkCall c (r_create t) (r_refill t))) rl.
Proof.
  intros Hc Hall. revert rl s.
  induction Hall as [|[ins req] reqs (f & ip & Hreq & Hid) _ IH]; intros rl s; [done|].
  simpl in Hreq. subst req.
  change (length ((ins, PostToken f ip) :: reqs)) with (S (length reqs)).
  rewrite replicate_S, decisions_cons. cbn [c_create c_now c_key].
  cbn [replies].
  pose proof (handle_limiter t ins (PostToken f ip) rl s) as Hl.
  pose proof (handle_refused t ins (PostToken f ip) rl s) as Hr.
  assert (Hkey : clientKey (PostToken f ip) s = c).
  { unfold clientKey. by rewrite Hid, bool_decide_eq_false_2. }
  rewrite Hkey in Hl, Hr.
  destruct (handle t ins (PostToken f ip) (rl, s)) as [reply [rl' s']].
  simpl in Hl, Hr. subst rl'. rewrite !fmap_cons, Hr, IH. done.
Qed.

(** X23. The bucket of a client is charged before its credentials are
    checked: of requests to [token/] that name the client [c], made at one
    clock reading on a limiter without bucket for [c], request number [i]
    (counted from one) is refused with 429 exactly when [i] exceeds the
    capacity, whatever secrets and scopes the requests carry. *)
Theorem charged_by_name (t : Readings) (c : string) (reqs : list (Inserted * Routed))
    (rl : RateLimiter) (s : State) (i : nat) :
  c <> "" -> r_create t = r_refill t ->
  Forall (fun p => exists f ip, snd p = PostToken f ip /\ ClientId f = c) reqs ->
  limiters rl !! c = None -> (i < length reqs)%nat ->
  refused <$> (replies t reqs (rl, s) !! i)
  = Some (negb (Qle_bool (inject_Z (Z.of_nat (S i))) (rl_capacity rl))).
Proof.
  intros Hc Ht Hall Hnone Hi.
  rewrite <- list_lookup_fmap, (replies_refused t c reqs rl s Hc Hall).
  rewrite list_lookup_fmap, Ht.
  by rewrite (burst_fresh (r_refill t) c (length reqs) rl i).
Qed.

Lemma charged_by_name_witness :
  refused <$> (replies (mkReadings 0 0 0 0 0)
                 [(InsertFailed, PostToken (Sample.grant "guess1") "10.0.0.9");
                  (InsertFailed, PostToken (Sample.grant "guess2") "10.0.0.9");
                  (InsertOk "T" 100, PostToken (Sample.grant "s3cret") "10.0.0.1")]
                 (NewRateLimiter 2 1, Sample.boot) !! 2%nat)
  = Some true.
Proof.
  rewrite (charged_by_name (mkReadings 0 0 0 0 0) "c1").
  - reflexivity.
  - discriminate.
  - reflexivity.
  - repeat constructor; by eexists _, _.
  - apply lookup_empty.
  - simpl. lia.
Defined.

(** X26. Whom a request to [check/] is charged to: with a header
    ["Bearer "] and a token without a space, the client recorded for the
    token in the token cache, expired or not, and the address of the
    caller when the cache has no entry for the token (or records an empty
    client). *)
Theorem check_charged_to (token ip : string) (s : State) :
  contains " " token = false ->
  clientKey (GetCheck ("Bearer " ++ token) ip) s =
  match tokens s !! token with
  | Some tokenInfo => if bool_decide (ClientID tokenInfo = "") then ip else ClientID tokenInfo
  | None => ip
  end.
Proof.
  intros Hns. unfold clientKey.
  change ("Bearer " ++ token) with ("Bearer" ++ String " " token).
  rewrite Split_app by reflexivity. rewrite (Split_whole token) by done.
  rewrite !(bool_decide_eq_true_2 ("Bearer" = "Bearer")) by done.
  by destruct (tokens s !! token) as [ti|].
Qed.

Lemma check_charged_to_witness :
  clientKey (GetCheck ("Bearer " ++ "T") "10.0.0.1") Sample.boot = "10.0.0.1".
Proof.
  rewrite (check_charged_to "T" "10.0.0.1" Sample.boot); reflexivity.
Defined.

End GatewayFacts.
